(** * Exact substring search: naive scan, KMP, Rabin-Karp and Horspool

    A shallow embedding of the string matchers of the repository
    (js/script.js, js/sentiment.js, js/search.js and
    cpp/Mathcing_Algorithms.cpp) together with the properties the
    specification states about them, and of the code around them: the
    conversion of an offset to a row and a column, the dispatchers, the
    keyword analysis and the reader of CSV lines.

    Conventions of the embedding.
    - A JavaScript string is the list of its UTF-16 code units ([list N]);
      [s[i]] is [get s i], which is [None] where JavaScript yields
      [undefined]; [===] on such values is equality of [option N].
    - JavaScript numbers that hold array indices, lengths and hash values
      are integers far below 2^53 in all the code modelled here (see
      [rk_arithmetic_exact]), so they are exact and are modelled by [Z];
      [%] is the truncating remainder [Z.rem].
    - The shift table of Horspool is a JavaScript object whose keys are
      one-unit strings; it is a [gmap N Z].  No property inherited from
      [Object.prototype] has a one-unit name, and the key ["undefined"] is
      never stored, so a lookup is a lookup in the map.
    - Loops are run by the combinator [loop] with an explicit budget of
      iterations (fuel); a computation is [None] when the budget is
      exhausted or when it reads [undefined] (or [NaN]) where a number is
      required.  Every theorem about a result shows that a stated budget
      suffices for the result [Some _]; results do not depend on the
      budget ([matchers_sound]).
    - The functions of the C++ programs work on the bytes of a
      [std::string]; [None] also stands for behaviour that C++ leaves
      undefined.  Values of type [int] are integers of [Z]: where a length
      is stored in an [int], or an [int] counter is compared with a size,
      the conversion or the increment is checked, and the theorems carry
      the bound under which the values fit. *)

From stdpp Require Import gmap list list_numbers sorting strings.

Local Open Scope Z_scope.

(** ** Loops with [break] *)

Section Loop.
Context {S : Type}.

Inductive flow : Type :=
| Continue (s : S)
| Break (s : S).

(** [while (cond s) { s = body s }]; the body gets the remaining budget
    for the loops nested in it. *)
Fixpoint loop (fuel : nat) (cond : S → bool)
    (body : nat → S → option flow) (s : S) : option S :=
  match fuel with
  | O => None
  | Datatypes.S fuel' =>
      if cond s then
        match body fuel' s with
        | Some (Continue s') => loop fuel' cond body s'
        | Some (Break s') => Some s'
        | None => None
        end
      else Some s
  end.

(** The states at the head of the loop in a run from [s0]. *)
Inductive reaches (cond : S → bool) (body : nat → S → option flow) (s0 : S)
    : S → Prop :=
| reaches_start : reaches cond body s0 s0
| reaches_next s s' f :
    reaches cond body s0 s →
    cond s = true →
    body f s = Some (Continue s') →
    reaches cond body s0 s'.

End Loop.

Global Arguments flow : clear implicits.

(** A computation is monotone in its budget when a larger budget does not
    change a result. *)
Definition monotone {A} (f : nat → option A) : Prop :=
  ∀ k k' r, (k ≤ k')%nat → f k = Some r → f k' = Some r.

(** ** JavaScript strings and arrays *)

Abbreviation str := (list N).

(** The string of a literal of the source (ASCII only). *)
Definition str_of (s : string) : str :=
  Ascii.N_of_ascii <$> String.list_ascii_of_string s.

(** [.length] *)
Definition len {A} (l : list A) : Z := Z.of_nat (length l).

(** [l[i]]: [None] stands for [undefined]. *)
Definition get {A} (l : list A) (i : Z) : option A :=
  if decide (0 ≤ i) then l !! Z.to_nat i else None.

(** [l[i] = x] on an array, for an index inside the array (an index at or
    past the end would extend a JavaScript array; the code modelled here
    never does that, and the model leaves the array unchanged there). *)
Definition store {A} (l : list A) (i : Z) (x : A) : list A :=
  if decide (0 ≤ i) then <[Z.to_nat i := x]> l else l.

(** [!s] for a string: true exactly for the empty string. *)
Definition falsy (s : str) : bool := bool_decide (s = []).

(** [a === b] and [a !== b] on the values of [s[i]]. *)
Definition strict_eq (a b : option N) : bool := bool_decide (a = b).
Definition strict_ne (a b : option N) : bool := bool_decide (a ≠ b).

(** [s.charCodeAt(i)]; [None] stands for [NaN]. *)
Definition charCodeAt (s : str) (i : Z) : option Z := Z.of_N <$> get s i.

(** ** Reference definitions *)

(** [text[i .. i+m)] *)
Definition window (text : str) (i m : Z) : str :=
  take (Z.to_nat m) (drop (Z.to_nat i) text).

(** The pattern occurs in the text at offset [i]. *)
Definition occurs_at (text pattern : str) (i : Z) : Prop :=
  0 ≤ i ∧ i + len pattern ≤ len text ∧ window text i (len pattern) = pattern.

Global Instance occurs_at_dec text pattern i : Decision (occurs_at text pattern i).
Proof. unfold occurs_at. apply _. Defined.

(** The offsets below [k] at which the pattern occurs, in increasing order. *)
Definition occurrences_below (text pattern : str) (k : Z) : list Z :=
  filter (occurs_at text pattern) (seqZ 0 k).

(** All the offsets [0 <= i <= len text - len pattern] at which the pattern
    occurs, in increasing order. *)
Definition occurrences (text pattern : str) : list Z :=
  occurrences_below text pattern (len text - len pattern + 1).

(** What every guarded matcher is expected to return: nothing for an empty
    pattern, all the occurrences otherwise. *)
Definition expected (text pattern : str) : list Z :=
  if decide (pattern = []) then [] else occurrences text pattern.

(** [b] is a border of [w]: a proper prefix of [w] that is also a suffix. *)
Definition is_border (b w : str) : Prop :=
  b `prefix_of` w ∧ b `suffix_of` w ∧ (length b < length w)%nat.

(** [k] is the length of the longest border of [w]. *)
Definition longest_border (w : str) (k : Z) : Prop :=
  (∃ b, is_border b w ∧ len b = k) ∧ ∀ b, is_border b w → len b ≤ k.

(** Direct evaluation of a window's code units by Horner's rule, reduced
    modulo [prime] at each step. *)
Definition horner (base prime : Z) (w : str) : Z :=
  foldl (λ h c, (base * h + Z.of_N c) `mod` prime) 0 w.

(** The value of a window read as a number in radix [base], unreduced. *)
Definition poly (base : Z) (w : str) : Z :=
  foldl (λ h c, base * h + Z.of_N c) 0 w.

(** A budget of iterations that suffices for every matcher. *)
Definition budget (text pattern : str) : nat :=
  Z.to_nat (2 * len text + 2 * len pattern + 4).

(** ** Algorithm tags and character classes *)

(** The tags of the dispatchers, as JavaScript strings. *)
Definition tag_naive : str := [110; 97; 105; 118; 101]%N.
Definition tag_kmp : str := [107; 109; 112]%N.
Definition tag_hashing : str := [104; 97; 115; 104; 105; 110; 103]%N.
Definition tag_horspool : str := [104; 111; 114; 115; 112; 111; 111; 108]%N.

(** The units matched by [\s] in a JavaScript regular expression: white
    space and line terminators. *)
Definition white_space : list N :=
  [9; 10; 11; 12; 13; 32; 160; 5760;
   8192; 8193; 8194; 8195; 8196; 8197; 8198; 8199; 8200; 8201; 8202;
   8232; 8233; 8239; 8287; 12288; 65279]%N.

Definition is_space (c : N) : bool := bool_decide (c ∈ white_space).

(** The string without its leading white space. *)
Fixpoint drop_spaces (s : str) : str :=
  match s with
  | c :: rest => if is_space c then drop_spaces rest else s
  | [] => []
  end.

(** [s.trim()] *)
Definition trim (s : str) : str :=
  reverse (drop_spaces (reverse (drop_spaces s))).

(** ** js/script.js, the search page (lines 363-540) *)

Module Script.

(** *** Naive matcher *)

(** The inner loop of [naiveStringMatching] (and of the verification
    step of [rabinKarpStringMatching]); the result is the final value of
    the flag [match]. *)
Definition compare_window (fuel : nat) (text pattern : str) (m i : Z) : option bool :=
  '(_, mtch) ← loop fuel
    (λ '(j, _), bool_decide (j < m))
    (λ _ '(j, mtch),
       if strict_ne (get text (i + j)) (get pattern j)
       then Some (Break (j, false))
       else Some (Continue (j + 1, mtch)))
    (0, true);
  Some mtch.

Definition naiveStringMatching (fuel : nat) (text pattern : str) : option (list Z) :=
  let matches := [] in
  if falsy pattern || falsy text || bool_decide (len pattern > len text)
  then Some matches
  else
    let n := len text in
    let m := len pattern in
    '(_, matches) ← loop fuel
      (λ '(i, _), bool_decide (i ≤ n - m))
      (λ fuel '(i, matches),
         mtch ← compare_window fuel text pattern m i;
         let matches := if mtch : bool then matches ++ [i] else matches in
         Some (Continue (i + 1, matches)))
      (0, matches);
    Some matches.

(** *** KMP *)

(** State of the loop of [computeLPS]. *)
Record lps_state := LpsState { lps_tab : list Z; lps_len : Z; lps_i : Z }.

Definition computeLPS_body (pattern : str) (s : lps_state) : option (flow lps_state) :=
  let '(LpsState lps len_ i) := s in
  if strict_eq (get pattern i) (get pattern len_) then
    let len_ := len_ + 1 in
    let lps := store lps i len_ in
    Some (Continue (LpsState lps len_ (i + 1)))
  else if bool_decide (len_ ≠ 0) then
    len_ ← get lps (len_ - 1);
    Some (Continue (LpsState lps len_ i))
  else
    let lps := store lps i 0 in
    Some (Continue (LpsState lps len_ (i + 1))).

Definition computeLPS (fuel : nat) (pattern : str) : option (list Z) :=
  let m := len pattern in
  let lps := replicate (Z.to_nat m) 0 in
  s ← loop fuel (λ s, bool_decide (lps_i s < m))
                (λ _, computeLPS_body pattern)
                (LpsState lps 0 1);
  Some (lps_tab s).

(** State of the search loop of [kmpStringMatching]: the text cursor
    [i], the pattern cursor [j] and the matches pushed so far. *)
Record kmp_state := KmpState { kmp_i : Z; kmp_j : Z; kmp_matches : list Z }.

(** One iteration of [while (i < n)]. *)
Definition kmp_body (text pattern : str) (n m : Z) (lps : list Z)
    (s : kmp_state) : option (flow kmp_state) :=
  let '(KmpState i j matches) := s in
  let '(i, j) :=
    if strict_eq (get text i) (get pattern j) then (i + 1, j + 1) else (i, j) in
  if bool_decide (j = m) then
    let matches := matches ++ [i - j] in
    j ← get lps (j - 1);
    Some (Continue (KmpState i j matches))
  else if bool_decide (i < n) && strict_ne (get text i) (get pattern j) then
    if bool_decide (j ≠ 0) then
      j ← get lps (j - 1);
      Some (Continue (KmpState i j matches))
    else
      Some (Continue (KmpState (i + 1) j matches))
  else Some (Continue (KmpState i j matches)).

Definition kmp_search (fuel : nat) (text pattern : str) (n m : Z) (lps : list Z)
    : option (list Z) :=
  s ← loop fuel (λ s, bool_decide (kmp_i s < n))
                (λ _, kmp_body text pattern n m lps)
                (KmpState 0 0 []);
  Some (kmp_matches s).

Definition kmpStringMatching (fuel : nat) (text pattern : str) : option (list Z) :=
  let matches := [] in
  if falsy pattern || falsy text then Some matches
  else
    let n := len text in
    let m := len pattern in
    if bool_decide (m = 0) then Some matches
    else
      lps ← computeLPS fuel pattern;
      kmp_search fuel text pattern n m lps.

(** *** Rabin-Karp *)

Definition prime : Z := 101.
Definition base : Z := 256.

(** [h = base^(m-1) % prime], by repeated multiplication. *)
Definition rk_multiplier (fuel : nat) (m : Z) : option Z :=
  '(_, h) ← loop fuel
    (λ '(i, _), bool_decide (i < m - 1))
    (λ _ '(i, h), Some (Continue (i + 1, Z.rem (h * base) prime)))
    (0, 1);
  Some h.

(** The initial hashes of the pattern and of the first window. *)
Definition rk_init (fuel : nat) (text pattern : str) (m : Z) : option (Z * Z) :=
  '(_, patternHash, textHash) ← loop fuel
    (λ '(i, _, _), bool_decide (i < m))
    (λ _ '(i, patternHash, textHash),
       pc ← charCodeAt pattern i;
       tc ← charCodeAt text i;
       Some (Continue (i + 1,
                       Z.rem (base * patternHash + pc) prime,
                       Z.rem (base * textHash + tc) prime)))
    (0, 0, 0);
  Some (patternHash, textHash).

(** The rolling update: the hash of the next window from the hash of the
    current one, the outgoing and the incoming code unit. *)
Definition rk_roll (h textHash out inc : Z) : Z :=
  let textHash := Z.rem (base * (textHash - out * h) + inc) prime in
  if bool_decide (textHash < 0) then textHash + prime else textHash.

(** State of the sliding loop: window start, hash of the window, matches. *)
Record rk_state := RkState { rk_i : Z; rk_hash : Z; rk_matches : list Z }.

Definition rk_body (text pattern : str) (n m h patternHash : Z)
    (fuel : nat) (s : rk_state) : option (flow rk_state) :=
  let '(RkState i textHash matches) := s in
  matches ←
    (if bool_decide (patternHash = textHash) then
       mtch ← compare_window fuel text pattern m i;
       Some (if mtch : bool then matches ++ [i] else matches)
     else Some matches);
  textHash ←
    (if bool_decide (i < n - m) then
       out ← charCodeAt text i;
       inc ← charCodeAt text (i + m);
       Some (rk_roll h textHash out inc)
     else Some textHash);
  Some (Continue (RkState (i + 1) textHash matches)).

Definition rabinKarpStringMatching (fuel : nat) (text pattern : str) : option (list Z) :=
  let matches := [] in
  if falsy pattern || falsy text || bool_decide (len pattern > len text)
  then Some matches
  else
    let n := len text in
    let m := len pattern in
    h ← rk_multiplier fuel m;
    '(patternHash, textHash) ← rk_init fuel text pattern m;
    s ← loop fuel (λ s, bool_decide (rk_i s ≤ n - m))
                  (rk_body text pattern n m h patternHash)
                  (RkState 0 textHash matches);
    Some (rk_matches s).

(** *** Horspool *)

(** The bad-character shift table (lines 513-518): a JavaScript object
    keyed by the one-unit strings [pattern[i]]. *)
Definition buildShiftTable (fuel : nat) (pattern : str) (m : Z) : option (gmap N Z) :=
  '(_, shiftTable) ← loop fuel
    (λ '(i, _), bool_decide (i < m - 1))
    (λ _ '(i, shiftTable),
       c ← get pattern i;
       Some (Continue (i + 1, <[c := m - 1 - i]> shiftTable)))
    (0, ∅);
  Some shiftTable.

(** The right-to-left comparison: the final value of [j]. *)
Definition compare_backwards (fuel : nat) (text pattern : str) (m i : Z) : option Z :=
  loop fuel
    (λ j, bool_decide (j >= 0) && strict_eq (get text (i + j)) (get pattern j))
    (λ _ j, Some (Continue (j - 1)))
    (m - 1).

(** [(shift !== undefined) ? shift : m] for [shift = shiftTable[c]]. *)
Definition shift_for (shiftTable : gmap N Z) (m : Z) (c : option N) : Z :=
  match c ≫= (shiftTable !!.) with
  | Some shift => shift
  | None => m
  end.

(** One iteration of [while (i <= n - m)]. *)
Definition horspool_body (text pattern : str) (m : Z) (shiftTable : gmap N Z)
    (fuel : nat) (s : Z * list Z) : option (flow (Z * list Z)) :=
  let '(i, matches) := s in
  j ← compare_backwards fuel text pattern m i;
  if bool_decide (j < 0) then
    Some (Continue (i + 1, matches ++ [i]))
  else
    Some (Continue (i + shift_for shiftTable m (get text (i + m - 1)), matches)).

Definition horspoolStringMatching (fuel : nat) (text pattern : str) : option (list Z) :=
  let matches := [] in
  if falsy pattern || falsy text || bool_decide (len pattern > len text)
  then Some matches
  else
    let n := len text in
    let m := len pattern in
    shiftTable ← buildShiftTable fuel pattern m;
    '(_, matches) ← loop fuel
      (λ '(i, _), bool_decide (i ≤ n - m))
      (horspool_body text pattern m shiftTable)
      (0, matches);
    Some matches.

(** *** Row and column, and the dispatcher (lines 549-603) *)

Record rowcol := RowCol { rc_row : Z; rc_col : Z }.

(** [computeRowCol]; the line feed is the unit 10. *)
Definition computeRowCol (fuel : nat) (text : str) (index : Z) : option rowcol :=
  '(_, row, col) ← loop fuel
    (λ '(i, _, _), bool_decide (i < index))
    (λ _ '(i, row, col),
       if strict_eq (get text i) (Some 10%N)
       then Some (Continue (i + 1, row + 1, 1))
       else Some (Continue (i + 1, row, col + 1)))
    (0, 1, 1);
  Some (RowCol row col).

(** A match object [{ pos, row, col }]. *)
Record match_pos := MatchPos { mp_pos : Z; mp_row : Z; mp_col : Z }.

(** The object returned by [performStringMatching]. *)
Record search_result := SearchResult {
  sr_matches : list match_pos;
  sr_count : Z;
  sr_algorithm : str;
  sr_processingTime : str;
  sr_pattern : str
}.

(** [performStringMatching].  The two readings of the clock come from the
    environment: [elapsed] is the string
    [(endTime - startTime).toFixed(2)]. *)
Definition performStringMatching (elapsed : str) (fuel : nat)
    (text pattern algorithm : str) : option search_result :=
  indices ←
    (if bool_decide (algorithm = tag_naive) then
       naiveStringMatching fuel text pattern
     else if bool_decide (algorithm = tag_kmp) then
       kmpStringMatching fuel text pattern
     else if bool_decide (algorithm = tag_hashing) then
       rabinKarpStringMatching fuel text pattern
     else if bool_decide (algorithm = tag_horspool) then
       horspoolStringMatching fuel text pattern
     else
       naiveStringMatching fuel text pattern);
  let processingTime := elapsed in
  matches ← mapM (λ pos,
                    rc ← computeRowCol fuel text pos;
                    Some (MatchPos pos (rc_row rc) (rc_col rc)))
                 indices;
  Some (SearchResult matches (len matches) algorithm
                     (processingTime ++ [109; 115]%N) pattern).

End Script.

(** ** js/sentiment.js (lines 24-185) *)

(** The four functions repeat those of js/script.js statement for
    statement, so the loop bodies are shared with [Script]; [kmpSearch] has
    the loop of [computeLPS] written in line. *)
Module Sentiment.

Definition naiveSearch (fuel : nat) (text pattern : str) : option (list Z) :=
  let matches := [] in
  if falsy pattern || falsy text || bool_decide (len pattern > len text)
  then Some matches
  else
    let n := len text in
    let m := len pattern in
    '(_, matches) ← loop fuel
      (λ '(i, _), bool_decide (i ≤ n - m))
      (λ fuel '(i, matches),
         mtch ← Script.compare_window fuel text pattern m i;
         let matches := if mtch : bool then matches ++ [i] else matches in
         Some (Continue (i + 1, matches)))
      (0, matches);
    Some matches.

Definition kmpSearch (fuel : nat) (text pattern : str) : option (list Z) :=
  let matches := [] in
  if falsy pattern || falsy text then Some matches
  else
    let n := len text in
    let m := len pattern in
    if bool_decide (m = 0) then Some matches
    else
      let lps := replicate (Z.to_nat m) 0 in
      s ← loop fuel (λ s, bool_decide (Script.lps_i s < m))
                    (λ _, Script.computeLPS_body pattern)
                    (Script.LpsState lps 0 1);
      let lps := Script.lps_tab s in
      s ← loop fuel (λ s, bool_decide (Script.kmp_i s < n))
                    (λ _, Script.kmp_body text pattern n m lps)
                    (Script.KmpState 0 0 matches);
      Some (Script.kmp_matches s).

Definition hashingSearch (fuel : nat) (text pattern : str) : option (list Z) :=
  let matches := [] in
  if falsy pattern || falsy text || bool_decide (len pattern > len text)
  then Some matches
  else
    let n := len text in
    let m := len pattern in
    h ← Script.rk_multiplier fuel m;
    '(patternHash, textHash) ← Script.rk_init fuel text pattern m;
    s ← loop fuel (λ s, bool_decide (Script.rk_i s ≤ n - m))
                  (Script.rk_body text pattern n m h patternHash)
                  (Script.RkState 0 textHash matches);
    Some (Script.rk_matches s).

Definition horspoolSearch (fuel : nat) (text pattern : str) : option (list Z) :=
  let matches := [] in
  if falsy pattern || falsy text || bool_decide (len pattern > len text)
  then Some matches
  else
    let n := len text in
    let m := len pattern in
    shiftTable ← Script.buildShiftTable fuel pattern m;
    '(_, matches) ← loop fuel
      (λ '(i, _), bool_decide (i ≤ n - m))
      (Script.horspool_body text pattern m shiftTable)
      (0, matches);
    Some matches.

(** The units of the character class of the regular expression of
    [findMatches]: white space, and the punctuation marks full stop, comma,
    exclamation mark, question mark, semicolon, colon, apostrophe, double
    quote, round, square and curly brackets, and hyphen. *)
Definition boundary_units : list N :=
  white_space ++ [46; 44; 33; 63; 59; 58; 39; 34; 40; 41; 91; 93; 123; 125; 45]%N.

(** The test of the regular expression on the value [c] of [text[k]]; the
    string that [undefined] converts to has no unit in the class. *)
Definition boundary_test (c : option N) : bool :=
  match c with
  | Some c => bool_decide (c ∈ boundary_units)
  | None => false
  end.

(** The predicate of the filter of [findMatches]. *)
Definition isWordBoundary (text pattern : str) (pos : Z) : bool :=
  let charBefore :=
    if bool_decide (pos > 0) then get text (pos - 1) else Some 32%N in
  let charAfter :=
    if bool_decide (pos + len pattern < len text)
    then get text (pos + len pattern) else Some 32%N in
  boundary_test charBefore && boundary_test charAfter.

(** [findMatches] (lines 190-216). *)
Definition findMatches (fuel : nat) (text pattern algorithm : str)
    : option (list Z) :=
  rawMatches ←
    (if bool_decide (algorithm = tag_naive) then naiveSearch fuel text pattern
     else if bool_decide (algorithm = tag_horspool) then
       horspoolSearch fuel text pattern
     else if bool_decide (algorithm = tag_kmp) then kmpSearch fuel text pattern
     else if bool_decide (algorithm = tag_hashing) then
       hashingSearch fuel text pattern
     else naiveSearch fuel text pattern);
  Some (filter (λ pos, Is_true (isWordBoundary text pattern pos)) rawMatches).

End Sentiment.

(** ** js/search.js, the movie search (lines 29-93) *)

Module Search.

(** [computeLPS] (lines 29-50) repeats the function of js/script.js
    statement for statement; the loop body is shared. *)
Definition computeLPS (fuel : nat) (pattern : str) : option (list Z) :=
  let m := len pattern in
  let lps := replicate (Z.to_nat m) 0 in
  s ← loop fuel (λ s, bool_decide (Script.lps_i s < m))
                (λ _, Script.computeLPS_body pattern)
                (Script.LpsState lps 0 1);
  Some (Script.lps_tab s).

Section Lower.
(** [String.prototype.toLowerCase] belongs to the language, not to the
    repository: the matcher is modelled for any such function. *)
Context (toLowerCase : str → str).

Definition kmpStringMatching (fuel : nat) (text pattern : str) : option (list Z) :=
  let matches := [] in
  if falsy pattern || falsy text then Some matches
  else
    let lowerText := toLowerCase text in
    let lowerPattern := toLowerCase pattern in
    let n := len lowerText in
    let m := len lowerPattern in
    if bool_decide (m = 0) || bool_decide (m > n) then Some matches
    else
      lps ← computeLPS fuel lowerPattern;
      Script.kmp_search fuel lowerText lowerPattern n m lps.

End Lower.

(** [toLowerCase] on Basic Latin, where it sends [A]-[Z] to [a]-[z] and
    leaves every other unit unchanged (used for the examples). *)
Definition lower_unit (c : N) : N :=
  if bool_decide (65 ≤ c ≤ 90)%N then (c + 32)%N else c.

Definition latin_toLowerCase (s : str) : str := lower_unit <$> s.

(** *** CSV lines (lines 129-149) *)

(** State of the loop of [parseCSVLine]. *)
Record csv_state := CsvState {
  csv_result : list str;
  csv_current : str;
  csv_inQuotes : bool
}.

(** The body of the loop for the unit [char]: the quote is 34 and the comma
    is 44. *)
Definition csv_step (s : csv_state) (char : N) : csv_state :=
  let '(CsvState result current inQuotes) := s in
  if bool_decide (char = 34%N) then
    CsvState result current (negb inQuotes)
  else if bool_decide (char = 44%N) && negb inQuotes then
    CsvState (result ++ [current]) [] inQuotes
  else
    CsvState result (current ++ [char]) inQuotes.

(** The [replace] of [parseCSVLine]: a double quote at the start and a
    double quote at the end of the value are removed. *)
Definition strip_quotes (val : str) : str :=
  let val := match val with
             | c :: rest => if bool_decide (c = 34%N) then rest else val
             | [] => val
             end in
  match reverse val with
  | c :: rest => if bool_decide (c = 34%N) then reverse rest else val
  | [] => val
  end.

Definition parseCSVLine (fuel : nat) (line : str) : option (list str) :=
  '(_, s) ← loop fuel
    (λ '(i, _), bool_decide (i < len line))
    (λ _ '(i, s),
       char ← get line i;
       Some (Continue (i + 1, csv_step s char)))
    (0, CsvState [] [] false);
  let result := csv_result s ++ [csv_current s] in
  Some ((λ val, trim (strip_quotes val)) <$> result).

End Search.

(** ** js/script.js, the keyword page (lines 1039-1195) *)

Module Keywords.

(** [naiveSearch] (lines 1055-1073): no guard on the pattern; the inner
    loop leaves through [break] with [j < m]. *)
Definition naiveSearch (fuel : nat) (text pattern : str) : option (list Z) :=
  let matches := [] in
  let n := len text in
  let m := len pattern in
  '(_, matches) ← loop fuel
    (λ '(i, _), bool_decide (i ≤ n - m))
    (λ fuel '(i, matches),
       j ← loop fuel
             (λ j, bool_decide (j < m))
             (λ _ j, if strict_ne (get text (i + j)) (get pattern j)
                     then Some (Break j)
                     else Some (Continue (j + 1)))
             0;
       let matches := if bool_decide (j = m) then matches ++ [i] else matches in
       Some (Continue (i + 1, matches)))
    (0, matches);
  Some matches.

(** [horspoolSearch] (lines 1076-1103).  The table is built by the same
    loop as in [horspoolStringMatching]; [badChar[c] || m] takes [m] for a
    missing entry and for the entry 0. *)
Definition horspoolSearch (fuel : nat) (text pattern : str) : option (list Z) :=
  let matches := [] in
  let n := len text in
  let m := len pattern in
  badChar ← Script.buildShiftTable fuel pattern m;
  '(_, matches) ← loop fuel
    (λ '(i, _), bool_decide (i ≤ n - m))
    (λ fuel '(i, matches),
       j ← loop fuel
             (λ j, bool_decide (j >= 0) &&
                   strict_eq (get pattern j) (get text (i + j)))
             (λ _ j, Some (Continue (j - 1)))
             (m - 1);
       if bool_decide (j < 0) then
         Some (Continue (i + 1, matches ++ [i]))
       else
         let shift :=
           match get text (i + m - 1) ≫= (badChar !!.) with
           | Some v => if bool_decide (v = 0) then m else v
           | None => m
           end in
         Some (Continue (i + shift, matches)))
    (0, matches);
  Some matches.

(** [failure[i] = j] on the array [failure]: an index equal to the length
    appends; an index past the length would leave holes, which the model
    does not represent. *)
Definition assign (l : list Z) (i x : Z) : option (list Z) :=
  if bool_decide (0 ≤ i < len l) then Some (store l i x)
  else if bool_decide (i = len l) then Some (l ++ [x])
  else None.

(** The inner loop [while (j > 0 && s[i] !== pattern[j]) j = failure[j - 1]]. *)
Definition kmp_fall_back (fuel : nat) (s pattern : str) (failure : list Z)
    (i j : Z) : option Z :=
  loop fuel
    (λ j, bool_decide (j > 0) && strict_ne (get s i) (get pattern j))
    (λ _ j, j ← get failure (j - 1); Some (Continue j))
    j.

(** The failure function of [kmpSearch] (lines 1111-1123). *)
Definition buildFailure (fuel : nat) (pattern : str) : option (list Z) :=
  let m := len pattern in
  let failure := [0] in
  let j := 0 in
  '(_, _, failure) ← loop fuel
    (λ '(i, _, _), bool_decide (i < m))
    (λ fuel '(i, j, failure),
       j ← kmp_fall_back fuel pattern pattern failure i j;
       let j := if strict_eq (get pattern i) (get pattern j) then j + 1 else j in
       failure ← assign failure i j;
       Some (Continue (i + 1, j, failure)))
    (1, j, failure);
  Some failure.

(** The search loop of [kmpSearch] (lines 1125-1138). *)
Definition kmp_scan (fuel : nat) (text pattern : str) (failure : list Z)
    : option (list Z) :=
  let matches := [] in
  let n := len text in
  let m := len pattern in
  let j := 0 in
  '(_, _, matches) ← loop fuel
    (λ '(i, _, _), bool_decide (i < n))
    (λ fuel '(i, j, matches),
       j ← kmp_fall_back fuel text pattern failure i j;
       let j := if strict_eq (get text i) (get pattern j) then j + 1 else j in
       if bool_decide (j = m) then
         let matches := matches ++ [i - m + 1] in
         j ← get failure (j - 1);
         Some (Continue (i + 1, j, matches))
       else Some (Continue (i + 1, j, matches)))
    (0, j, matches);
  Some matches.

(** [kmpSearch] (lines 1106-1141).  For the empty pattern the function
    goes on with [j = undefined] after its first match; the model stops
    there. *)
Definition kmpSearch (fuel : nat) (text pattern : str) : option (list Z) :=
  failure ← buildFailure fuel pattern;
  kmp_scan fuel text pattern failure.

(** [hashingSearch] (lines 1144-1195): the loops are those of
    [rabinKarpStringMatching]; the guard only tests [m > n]. *)
Definition hashingSearch (fuel : nat) (text pattern : str) : option (list Z) :=
  let matches := [] in
  let n := len text in
  let m := len pattern in
  if bool_decide (m > n) then Some matches
  else
    h ← Script.rk_multiplier fuel m;
    '(patternHash, textHash) ← Script.rk_init fuel text pattern m;
    s ← loop fuel (λ s, bool_decide (Script.rk_i s ≤ n - m))
                  (Script.rk_body text pattern n m h patternHash)
                  (Script.RkState 0 textHash matches);
    Some (Script.rk_matches s).

(** [findMatches] (lines 1039-1052). *)
Definition findMatches (fuel : nat) (text pattern algorithm : str)
    : option (list Z) :=
  if bool_decide (algorithm = tag_naive) then naiveSearch fuel text pattern
  else if bool_decide (algorithm = tag_horspool) then
    horspoolSearch fuel text pattern
  else if bool_decide (algorithm = tag_kmp) then kmpSearch fuel text pattern
  else if bool_decide (algorithm = tag_hashing) then
    hashingSearch fuel text pattern
  else naiveSearch fuel text pattern.

(** *** The analysis of the keyword page (lines 913-1036) *)

(** [SENTIMENT_KEYWORDS] (lines 913-930), class by class. *)
Definition positive_keywords : list str :=
  str_of <$>
  ["good"; "great"; "excellent"; "amazing"; "wonderful"; "fantastic";
    "awesome"; "happy"; "love"; "best"; "perfect"; "beautiful"; "brilliant";
    "outstanding"; "superb"; "magnificent"; "delightful"; "pleasant";
    "enjoy"; "enjoyed"; "impressive"; "exceptional"; "fabulous";
    "marvelous"; "terrific"]%string.

Definition negative_keywords : list str :=
  str_of <$>
  ["bad"; "terrible"; "awful"; "horrible"; "worst"; "poor";
    "disappointing"; "hate"; "dislike"; "ugly"; "disgusting"; "annoying";
    "frustrating"; "useless"; "pathetic"; "dreadful"; "atrocious";
    "abysmal"; "inferior"; "unpleasant"; "mediocre"; "regret"; "waste";
    "failure"; "boring"]%string.

Definition neutral_keywords : list str :=
  str_of <$>
  ["okay"; "fine"; "average"; "normal"; "standard"; "typical"; "ordinary";
    "adequate"; "acceptable"; "moderate"; "fair"; "reasonable"]%string.

(** An entry of [results[sentiment]]. *)
Record keyword_hit := KeywordHit {
  kh_keyword : str;
  kh_count : Z;
  kh_positions : list Z
}.

(** The inner [forEach] (lines 993-1002) over the keywords of one class;
    [results] is the array [results[sentiment]]. *)
Fixpoint collect (fuel : nat) (lowerText algorithm : str) (keywords : list str)
    (results : list keyword_hit) : option (list keyword_hit) :=
  match keywords with
  | [] => Some results
  | keyword :: keywords =>
      matches ← findMatches fuel lowerText keyword algorithm;
      let results :=
        if bool_decide (len matches > 0)
        then results ++ [KeywordHit keyword (len matches) matches]
        else results in
      collect fuel lowerText algorithm keywords results
  end.

(** [items.reduce((sum, item) => sum + item.count, 0)] *)
Definition score (items : list keyword_hit) : Z :=
  foldl (λ sum item, sum + kh_count item) 0 items.

(** The values of [overallSentiment]. *)
Inductive sentiment := POSITIVE | NEGATIVE | NEUTRAL.

(** [s.split(/\s+/)], with [current] the piece being read and [in_space]
    set inside a run of white space: every run of white space separates
    two pieces, so white space at the start or at the end of the string
    gives an empty piece there. *)
Fixpoint split_spaces (in_space : bool) (current : str) (s : str) : list str :=
  match s with
  | [] => [current]
  | c :: rest =>
      if is_space c then
        if in_space then split_spaces true current rest
        else current :: split_spaces true [] rest
      else split_spaces false (current ++ [c]) rest
  end.

(** The object returned by [analyzeSentiment]. *)
Record analysis := Analysis {
  an_positive : list keyword_hit;
  an_negative : list keyword_hit;
  an_neutral : list keyword_hit;
  an_positiveScore : Z;
  an_negativeScore : Z;
  an_neutralScore : Z;
  an_overallSentiment : sentiment;
  an_processingTime : str;
  an_algorithm : str;
  an_wordCount : Z
}.

Section Analyze.
(** [String.prototype.toLowerCase] belongs to the language. *)
Context (toLowerCase : str → str).

(** [analyzeSentiment] (lines 978-1036).  The two readings of the clock
    come from the environment: [elapsed] is the string
    [(endTime - startTime).toFixed(2)]. *)
Definition analyzeSentiment (elapsed : str) (fuel : nat) (text algorithm : str)
    : option analysis :=
  let lowerText := toLowerCase text in
  positive ← collect fuel lowerText algorithm positive_keywords [];
  negative ← collect fuel lowerText algorithm negative_keywords [];
  neutral ← collect fuel lowerText algorithm neutral_keywords [];
  let processingTime := elapsed in
  let positiveScore := score positive in
  let negativeScore := score negative in
  let neutralScore := score neutral in
  let overallSentiment :=
    if bool_decide (positiveScore > negativeScore) &&
       bool_decide (positiveScore > neutralScore) then POSITIVE
    else if bool_decide (negativeScore > positiveScore) &&
            bool_decide (negativeScore > neutralScore) then NEGATIVE
    else NEUTRAL in
  let wordCount :=
    len (filter (λ word, len word > 0) (split_spaces false [] text)) in
  Some (Analysis positive negative neutral
                 positiveScore negativeScore neutralScore
                 overallSentiment processingTime algorithm wordCount).
End Analyze.

End Keywords.

(** ** cpp/Mathcing_Algorithms.cpp, the console program (lines 246-455) *)

(** A [std::string] is the list of its bytes.  [None] also stands for
    behaviour the C++ standard leaves undefined, and for a length that does
    not fit in an [int] where the program stores it in one. *)
Module Cpp.

(** [int x = s.length()]: the length is kept when it fits in an [int]; the
    model does not follow the program past that. *)
Definition int_of_size (x : Z) : option Z :=
  if bool_decide (x < 2 ^ 31) then Some x else None.

(** [x++] on an [int]: the overflow is undefined. *)
Definition int_succ (x : Z) : option Z :=
  if bool_decide (x + 1 < 2 ^ 31) then Some (x + 1) else None.

(** [naiveStringMatching] (lines 328-352).  [ptr_s] and [ptr_f] are kept
    as offsets into [text] and [pattern].  For an empty pattern the
    function forms [&pattern[-1]], which is undefined. *)
Definition naiveStringMatching (fuel : nat) (text pattern : str) : option (list Z) :=
  if bool_decide (pattern = []) then None
  else
    '(_, _, _, found_in) ← loop fuel
      (λ '(i, _, _, _), bool_decide (i < len text))
      (λ _ '(i, ptr_s, ptr_f, found_in),
         s ← get text ptr_s;
         f ← get pattern ptr_f;
         if bool_decide (s = f) then
           if bool_decide (ptr_f = len pattern - 1) then
             Some (Continue (i + 1, ptr_s + 1, 0, found_in ++ [i - (len pattern - 1)]))
           else
             Some (Continue (i + 1, ptr_s + 1, ptr_f + 1, found_in))
         else
           Some (Continue (i + 1, ptr_s + 1, 0, found_in)))
      (0, 0, 0, []);
    Some found_in.

(** [horspoolHelper] (lines 304-320). *)
Definition horspoolHelper (fuel : nat) (pattern : str) : option (gmap N Z) :=
  len_ ← int_of_size (len pattern);
  '(_, values) ← loop fuel
    (λ '(i, _), bool_decide (i < len_))
    (λ _ '(i, values),
       c ← get pattern i;
       if bool_decide (i = len_ - 1) then
         if bool_decide (values !! c = None)
         then Some (Continue (i + 1, <[c := len_]> values))
         else Some (Continue (i + 1, values))
       else Some (Continue (i + 1, <[c := len_ - i - 1]> values)))
    (0, ∅);
  Some values.

(** [int(char(c))] for a byte, with [char] signed. *)
Definition char_int (c : N) : Z :=
  if bool_decide (c < 128)%N then Z.of_N c else Z.of_N c - 256.

(** Conversion of a [double] holding the integer [x] to [int]: undefined
    outside the range of [int]. *)
Definition to_int (x : Z) : option Z :=
  if bool_decide (- 2 ^ 31 ≤ x < 2 ^ 31) then Some x else None.

(** An integer held in a [double] is exact below [2^53]. *)
Definition exact (x : Z) : option Z :=
  if bool_decide (Z.abs x < 2 ^ 53) then Some x else None.

(** [hashing] (lines 285-301); the static variable [prefix] is threaded
    through: the result is the hash and the new value of [prefix].
    [pow(101, k)] is taken to be exact while it is below [2^53]. *)
Definition hashing (fuel : nat) (chars : str) (c : Z) (old_hash prefix : Z)
    : option (Z * Z) :=
  let size := len chars in
  let hash := 0 in
  if bool_decide (c = 0) then
    match get chars 0 with
    | None =>
        (* the empty string: [chars[0]] is the terminator 0, and the loop
           is not entered *)
        Some (0, 0)
    | Some c0 =>
        p ← exact (101 ^ (size - 1));
        prefix ← to_int (char_int c0 * p);
        let hash := hash + prefix in
        '(_, hash) ← loop fuel
          (λ '(i, _), bool_decide (i ≤ size))
          (λ _ '(i, hash),
             ci ← get chars (i - 1);
             p ← exact (101 ^ (size - i));
             hash ← exact (hash + char_int ci * p);
             Some (Continue (i + 1, hash)))
          (2, hash);
        Some (hash, prefix)
    end
  else
    c0 ← get chars 0;
    cl ← get chars (size - 1);
    let hash := 101 * (old_hash - prefix) + char_int cl in
    p ← exact (101 ^ (size - 1));
    prefix ← to_int (char_int c0 * p);
    Some (hash, prefix).

(** [computeLPS] (lines 260-281, and lines 16-37 of the server) has the
    statements of the JavaScript function, which is a port of it; the loop
    body is shared.  The length is stored in an [int]. *)
Definition computeLPS (fuel : nat) (pattern : str) : option (list Z) :=
  m ← int_of_size (len pattern);
  let lps := replicate (Z.to_nat m) 0 in
  s ← loop fuel (λ s, bool_decide (Script.lps_i s < m))
                (λ _, Script.computeLPS_body pattern)
                (Script.LpsState lps 0 1);
  Some (Script.lps_tab s).

(** [searchKMP] (lines 386-414); here [m] is the length of the text and [n]
    that of the pattern.  The loop has the statements of the JavaScript
    search loop.  For an empty pattern and a non-empty text the function
    reads [lps[-1]], which is undefined. *)
Definition searchKMP (fuel : nat) (text pattern : str) : option (list Z) :=
  m ← int_of_size (len text);
  n ← int_of_size (len pattern);
  lps ← computeLPS fuel pattern;
  if bool_decide (n = 0) && bool_decide (0 < m) then None
  else Script.kmp_search fuel text pattern m n lps.

(** The conversion of an [int] to [size_t] in a comparison. *)
Definition to_size_t (i : Z) : Z := i `mod` 2 ^ 64.

(** [horspool] (lines 417-440).  The state of the inner [for] loop is [j]
    together with [i] and [found_in], which the loop changes. *)
Definition horspool (fuel : nat) (text pattern : str) : option (list Z) :=
  values ← horspoolHelper fuel pattern;
  let m := len pattern in
  '(_, found_in) ← loop fuel
    (λ '(i, _), bool_decide (to_size_t i < len text))
    (λ fuel '(i, found_in),
       '(_, i, found_in) ← loop fuel
         (λ '(j, _, _), bool_decide (j < m))
         (λ _ '(j, i, found_in),
            p ← get pattern (m - 1 - j);
            t ← get text (i - j);
            if bool_decide (p ≠ t) then
              ti ← get text i;
              match values !! ti with
              | None => Some (Break (j, i + m, found_in))
              | Some v => Some (Break (j, i + v, found_in))
              end
            else if bool_decide (j = m - 1) then
              Some (Continue (j + 1, i + 1, found_in ++ [i - j]))
            else Some (Continue (j + 1, i, found_in)))
         (0, i, found_in);
       Some (Continue (i, found_in)))
    (m - 1, []);
  Some found_in.

End Cpp.

(** ** cpp/Mathcing_Algorithms.cpp, the server (lines 1-245) *)

Module CppServer.

(** [naiveStringMatching] (lines 45-69).  The counters [i] and [j] are
    [int]s, compared with the sizes as [size_t]. *)
Definition naiveStringMatching (fuel : nat) (text pattern : str) : option (list Z) :=
  if bool_decide (pattern = []) || bool_decide (text = []) then Some []
  else
    '(_, found_in) ← loop fuel
      (λ '(i, _), bool_decide (i < len text))
      (λ fuel '(i, found_in),
         if bool_decide (i + len pattern > len text) then
           Some (Break (i, found_in))
         else
           '(_, mtch) ← loop fuel
             (λ '(j, _), bool_decide (j < len pattern))
             (λ _ '(j, mtch),
                t ← get text (i + j);
                p ← get pattern j;
                if bool_decide (t ≠ p)
                then Some (Break (j, false))
                else j ← Cpp.int_succ j; Some (Continue (j, mtch)))
             (0, true);
           let found_in := if mtch : bool then found_in ++ [i] else found_in in
           i ← Cpp.int_succ i;
           Some (Continue (i, found_in)))
      (0, []);
    Some found_in.

(** [searchKMP] (lines 130-159): the function of the console program with
    the guard [n == 0]. *)
Definition searchKMP (fuel : nat) (text pattern : str) : option (list Z) :=
  m ← Cpp.int_of_size (len text);
  n ← Cpp.int_of_size (len pattern);
  if bool_decide (n = 0) then Some []
  else
    lps ← Cpp.computeLPS fuel pattern;
    Script.kmp_search fuel text pattern m n lps.

(** [text[i]] on a [std::string]: the terminator 0 at [i = size], undefined
    past it. *)
Definition char_at (text : str) (i : Z) : option N :=
  if bool_decide (i = len text) then Some 0%N else get text i.

(** [getRowCol] (lines 169-181).  The text is the list of the bytes of the
    [std::string]; [i], [row] and [col] are [int]s. *)
Definition getRowCol (fuel : nat) (text : str) (index : Z) : option Script.rowcol :=
  '(_, row, col) ← loop fuel
    (λ '(i, _, _), bool_decide (i < index))
    (λ _ '(i, row, col),
       c ← char_at text i;
       '(row, col) ←
         (if bool_decide (c = 10%N)
          then row ← Cpp.int_succ row; Some (row, 1)
          else col ← Cpp.int_succ col; Some (row, col));
       i ← Cpp.int_succ i;
       Some (Continue (i, row, col)))
    (0, 1, 1);
  Some (Script.RowCol row col).

End CppServer.

(** ** Reference definitions for the helpers *)

(** The number of line feeds among [text[0 .. index)]. *)
Definition newlines_before (text : str) (index : Z) : Z :=
  len (filter (λ k, get text k = Some 10%N) (seqZ 0 index)).

(** [s] is the start of the line of the offset [index]: the text has a line
    feed just before [s] (or [s] is 0) and none from [s] to [index]. *)
Definition line_start (text : str) (index s : Z) : Prop :=
  0 ≤ s ≤ index ∧
  (s = 0 ∨ get text (s - 1) = Some 10%N) ∧
  ∀ k, s ≤ k < index → get text k ≠ Some 10%N.

(** The entries for the keywords that occur in the text, in the order of
    the keywords. *)
Definition hits_of (text : str) (keywords : list str) : list Keywords.keyword_hit :=
  (λ k, Keywords.KeywordHit k (len (occurrences text k)) (occurrences text k))
    <$> filter (λ k, occurrences text k ≠ []) keywords.

(** The number of occurrences of the keywords in the text, added up. *)
Definition total_occurrences (text : str) (keywords : list str) : Z :=
  foldr (λ k acc, len (occurrences text k) + acc) 0 keywords.

(** A word starts at offset [i]: the unit there is not white space, and it
    is the first of the text or follows white space. *)
Definition word_start (text : str) (i : Z) : Prop :=
  is_space <$> get text i = Some false ∧
  (i = 0 ∨ is_space <$> get text (i - 1) = Some true).

Global Instance word_start_dec text i : Decision (word_start text i).
Proof. unfold word_start. apply _. Defined.

(** [fields.join(",")] *)
Fixpoint join_comma (fields : list str) : str :=
  match fields with
  | [] => []
  | [f] => f
  | f :: rest => f ++ [44%N] ++ join_comma rest
  end.

(** A string with no white space at either end. *)
Definition trimmed (f : str) : Prop :=
  match f with [] => True | c :: _ => is_space c = false end ∧
  match reverse f with [] => True | c :: _ => is_space c = false end.

Global Instance trimmed_dec f : Decision (trimmed f).
Proof.
  unfold trimmed. apply and_dec; [destruct f|destruct (reverse f)]; apply _.
Defined.

(** A field written between double quotes. *)
Definition quoted (f : str) : str := [34%N] ++ f ++ [34%N].

(** A cell of a line of CSV: the field, and whether it is written between
    double quotes. *)
Definition cell_text (c : bool * str) : str :=
  if c.1 then quoted c.2 else c.2.

(** ** Strings of the examples *)

Definition s_a : str := [97]%N.
Definition s_aa : str := [97; 97]%N.
Definition s_aaa : str := [97; 97; 97]%N.
Definition s_ab : str := [97; 98]%N.
Definition s_aab : str := [97; 97; 98]%N.
Definition s_abc : str := [97; 98; 99]%N.
Definition s_ababaca : str := [97; 98; 97; 98; 97; 99; 97]%N.
Definition s_Hello : str := [72; 101; 108; 108; 111]%N.
Definition s_hello : str := [104; 101; 108; 108; 111]%N.
Definition s_review : str := str_of "Good, not bad: good".

(** ** Invariants *)

(** The bad-character table after the positions below [i] of the pattern
    have been entered: a unit is mapped to the shift of its rightmost
    position below [i], and is absent when it has no position below [i]. *)
Definition shift_table_upto (pattern : str) (i : Z) (t : gmap N Z) : Prop :=
  ∀ c, match t !! c with
       | Some v =>
           ∃ k, 0 ≤ k < i ∧ get pattern k = Some c ∧ v = len pattern - 1 - k ∧
                ∀ k', k < k' < i → get pattern k' ≠ Some c
       | None => ∀ k, 0 ≤ k < i → get pattern k ≠ Some c
       end.

(** [pattern[0 .. k)] is a border of [pattern[0 .. l)], unit by unit. *)
Definition border_at (pattern : str) (l k : Z) : Prop :=
  0 ≤ k < l ∧ l ≤ len pattern ∧
  ∀ t, 0 ≤ t < k → get pattern t = get pattern (l - k + t).

(** [k] is the length of the longest border of [pattern[0 ..= i]]. *)
Definition lps_at (pattern : str) (i k : Z) : Prop :=
  border_at pattern (i + 1) k ∧ ∀ k', border_at pattern (i + 1) k' → k' ≤ k.

(** The entries below [i] of the table are right. *)
Definition lps_upto (pattern : str) (lps : list Z) (i : Z) : Prop :=
  len lps = len pattern ∧
  ∀ t, 0 ≤ t < i → ∃ k, get lps t = Some k ∧ lps_at pattern t k.

(** The failure array of [kmpSearch] after the positions below [i]: it has
    [i] entries, and they are right. *)
Definition failure_upto (pattern : str) (failure : list Z) (i : Z) : Prop :=
  len failure = i ∧
  ∀ t, 0 ≤ t < i → ∃ k, get failure t = Some k ∧ lps_at pattern t k.

(** Invariant of the loop of [computeLPS]: the entries below [i] are
    right, [len] is the length of a border of [pattern[0 .. i)], and no
    longer border of it can be extended by [pattern[i]]. *)
Definition lps_invariant (pattern : str) (s : Script.lps_state) : Prop :=
  let '(Script.LpsState lps len_ i) := s in
  1 ≤ i ≤ len pattern ∧
  lps_upto pattern lps i ∧
  border_at pattern i len_ ∧
  ∀ k, border_at pattern i k → len_ < k → get pattern k ≠ get pattern i.

(** Invariant of the search loop of KMP: the matches are the occurrences
    that start before the current candidate [i - j], and the candidate
    agrees with the pattern on its first [j] units. *)
Definition kmp_invariant (text pattern : str) (s : Script.kmp_state) : Prop :=
  let '(Script.KmpState i j matches) := s in
  0 ≤ j ≤ i ∧ i ≤ len text ∧ j < len pattern ∧
  (∀ t, 0 ≤ t < j → get text (i - j + t) = get pattern t) ∧
  matches = occurrences_below text pattern (i - j).

(** The hash stored by the sliding loop of Rabin-Karp: it lies in
    [[0, prime)] and, while the window fits in the text, it is the direct
    evaluation of the window. *)
Definition rk_hash_ok (text : str) (m : Z) (s : Script.rk_state) : Prop :=
  0 ≤ Script.rk_i s ∧
  0 ≤ Script.rk_hash s < Script.prime ∧
  (Script.rk_i s ≤ len text - m →
   Script.rk_hash s =
   horner Script.base Script.prime (window text (Script.rk_i s) m)).

(** * Properties *)

(** ** Rules for [loop] *)

Section LoopRules.
Context {S : Type}.
Implicit Types (cond : S → bool) (body : nat → S → option (flow S)).

(** Total correctness: an invariant [I], a postcondition [Q], a variant
    [mu] and the budget [B] that the body needs. *)
Lemma loop_rule (I Q : S → Prop) (mu : S → Z) (B : nat) cond body :
  (∀ s, I s → cond s = false → Q s) →
  (∀ s f, I s → cond s = true → (B ≤ f)%nat →
     (∃ s', body f s = Some (Continue s') ∧ I s' ∧ 0 ≤ mu s' < mu s) ∨
     (∃ s', body f s = Some (Break s') ∧ Q s')) →
  ∀ fuel s, I s → (Z.to_nat (mu s) + B + 1 ≤ fuel)%nat →
    ∃ s', loop fuel cond body s = Some s' ∧ Q s'.
Proof.
  intros Hexit Hbody fuel.
  induction fuel as [|fuel IH]; intros s HI Hfuel; [lia|].
  simpl. destruct (cond s) eqn:Hc.
  - destruct (Hbody s fuel HI Hc) as [(s' & -> & HI' & Hmu)|(s' & -> & HQ)];
      [lia | | eauto].
    apply IH; [done | lia].
  - eauto.
Qed.

(** A larger budget does not change a result. *)
Lemma loop_mono cond body :
  (∀ f f' s r, (f ≤ f')%nat → body f s = Some r → body f' s = Some r) →
  ∀ fuel fuel' s r, (fuel ≤ fuel')%nat →
    loop fuel cond body s = Some r → loop fuel' cond body s = Some r.
Proof.
  intros Hb fuel.
  induction fuel as [|fuel IH]; intros fuel' s r Hle; [done|].
  destruct fuel' as [|fuel']; [lia|]. simpl.
  destruct (cond s); [|done].
  destruct (body fuel s) as [[s'|s']|] eqn:Hbs; [| |done].
  - rewrite (Hb fuel fuel' s _ ltac:(lia) Hbs). apply IH. lia.
  - by rewrite (Hb fuel fuel' s _ ltac:(lia) Hbs).
Qed.

(** An invariant of the body holds at every loop head. *)
Lemma reaches_invariant (I : S → Prop) cond body s0 :
  I s0 →
  (∀ s s' f, I s → cond s = true → body f s = Some (Continue s') → I s') →
  ∀ s, reaches cond body s0 s → I s.
Proof. intros H0 Hstep s Hr. induction Hr; eauto. Qed.

Lemma reaches_first cond body s0 s1 s f :
  cond s0 = true → body f s0 = Some (Continue s1) →
  reaches cond body s1 s → reaches cond body s0 s.
Proof.
  intros Hc Hb Hr. induction Hr as [|s s' f' _ IH Hc' Hb'].
  - eapply reaches_next; [apply reaches_start|done..].
  - eapply reaches_next; done.
Qed.

(** The result of a loop without [break] is a loop head that the run
    reaches, and the condition fails there. *)
Lemma loop_reaches cond body fuel s0 s :
  (∀ f s r, body f s ≠ Some (Break r)) →
  loop fuel cond body s0 = Some s →
  reaches cond body s0 s ∧ cond s = false.
Proof.
  intros Hnb. revert s0.
  induction fuel as [|fuel IH]; intros s0 Hl; [done|].
  simpl in Hl. destruct (cond s0) eqn:Hc.
  - destruct (body fuel s0) as [[s1|s1]|] eqn:Hb; [| |done].
    + destruct (IH s1 Hl) as [Hr Hf]. split; [|done].
      by eapply reaches_first.
    + by destruct (Hnb fuel s0 s1).
  - simplify_eq. split; [apply reaches_start|done].
Qed.
End LoopRules.

(** [loop_with I Q mu B] applies [loop_rule] to the loop of the goal; it
    leaves the exit condition, the body, the invariant of the initial state
    and the budget, and then the goal with the result of the loop. *)
Ltac loop_with I Q mu B :=
  lazymatch goal with
  | |- context [loop ?fuel ?cond ?body ?s] =>
      let Hl := fresh "Hloop" in
      assert (∃ s', loop fuel cond body s = Some s' ∧ Q s') as Hl;
      [apply (loop_rule I Q mu B cond body) | ]
  end.

(** ** Indexing *)

Section Indexing.
Context {A : Type}.
Implicit Types (l : list A) (i j : Z).

Lemma len_nonneg l : 0 ≤ len l.
Proof. unfold len. lia. Qed.

Lemma len_nil_iff l : len l = 0 ↔ l = [].
Proof. unfold len. destruct l; simpl; split; (done || lia). Qed.

Lemma get_lookup l i : 0 ≤ i → get l i = l !! Z.to_nat i.
Proof. intros. unfold get. by rewrite decide_True. Qed.

Lemma get_of_nat l (k : nat) : get l (Z.of_nat k) = l !! k.
Proof. rewrite get_lookup by lia. by rewrite Nat2Z.id. Qed.

Lemma get_is_Some l i : is_Some (get l i) ↔ 0 ≤ i < len l.
Proof.
  unfold get, len. case_decide.
  - rewrite lookup_lt_is_Some. lia.
  - split; [by intros [? ?] | lia].
Qed.

Lemma get_Some_lt l i x : get l i = Some x → 0 ≤ i < len l.
Proof. intros H. apply get_is_Some. eauto. Qed.

Lemma get_lt_Some l i : 0 ≤ i < len l → ∃ x, get l i = Some x.
Proof. intros H. by apply get_is_Some. Qed.

Lemma get_None l i : get l i = None ↔ i < 0 ∨ len l ≤ i.
Proof.
  rewrite eq_None_not_Some, get_is_Some. lia.
Qed.

Lemma len_store l i x : len (store l i x) = len l.
Proof. unfold store, len. case_decide; [|done]. by rewrite length_insert. Qed.

Lemma get_store_eq l i x : 0 ≤ i < len l → get (store l i x) i = Some x.
Proof.
  intros H. unfold store, get, len in *. rewrite !decide_True by lia.
  apply list_lookup_insert_eq. lia.
Qed.

Lemma get_store_ne l i j x : i ≠ j → get (store l i x) j = get l j.
Proof.
  intros H. unfold store, get. repeat case_decide; try done.
  apply list_lookup_insert_ne. lia.
Qed.
End Indexing.

Lemma len_replicate {A} (k : Z) (x : A) : 0 ≤ k → len (replicate (Z.to_nat k) x) = k.
Proof. intros. unfold len. rewrite length_replicate. lia. Qed.

Lemma get_replicate {A} (k : Z) (x : A) i :
  0 ≤ i < k → get (replicate (Z.to_nat k) x) i = Some x.
Proof.
  intros. rewrite get_lookup by lia. apply lookup_replicate_2. lia.
Qed.

Lemma strict_eq_true a b : strict_eq a b = true ↔ a = b.
Proof. unfold strict_eq. by rewrite bool_decide_eq_true. Qed.

Lemma strict_eq_false a b : strict_eq a b = false ↔ a ≠ b.
Proof. unfold strict_eq. by rewrite bool_decide_eq_false. Qed.

Lemma strict_ne_true a b : strict_ne a b = true ↔ a ≠ b.
Proof. unfold strict_ne. by rewrite bool_decide_eq_true. Qed.

Lemma strict_ne_false a b : strict_ne a b = false ↔ a = b.
Proof.
  unfold strict_ne. rewrite bool_decide_eq_false.
  destruct (decide (a = b)); naive_solver.
Qed.

Lemma falsy_true s : falsy s = true ↔ s = [].
Proof. unfold falsy. by rewrite bool_decide_eq_true. Qed.

Lemma falsy_false s : falsy s = false ↔ 0 < len s.
Proof.
  unfold falsy. rewrite bool_decide_eq_false, <- len_nil_iff.
  pose proof (len_nonneg s). lia.
Qed.

(** ** Occurrences *)

Section Occurrences.
Context (text pattern : str).
Let n := len text.
Let m := len pattern.

(** An occurrence, unit by unit. *)
Lemma occurs_at_get i :
  occurs_at text pattern i ↔
  0 ≤ i ∧ i + m ≤ n ∧ ∀ j, 0 ≤ j < m → get text (i + j) = get pattern j.
Proof.
  unfold occurs_at, window. fold n m.
  split; intros (Hi & Hle & H); (split; [done|split; [done|]]).
  - intros j Hj. rewrite !get_lookup by lia.
    assert (pattern !! Z.to_nat j =
            take (Z.to_nat m) (drop (Z.to_nat i) text) !! Z.to_nat j) as ->
      by (by rewrite H).
    rewrite lookup_take_lt, lookup_drop by lia.
    f_equal. lia.
  - apply list_eq. intros k.
    destruct (decide (Z.of_nat k < m)) as [Hk|Hk].
    + rewrite lookup_take_lt, lookup_drop by lia.
      specialize (H (Z.of_nat k) ltac:(lia)).
      rewrite get_of_nat in H. rewrite <- H.
      rewrite get_lookup by lia. f_equal. lia.
    + rewrite lookup_take_ge by lia. symmetry.
      apply lookup_ge_None. unfold m, len in Hk. lia.
Qed.

Lemma occurrences_below_0 : occurrences_below text pattern 0 = [].
Proof. done. Qed.

Lemma occurrences_below_succ k :
  0 ≤ k →
  occurrences_below text pattern (k + 1) =
  occurrences_below text pattern k ++
    (if decide (occurs_at text pattern k) then [k] else []).
Proof.
  intros Hk. unfold occurrences_below.
  rewrite seqZ_app by lia. rewrite filter_app. by f_equal.
Qed.

Lemma occurrences_below_hit k :
  0 ≤ k → occurs_at text pattern k →
  occurrences_below text pattern (k + 1) = occurrences_below text pattern k ++ [k].
Proof. intros. rewrite occurrences_below_succ by done. by rewrite decide_True. Qed.

Lemma occurrences_below_miss k :
  0 ≤ k → ¬ occurs_at text pattern k →
  occurrences_below text pattern (k + 1) = occurrences_below text pattern k.
Proof.
  intros. rewrite occurrences_below_succ by done.
  rewrite decide_False by done. apply app_nil_r.
Qed.

(** Offsets without an occurrence can be skipped. *)
Lemma occurrences_below_skip k k' :
  0 ≤ k ≤ k' →
  (∀ s, k ≤ s < k' → ¬ occurs_at text pattern s) →
  occurrences_below text pattern k' = occurrences_below text pattern k.
Proof.
  intros Hk Hno.
  assert (∀ d : nat, (∀ s, k ≤ s < k + Z.of_nat d → ¬ occurs_at text pattern s) →
            occurrences_below text pattern (k + Z.of_nat d) =
            occurrences_below text pattern k) as Hd.
  { induction d as [|d IH]; intros H.
    - by rewrite Z.add_0_r.
    - replace (k + Z.of_nat (Datatypes.S d)) with (k + Z.of_nat d + 1) by lia.
      rewrite occurrences_below_miss; [|lia|apply H; lia].
      apply IH. intros s Hs. apply H. lia. }
  specialize (Hd (Z.to_nat (k' - k))).
  rewrite Z2Nat.id in Hd by lia.
  replace (k + (k' - k)) with k' in Hd by lia. auto.
Qed.

Lemma elem_of_occurrences_below k i :
  i ∈ occurrences_below text pattern k ↔ occurs_at text pattern i ∧ i < k.
Proof.
  unfold occurrences_below. rewrite list_elem_of_filter, elem_of_seqZ.
  unfold occurs_at. intuition lia.
Qed.

(** No occurrence starts past [n - m]. *)
Lemma occurrences_below_all k :
  n - m + 1 ≤ k → 0 ≤ k →
  occurrences_below text pattern k = occurrences text pattern.
Proof.
  intros Hk Hk0. unfold occurrences. fold n m.
  destruct (decide (0 ≤ n - m + 1)).
  - apply occurrences_below_skip; [lia|].
    intros s Hs (_ & Hle & _). fold n m in Hle. lia.
  - rewrite (occurrences_below_skip 0 k); [|lia|].
    + unfold occurrences_below. by rewrite !seqZ_nil by lia.
    + intros s Hs (_ & Hle & _). fold n m in Hle. lia.
Qed.

Lemma elem_of_occurrences i :
  i ∈ occurrences text pattern ↔ occurs_at text pattern i.
Proof.
  unfold occurrences. rewrite elem_of_occurrences_below.
  unfold occurs_at. intuition lia.
Qed.

Lemma occurrences_below_sorted k :
  StronglySorted Z.lt (occurrences_below text pattern k).
Proof.
  destruct (decide (0 ≤ k)) as [Hk|Hk].
  - rewrite <- (Z2Nat.id k) by done.
    induction (Z.to_nat k) as [|d IH]; [constructor|].
    replace (Z.of_nat (Datatypes.S d)) with (Z.of_nat d + 1) by lia.
    rewrite occurrences_below_succ by lia.
    apply StronglySorted_app. split; [|split; [done|]].
    + intros x1 x2 Hx1 Hx2.
      apply elem_of_occurrences_below in Hx1 as [_ Hx1].
      case_decide; [|by apply not_elem_of_nil in Hx2].
      apply list_elem_of_singleton in Hx2 as ->. done.
    + case_decide; repeat constructor.
  - unfold occurrences_below. rewrite seqZ_nil by lia. constructor.
Qed.

Lemma occurrences_sorted : StronglySorted Z.lt (occurrences text pattern).
Proof. apply occurrences_below_sorted. Qed.
End Occurrences.

Lemma expected_nil_pattern text : expected text [] = [].
Proof. done. Qed.

Lemma expected_long_pattern text pattern :
  len text < len pattern → expected text pattern = [].
Proof.
  intros H. unfold expected, occurrences, occurrences_below.
  case_decide; [done|]. by rewrite seqZ_nil by lia.
Qed.

Lemma expected_sorted text pattern : StronglySorted Z.lt (expected text pattern).
Proof. unfold expected. case_decide; [constructor|apply occurrences_sorted]. Qed.

(** ** The naive matcher *)

Section Naive.
Context (text pattern : str).
Let n := len text.
Let m := len pattern.

Lemma compare_window_spec fuel i :
  (Z.to_nat m + 1 ≤ fuel)%nat →
  ∃ b, Script.compare_window fuel text pattern m i = Some b ∧
       (b = true ↔ ∀ j, 0 ≤ j < m → get text (i + j) = get pattern j).
Proof.
  intros Hfuel. unfold Script.compare_window.
  pose proof (len_nonneg pattern) as Hm. fold m in Hm.
  loop_with
    (λ '(j, mtch), 0 ≤ j ≤ m ∧ mtch = true ∧
                   ∀ j', 0 ≤ j' < j → get text (i + j') = get pattern j')
    (λ '((_, mtch) : Z * bool),
       mtch = true ↔ ∀ j, 0 ≤ j < m → get text (i + j) = get pattern j)
    (λ '((j, _) : Z * bool), m - j) 0%nat;
    [| |repeat split; (lia || done)|simpl; lia
     |destruct Hloop as ([j b] & -> & HQ); by eauto].
  - intros [j b] (Hj & -> & Hall) Hc.
    apply bool_decide_eq_false in Hc.
    split; [|done]. intros _ j' Hj'. apply Hall. lia.
  - intros [j b] f (Hj & -> & Hall) Hc _.
    apply bool_decide_eq_true in Hc.
    destruct (strict_ne _ _) eqn:Hne.
    + right. eexists. split; [done|].
      apply strict_ne_true in Hne.
      split; [done|]. intros H. destruct Hne. apply H. lia.
    + left. eexists. split; [done|].
      apply strict_ne_false in Hne.
      split; [|lia]. split; [lia|]. split; [done|].
      intros j' Hj'. destruct (decide (j' = j)) as [->|]; [done|].
      apply Hall. lia.
Qed.

Lemma compare_window_occurs fuel i :
  (Z.to_nat m + 1 ≤ fuel)%nat → 0 ≤ i ≤ n - m →
  ∃ b, Script.compare_window fuel text pattern m i = Some b ∧
       (b = true ↔ occurs_at text pattern i).
Proof.
  intros Hfuel Hi.
  destruct (compare_window_spec fuel i Hfuel) as (b & Hb & Hiff).
  exists b. split; [done|]. rewrite Hiff, occurs_at_get. fold n m.
  intuition lia.
Qed.

(** The guard of the naive, Rabin-Karp and Horspool matchers. *)
Lemma guard_expected :
  falsy pattern || falsy text || bool_decide (m > n) = true →
  expected text pattern = [].
Proof.
  rewrite !orb_true_iff, !falsy_true, bool_decide_eq_true.
  intros [[->| ->]|H]; [done| |apply expected_long_pattern; fold n m; lia].
  destruct (decide (pattern = [])) as [->|Hne]; [done|].
  apply expected_long_pattern.
  assert (len pattern ≠ 0) by (by rewrite len_nil_iff).
  pose proof (len_nonneg pattern). unfold len at 1. simpl. lia.
Qed.

Lemma guard_passed :
  falsy pattern || falsy text || bool_decide (m > n) = false →
  0 < m ≤ n ∧ expected text pattern = occurrences text pattern.
Proof.
  rewrite !orb_false_iff, !falsy_false, bool_decide_eq_false.
  intros [[Hp Ht] Hle]. fold n m in Hp, Ht. split; [lia|].
  unfold expected. rewrite decide_False; [done|].
  rewrite <- len_nil_iff. fold m. lia.
Qed.

Theorem naiveStringMatching_correct fuel :
  (Z.to_nat n + 3 ≤ fuel)%nat →
  Script.naiveStringMatching fuel text pattern = Some (expected text pattern).
Proof.
  intros Hfuel. unfold Script.naiveStringMatching. fold n m.
  destruct (falsy pattern || falsy text || bool_decide (m > n)) eqn:Hg.
  { by rewrite guard_expected. }
  apply guard_passed in Hg as [Hm ->].
  loop_with
    (λ '(i, matches), 0 ≤ i ≤ n - m + 1 ∧ matches = occurrences_below text pattern i)
    (λ '((_, matches) : Z * list Z), matches = occurrences text pattern)
    (λ '((i, _) : Z * list Z), n - m + 1 - i) (Z.to_nat m + 1)%nat;
    [| |split; [lia|done]|simpl; lia
     |by destruct Hloop as ([i ms] & -> & ->)].
  - intros [i ms] (Hi & ->) Hc. apply bool_decide_eq_false in Hc.
    apply occurrences_below_all; fold n m; lia.
  - intros [i ms] f (Hi & ->) Hc Hf. apply bool_decide_eq_true in Hc.
    left. destruct (compare_window_occurs f i Hf ltac:(lia)) as (b & -> & Hb).
    simpl. eexists. split; [done|]. split; [|lia]. split; [lia|].
    destruct b.
    + rewrite occurrences_below_hit; [done|lia|by apply Hb].
    + rewrite occurrences_below_miss; [done|lia|].
      intros H. apply Hb in H. done.
Qed.
End Naive.

(** ** The bad-character table *)

Section ShiftTable.
Context (pattern : str).
Let m := len pattern.

Lemma shift_table_upto_insert i t c :
  0 ≤ i → shift_table_upto pattern i t → get pattern i = Some c →
  shift_table_upto pattern (i + 1) (<[c := m - 1 - i]> t).
Proof.
  intros Hi Ht Hget c'. destruct (decide (c = c')) as [<-|Hne].
  - rewrite lookup_insert_eq. exists i. repeat split; try lia. done.
  - rewrite lookup_insert_ne by done. specialize (Ht c').
    destruct (t !! c') as [v|].
    + destruct Ht as (k & Hk & Hgk & -> & Hright).
      exists k. repeat split; try lia; [done|].
      intros k' Hk'. destruct (decide (k' = i)) as [->|]; [congruence|].
      apply Hright. lia.
    + intros k Hk. destruct (decide (k = i)) as [->|]; [congruence|].
      apply Ht. lia.
Qed.

Lemma buildShiftTable_spec fuel :
  0 < m → (Z.to_nat m + 1 ≤ fuel)%nat →
  ∃ t, Script.buildShiftTable fuel pattern m = Some t ∧
       shift_table_upto pattern (m - 1) t.
Proof.
  intros Hm Hfuel. unfold Script.buildShiftTable.
  loop_with
    (λ '(i, t), 0 ≤ i ≤ m - 1 ∧ shift_table_upto pattern i t)
    (λ '((_, t) : Z * gmap N Z), shift_table_upto pattern (m - 1) t)
    (λ '((i, _) : Z * gmap N Z), m - 1 - i) 0%nat;
    [| | |simpl; lia|destruct Hloop as ([i t] & -> & HQ); by eauto].
  - intros [i t] (Hi & Ht) Hc. apply bool_decide_eq_false in Hc.
    by replace (m - 1) with i by lia.
  - intros [i t] f (Hi & Ht) Hc _. apply bool_decide_eq_true in Hc.
    left. destruct (get_lt_Some pattern i) as [c Hget]; [fold m; lia|].
    rewrite Hget. simpl. eexists. split; [done|]. split; [|lia].
    split; [lia|]. by apply shift_table_upto_insert; [lia|..].
  - split; [lia|]. intros c. rewrite lookup_empty. intros k Hk. lia.
Qed.

(** The table is determined by the pattern. *)
Lemma shift_table_upto_unique i t t' :
  shift_table_upto pattern i t → shift_table_upto pattern i t' → t = t'.
Proof.
  intros Ht Ht'. apply map_eq. intros c.
  specialize (Ht c). specialize (Ht' c).
  destruct (t !! c) as [v|], (t' !! c) as [v'|]; [| | |done].
  - destruct Ht as (k & Hk & Hgk & -> & Hr), Ht' as (k' & Hk' & Hgk' & -> & Hr').
    f_equal. destruct (decide (k < k')) as [Hlt|].
    { by destruct (Hr k' ltac:(lia)). }
    destruct (decide (k' < k)) as [Hlt|]; [|lia].
    by destruct (Hr' k ltac:(lia)).
  - destruct Ht as (k & Hk & Hgk & _). by destruct (Ht' k Hk).
  - destruct Ht' as (k & Hk & Hgk & _). by destruct (Ht k Hk).
Qed.

(** The table as the specification describes it: the entries are the shifts
    [m - 1 - k] of the rightmost positions [k <= m - 2]. *)
Lemma shift_table_upto_lookup t c v :
  shift_table_upto pattern (m - 1) t →
  t !! c = Some v ↔
  ∃ k, 0 ≤ k ≤ m - 2 ∧ get pattern k = Some c ∧ v = m - 1 - k ∧
       ∀ k', k < k' ≤ m - 2 → get pattern k' ≠ Some c.
Proof.
  intros Ht. specialize (Ht c). split.
  - intros Hv. rewrite Hv in Ht. destruct Ht as (k & Hk & Hgk & -> & Hr).
    exists k. repeat split; try lia; [done|]. intros k' Hk'. apply Hr. lia.
  - intros (k & Hk & Hgk & -> & Hr). destruct (t !! c) as [v|].
    + destruct Ht as (k' & Hk' & Hgk' & -> & Hr').
      f_equal. fold m. destruct (decide (k < k')) as [Hlt|].
      { by destruct (Hr k' ltac:(lia)). }
      destruct (decide (k' < k)) as [Hlt|]; [|lia].
      by destruct (Hr' k ltac:(lia)).
    + by destruct (Ht k ltac:(lia)).
Qed.

Lemma shift_table_upto_absent t c :
  shift_table_upto pattern (m - 1) t →
  t !! c = None ↔ ∀ k, 0 ≤ k ≤ m - 2 → get pattern k ≠ Some c.
Proof.
  intros Ht. specialize (Ht c). split.
  - intros Hv. rewrite Hv in Ht. intros k Hk. apply Ht. lia.
  - intros Hno. destruct (t !! c) as [v|]; [|done].
    destruct Ht as (k & Hk & Hgk & _). by destruct (Hno k ltac:(lia)).
Qed.

(** [horspoolHelper] of the C++ program, for a pattern whose length fits
    in an [int]: the same table, and in addition the last unit with the
    full length when it has no earlier position. *)
Lemma cpp_horspoolHelper_spec fuel t :
  0 < m < 2 ^ 31 → (Z.to_nat m + 1 ≤ fuel)%nat →
  shift_table_upto pattern (m - 1) t →
  ∃ c, get pattern (m - 1) = Some c ∧
       Cpp.horspoolHelper fuel pattern =
       Some (if decide (t !! c = None) then <[c := m]> t else t).
Proof.
  intros Hm Hfuel Ht.
  destruct (get_lt_Some pattern (m - 1)) as [c Hc]; [fold m; lia|].
  exists c. split; [done|]. unfold Cpp.horspoolHelper, Cpp.int_of_size. fold m.
  rewrite bool_decide_true by lia. simpl.
  set (final := if decide (t !! c = None) then <[c := m]> t else t).
  loop_with
    (λ '(i, values), 0 ≤ i ≤ m ∧
                     (i ≤ m - 1 → shift_table_upto pattern i values) ∧
                     (i = m → values = final))
    (λ '((_, values) : Z * gmap N Z), values = final)
    (λ '((i, _) : Z * gmap N Z), m - i) 0%nat;
    [| | |simpl; lia|by destruct Hloop as ([i v] & -> & ->)].
  - intros [i v] (Hi & _ & Hfin) Hcond. apply bool_decide_eq_false in Hcond.
    apply Hfin. lia.
  - intros [i v] f (Hi & Hv & _) Hcond _. apply bool_decide_eq_true in Hcond.
    left. specialize (Hv ltac:(lia)).
    destruct (decide (i = m - 1)) as [->|Hlast].
    + rewrite Hc. simpl. rewrite bool_decide_true by lia.
      rewrite (shift_table_upto_unique _ _ _ Hv Ht).
      unfold final.
      case_bool_decide;
        [rewrite decide_True by done|rewrite decide_False by done];
        (eexists; split; [done|]; split; [|lia]; split; [lia|];
         split; [intros; lia|intros _; done]).
    + destruct (get_lt_Some pattern i) as [c' Hc']; [fold m; lia|].
      rewrite Hc'. simpl. rewrite bool_decide_false by lia.
      eexists. split; [done|]. split; [|lia]. split; [lia|].
      split; [|intros; lia]. intros _.
      replace (m - i - 1) with (m - 1 - i) by lia.
      by apply shift_table_upto_insert; [lia|..].
  - split; [lia|]. split; [|intros; lia]. intros _ c'.
    rewrite lookup_empty. intros; lia.
Qed.
End ShiftTable.

(** ** Horspool *)

Section Horspool.
Context (text pattern : str).
Let n := len text.
Let m := len pattern.

(** Every shift is at least 1 and at most [m]. *)
Lemma shift_for_bounds t c :
  0 < m → shift_table_upto pattern (m - 1) t →
  1 ≤ Script.shift_for t m c ≤ m.
Proof.
  intros Hm Ht. unfold Script.shift_for.
  destruct c as [c|]; simpl; [|lia].
  specialize (Ht c). destruct (t !! c) as [v|]; [|lia].
  destruct Ht as (k & Hk & _ & -> & _). fold m. lia.
Qed.

(** The bad-character rule is safe: no occurrence starts inside the
    shift. *)
Lemma shift_for_safe t i s :
  0 < m → 0 ≤ i ≤ n - m → shift_table_upto pattern (m - 1) t →
  i < s < i + Script.shift_for t m (get text (i + m - 1)) →
  ¬ occurs_at text pattern s.
Proof.
  intros Hm Hi Ht Hs Hocc.
  apply occurs_at_get in Hocc as (_ & Hle & Hocc). fold n m in Hle, Hocc.
  destruct (get_lt_Some text (i + m - 1)) as [c Hc]; [fold n; lia|].
  rewrite Hc in Hs.
  pose proof (shift_for_bounds t (Some c) Hm Ht) as Hb.
  specialize (Hocc (i + m - 1 - s) ltac:(lia)).
  replace (s + (i + m - 1 - s)) with (i + m - 1) in Hocc by lia.
  rewrite Hc in Hocc. symmetry in Hocc.
  unfold Script.shift_for in *. simpl in *.
  specialize (Ht c). destruct (t !! c) as [v|].
  - destruct Ht as (k & Hk & Hgk & -> & Hright). fold m in Hs, Hb.
    destruct (decide (k < i + m - 1 - s)) as [Hlt|Hge]; [|lia].
    by apply (Hright (i + m - 1 - s) ltac:(lia)).
  - by apply (Ht (i + m - 1 - s) ltac:(lia)).
Qed.

Lemma compare_backwards_spec fuel i :
  0 < m → (Z.to_nat m + 1 ≤ fuel)%nat →
  ∃ j, Script.compare_backwards fuel text pattern m i = Some j ∧
       -1 ≤ j < m ∧
       (∀ j', j < j' < m → get text (i + j') = get pattern j') ∧
       (0 ≤ j → get text (i + j) ≠ get pattern j).
Proof.
  intros Hm Hfuel. unfold Script.compare_backwards.
  loop_with
    (λ j, -1 ≤ j < m ∧ ∀ j', j < j' < m → get text (i + j') = get pattern j')
    (λ j, -1 ≤ j < m ∧
          (∀ j', j < j' < m → get text (i + j') = get pattern j') ∧
          (0 ≤ j → get text (i + j) ≠ get pattern j))
    (λ j : Z, j + 1) 0%nat;
    [| | |simpl; lia|done].
  - intros j (Hj & Hall) Hc. apply andb_false_iff in Hc.
    split; [done|]. split; [done|]. intros Hj0.
    destruct Hc as [Hc|Hc]; [apply bool_decide_eq_false in Hc; lia|].
    by apply strict_eq_false in Hc.
  - intros j f (Hj & Hall) Hc _. apply andb_true_iff in Hc as [Hc1 Hc2].
    apply bool_decide_eq_true in Hc1. apply strict_eq_true in Hc2.
    left. eexists. split; [done|]. split; [|lia]. split; [lia|].
    intros j' Hj'. destruct (decide (j' = j)) as [->|]; [done|].
    apply Hall. lia.
  - split; [lia|]. intros j' Hj'. lia.
Qed.

Theorem horspoolStringMatching_correct fuel :
  (Z.to_nat n + 3 ≤ fuel)%nat →
  Script.horspoolStringMatching fuel text pattern = Some (expected text pattern).
Proof.
  intros Hfuel. unfold Script.horspoolStringMatching. fold n m.
  destruct (falsy pattern || falsy text || bool_decide (m > n)) eqn:Hg.
  { by rewrite guard_expected. }
  apply guard_passed in Hg as [Hm ->]. fold n m in Hm.
  destruct (buildShiftTable_spec pattern fuel) as (t & Hbuild & Ht); [lia|lia|].
  fold m in Hbuild. rewrite Hbuild. simpl.
  loop_with
    (λ '(i, matches), 0 ≤ i ∧ matches = occurrences_below text pattern i)
    (λ '((_, matches) : Z * list Z), matches = occurrences text pattern)
    (λ '((i, _) : Z * list Z), Z.max 0 (n - m + 1 - i)) (Z.to_nat m + 1)%nat;
    [| |split; [lia|done]|simpl; lia
     |by destruct Hloop as ([i ms] & -> & ->)].
  - intros [i ms] (Hi & ->) Hc. apply bool_decide_eq_false in Hc.
    apply occurrences_below_all; fold n m; lia.
  - intros [i ms] f (Hi & ->) Hc Hf. apply bool_decide_eq_true in Hc.
    left. unfold Script.horspool_body.
    destruct (compare_backwards_spec f i) as (j & -> & Hj & Hall & Hmis);
      [lia|lia|]. simpl.
    case_bool_decide as Hneg.
    + eexists. split; [done|]. split; [|lia]. split; [lia|].
      rewrite occurrences_below_hit; [done|lia|].
      apply occurs_at_get. fold n m. split; [lia|]. split; [lia|].
      intros j' Hj'. apply Hall. lia.
    + eexists. split; [done|].
      pose proof (shift_for_bounds t (get text (i + m - 1)) ltac:(lia) Ht).
      split; [|lia]. split; [lia|].
      symmetry. apply occurrences_below_skip; [lia|].
      intros s Hs. destruct (decide (s = i)) as [->|Hsi].
      * intros Hocc. apply occurs_at_get in Hocc as (_ & _ & Hocc).
        apply Hmis; [lia|]. apply Hocc. fold m. lia.
      * apply (shift_for_safe t i); [lia|lia|done|lia].
Qed.
End Horspool.

(** ** Rabin-Karp *)

Section Windows.
Context (text : str).

Lemma window_0 m : window text 0 m = take (Z.to_nat m) text.
Proof. done. Qed.

Lemma window_all : window text 0 (len text) = text.
Proof. unfold window, len. rewrite Nat2Z.id. simpl. apply firstn_all. Qed.

Lemma window_cons i m c :
  0 ≤ i → 0 < m → get text i = Some c →
  window text i m = c :: window text (i + 1) (m - 1).
Proof.
  intros Hi Hm Hc. unfold window. rewrite get_lookup in Hc by done.
  rewrite (drop_S _ _ _ Hc).
  replace (Z.to_nat m) with (Datatypes.S (Z.to_nat (m - 1))) by lia.
  replace (Z.to_nat (i + 1)) with (Datatypes.S (Z.to_nat i)) by lia.
  done.
Qed.

Lemma window_snoc i m c :
  0 ≤ i → 0 ≤ m → get text (i + m) = Some c →
  window text i (m + 1) = window text i m ++ [c].
Proof.
  intros Hi Hm Hc. unfold window. rewrite get_lookup in Hc by lia.
  replace (Z.to_nat (m + 1)) with (Datatypes.S (Z.to_nat m)) by lia.
  apply take_S_r. rewrite lookup_drop. rewrite <- Hc. f_equal. lia.
Qed.

Lemma len_window i m :
  0 ≤ i → 0 ≤ m → i + m ≤ len text → len (window text i m) = m.
Proof.
  intros. unfold window, len in *. rewrite length_take, length_drop. lia.
Qed.
End Windows.

Section Hash.
Context (base prime : Z) (Hprime : 0 < prime).

Lemma poly_snoc w c : poly base (w ++ [c]) = base * poly base w + Z.of_N c.
Proof. unfold poly. by rewrite foldl_snoc. Qed.

Lemma poly_cons c w :
  poly base (c :: w) = Z.of_N c * base ^ len w + poly base w.
Proof.
  unfold poly.
  assert (∀ a, foldl (λ h c, base * h + Z.of_N c) a w =
               a * base ^ len w + foldl (λ h c, base * h + Z.of_N c) 0 w) as H.
  { induction w as [|x w' IH]; intros a; simpl.
    - unfold len. simpl. lia.
    - rewrite (IH (base * a + Z.of_N x)), (IH (base * 0 + Z.of_N x)).
      unfold len. simpl length. rewrite Nat2Z.inj_succ, Z.pow_succ_r by lia.
      ring. }
  simpl. rewrite H. f_equal. f_equal. lia.
Qed.

Lemma horner_snoc w c :
  horner base prime (w ++ [c]) = (base * horner base prime w + Z.of_N c) `mod` prime.
Proof. unfold horner. by rewrite foldl_snoc. Qed.

Lemma horner_poly w : horner base prime w = poly base w `mod` prime.
Proof.
  induction w as [|c w IH] using rev_ind.
  - unfold horner, poly. simpl. by rewrite Z.mod_0_l by lia.
  - rewrite horner_snoc, poly_snoc, IH.
    rewrite Z.add_mod, Z.mul_mod_idemp_r by lia.
    by rewrite <- Z.add_mod by lia.
Qed.

Lemma horner_range w : 0 ≤ horner base prime w < prime.
Proof. rewrite horner_poly. apply Z.mod_pos_bound. done. Qed.

(** The remainder of [%], moved into [[0, prime)], is the modulus. *)
Lemma rem_normalize a :
  (let r := Z.rem a prime in if bool_decide (r < 0) then r + prime else r)
  = a `mod` prime.
Proof.
  simpl.
  pose proof (Z.rem_bound_abs a prime ltac:(lia)) as Hb.
  pose proof (Z.quot_rem' a prime) as Hq.
  case_bool_decide.
  - apply (Z.mod_unique a prime (Z.quot a prime - 1)); lia.
  - apply (Z.mod_unique a prime (Z.quot a prime)); lia.
Qed.

Lemma rem_nonneg a : 0 ≤ a → Z.rem a prime = a `mod` prime.
Proof. intros. apply Z.rem_mod_nonneg; lia. Qed.
End Hash.

Section RabinKarp.
Context (text pattern : str).
Let n := len text.
Let m := len pattern.
Local Abbreviation base := Script.base.
Local Abbreviation prime := Script.prime.
Local Abbreviation H := (horner Script.base Script.prime).

Lemma prime_pos : 0 < prime.
Proof. done. Qed.

Lemma base_pos : 0 < base.
Proof. done. Qed.

(** The numbers of the hash computation stay far below [2^53] for 16-bit
    code units, so the arithmetic on JavaScript numbers is exact. *)
Lemma rk_arithmetic_exact h textHash out inc :
  0 ≤ h < prime → 0 ≤ textHash < prime →
  0 ≤ out < 2 ^ 16 → 0 ≤ inc < 2 ^ 16 →
  Z.abs (h * base) < 2 ^ 53 ∧
  Z.abs (base * textHash + inc) < 2 ^ 53 ∧
  Z.abs (base * (textHash - out * h) + inc) < 2 ^ 53.
Proof. unfold Script.base, Script.prime. nia. Qed.

Lemma charCodeAt_Some (s : str) i :
  0 ≤ i < len s → ∃ c, get s i = Some c ∧ charCodeAt s i = Some (Z.of_N c).
Proof.
  intros Hi. destruct (get_lt_Some s i Hi) as [c Hc].
  exists c. split; [done|]. unfold charCodeAt. by rewrite Hc.
Qed.

Lemma rk_multiplier_spec fuel :
  0 < m → (Z.to_nat m + 1 ≤ fuel)%nat →
  Script.rk_multiplier fuel m = Some (base ^ (m - 1) `mod` prime).
Proof.
  intros Hm Hfuel. unfold Script.rk_multiplier.
  loop_with
    (λ '(i, h), 0 ≤ i ≤ m - 1 ∧ h = base ^ i `mod` prime)
    (λ '((_, h) : Z * Z), h = base ^ (m - 1) `mod` prime)
    (λ '((i, _) : Z * Z), m - 1 - i) 0%nat;
    [| |split; [lia|done]|simpl; lia
     |by destruct Hloop as ([i h] & -> & ->)].
  - intros [i h] (Hi & ->) Hc. apply bool_decide_eq_false in Hc.
    by replace (m - 1) with i by lia.
  - intros [i h] f (Hi & ->) Hc _. apply bool_decide_eq_true in Hc.
    left. eexists. split; [done|]. split; [|lia]. split; [lia|].
    pose proof (Z.mod_pos_bound (base ^ i) prime prime_pos).
    pose proof base_pos.
    rewrite (rem_nonneg prime prime_pos) by nia.
    rewrite Z.mul_mod_idemp_l by done.
    replace (i + 1) with (Z.succ i) by lia.
    by rewrite Z.pow_succ_r, (Z.mul_comm base) by lia.
Qed.

Lemma rk_roll_spec c0 w' cm :
  Script.rk_roll (base ^ len w' `mod` prime) (H (c0 :: w')) (Z.of_N c0) (Z.of_N cm)
  = H (w' ++ [cm]).
Proof.
  unfold Script.rk_roll.
  rewrite (rem_normalize prime prime_pos).
  rewrite !(horner_poly _ _ prime_pos), poly_snoc, poly_cons.
  rewrite (Z.mod_eq (Z.of_N c0 * base ^ len w' + poly base w') prime),
    (Z.mod_eq (base ^ len w') prime) by done.
  set (q1 := (Z.of_N c0 * base ^ len w' + poly base w') `div` prime).
  set (q2 := base ^ len w' `div` prime).
  replace (base * (Z.of_N c0 * base ^ len w' + poly base w' - prime * q1
                   - Z.of_N c0 * (base ^ len w' - prime * q2)) + Z.of_N cm)
    with (base * poly base w' + Z.of_N cm + (base * (Z.of_N c0 * q2 - q1)) * prime)
    by ring.
  apply Z_mod_plus_full.
Qed.

(** The rolling update of the hash of window [i] is the direct evaluation
    of window [i + 1]. *)
Lemma rk_roll_window i out inc :
  0 < m → 0 ≤ i < n - m →
  charCodeAt text i = Some out → charCodeAt text (i + m) = Some inc →
  Script.rk_roll (base ^ (m - 1) `mod` prime) (H (window text i m)) out inc
  = H (window text (i + 1) m).
Proof.
  intros Hm Hi Hout Hinc.
  destruct (charCodeAt_Some text i) as (c0 & Hc0 & Hout'); [fold n; lia|].
  destruct (charCodeAt_Some text (i + m)) as (cm & Hcm & Hinc'); [fold n; lia|].
  rewrite Hout' in Hout. rewrite Hinc' in Hinc. simplify_eq.
  rewrite (window_cons text i m c0) by (done || lia).
  replace m with (m - 1 + 1) at 3 by lia.
  rewrite (window_snoc text (i + 1) (m - 1) cm);
    [|lia|lia|by replace (i + 1 + (m - 1)) with (i + m) by lia].
  rewrite <- (len_window text (i + 1) (m - 1)) at 1 by (fold n; lia).
  apply rk_roll_spec.
Qed.

Lemma rk_init_spec fuel :
  0 < m ≤ n → (Z.to_nat m + 1 ≤ fuel)%nat →
  Script.rk_init fuel text pattern m = Some (H pattern, H (window text 0 m)).
Proof.
  intros Hm Hfuel. unfold Script.rk_init.
  loop_with
    (λ '(i, ph, th), 0 ≤ i ≤ m ∧ ph = H (window pattern 0 i) ∧
                     th = H (window text 0 i))
    (λ '((_, ph, th) : Z * Z * Z), ph = H pattern ∧ th = H (window text 0 m))
    (λ '((i, _, _) : Z * Z * Z), m - i) 0%nat;
    [| |split; [lia|done]|simpl; lia
     |by destruct Hloop as ([[i ph] th] & -> & -> & ->)].
  - intros [[i ph] th] (Hi & -> & ->) Hc. apply bool_decide_eq_false in Hc.
    replace i with m by lia. by rewrite window_all.
  - intros [[i ph] th] f (Hi & -> & ->) Hc _. apply bool_decide_eq_true in Hc.
    left.
    destruct (charCodeAt_Some pattern i) as (pc & Hpc & ->); [fold m; lia|].
    destruct (charCodeAt_Some text i) as (tc & Htc & ->); [fold n; lia|].
    simpl. eexists. split; [done|]. split; [|lia]. split; [lia|].
    pose proof (horner_range base prime prime_pos (window pattern 0 i)).
    pose proof (horner_range base prime prime_pos (window text 0 i)).
    pose proof base_pos.
    rewrite !(rem_nonneg prime prime_pos) by nia.
    rewrite (window_snoc pattern 0 i pc), (window_snoc text 0 i tc) by (done || lia).
    by rewrite !horner_snoc.
Qed.

(** One iteration of the sliding loop keeps the stored hash equal to the
    direct evaluation of the window and inside [[0, prime)]. *)
Lemma rk_body_hash ph f s s' :
  0 < m ≤ n →
  rk_hash_ok text m s → Script.rk_i s ≤ n - m →
  Script.rk_body text pattern n m (base ^ (m - 1) `mod` prime) ph f s
    = Some (Continue s') →
  rk_hash_ok text m s' ∧ Script.rk_i s' = Script.rk_i s + 1.
Proof.
  intros Hm (Hi & Hrange & Hhash) Hc Hbody.
  destruct s as [i th ms]. simpl in *. specialize (Hhash Hc).
  destruct (if bool_decide (ph = th) then _ else _) as [ms'|]; [|done].
  simpl in Hbody. case_bool_decide as Hlt.
  - destruct (charCodeAt_Some text i) as (c0 & Hc0 & Hout); [fold n; lia|].
    destruct (charCodeAt_Some text (i + m)) as (cm & Hcm & Hinc); [fold n; lia|].
    rewrite Hout, Hinc in Hbody. simpl in Hbody. simplify_eq. simpl.
    split; [|done]. unfold rk_hash_ok. simpl.
    rewrite rk_roll_window by (done || lia).
    split; [lia|]. split; [apply horner_range, prime_pos|done].
  - simpl in Hbody. simplify_eq. simpl. split; [|done].
    split; [simpl; lia|]. split; [done|]. simpl. fold n. lia.
Qed.

Theorem rabinKarpStringMatching_correct fuel :
  (Z.to_nat n + 3 ≤ fuel)%nat →
  Script.rabinKarpStringMatching fuel text pattern = Some (expected text pattern).
Proof.
  intros Hfuel. unfold Script.rabinKarpStringMatching. fold n m.
  destruct (falsy pattern || falsy text || bool_decide (m > n)) eqn:Hg.
  { by rewrite guard_expected. }
  apply guard_passed in Hg as [Hm ->]. fold n m in Hm.
  rewrite rk_multiplier_spec by lia. simpl.
  rewrite rk_init_spec by lia. simpl.
  loop_with
    (λ s, Script.rk_i s ≤ n - m + 1 ∧ rk_hash_ok text m s ∧
          Script.rk_matches s = occurrences_below text pattern (Script.rk_i s))
    (λ s, Script.rk_matches s = occurrences text pattern)
    (λ s, n - m + 1 - Script.rk_i s) (Z.to_nat m + 1)%nat;
    [| | |simpl; lia|destruct Hloop as (s & -> & Hs); simpl; by rewrite Hs].
  - intros s (Hi & (Hi0 & _) & Hms) Hc. apply bool_decide_eq_false in Hc.
    simpl. rewrite Hms. apply occurrences_below_all; fold n m; lia.
  - intros s f (Hi & Hok & Hms) Hc Hf. apply bool_decide_eq_true in Hc.
    left.
    assert (∃ s', Script.rk_body text pattern n m (base ^ (m - 1) `mod` prime)
                    (H pattern) f s = Some (Continue s') ∧
                  Script.rk_matches s' =
                  occurrences_below text pattern (Script.rk_i s + 1))
      as (s' & Hs' & Hms').
    { destruct s as [i th ms]. simpl in *. subst ms.
      destruct Hok as (Hi0 & _ & Hth). simpl in *. specialize (Hth Hc).
      destruct (compare_window_occurs text pattern f i Hf ltac:(fold n m; lia))
        as (b & Hb & Hiff). fold m in Hb.
      assert (∃ ms', (if bool_decide (H pattern = th)
                      then mtch ← Script.compare_window f text pattern m i;
                           Some (if mtch : bool
                                 then occurrences_below text pattern i ++ [i]
                                 else occurrences_below text pattern i)
                      else Some (occurrences_below text pattern i)) = Some ms' ∧
                     ms' = occurrences_below text pattern (i + 1))
        as (ms' & -> & ->).
      { case_bool_decide as Heq.
        - rewrite Hb. simpl. eexists. split; [done|]. destruct b.
          + rewrite occurrences_below_hit; [done|lia|by apply Hiff].
          + rewrite occurrences_below_miss; [done|lia|].
            intros Ho. apply Hiff in Ho. done.
        - eexists. split; [done|].
          rewrite occurrences_below_miss; [done|lia|].
          intros (_ & _ & Hw). fold m in Hw. apply Heq.
          by rewrite Hth, Hw. }
      simpl. case_bool_decide.
      - destruct (charCodeAt_Some text i) as (c0 & _ & ->); [fold n; lia|].
        destruct (charCodeAt_Some text (i + m)) as (cm & _ & ->); [fold n; lia|].
        simpl. eauto.
      - simpl. eauto. }
    exists s'. split; [done|].
    destruct (rk_body_hash _ _ _ _ Hm Hok Hc Hs') as [Hok' Hi'].
    rewrite Hi'. split; [|lia]. split; [lia|]. split; [done|]. by rewrite Hms'.
  - simpl. split; [lia|]. split; [|done].
    split; [done|]. simpl. split; [apply horner_range, prime_pos|done].
Qed.
End RabinKarp.

(** ** The LPS table *)

Section LPS.
Context (pattern : str).
Let m := len pattern.

Lemma border_at_0 l : 0 < l ≤ m → border_at pattern l 0.
Proof. intros. split; [lia|]. split; [fold m; lia|]. intros t Ht. lia. Qed.

(** A border of [pattern[0 ..= i]] is a border of [pattern[0 .. i)]
    extended by [pattern[i]]. *)
Lemma border_at_shrink i k :
  0 < i → border_at pattern (i + 1) k → 0 < k →
  border_at pattern i (k - 1) ∧ get pattern (k - 1) = get pattern i.
Proof.
  intros Hi (Hk & Hl & Hb) Hk0. split.
  - split; [lia|]. split; [lia|]. intros t Ht.
    rewrite (Hb t) by lia. f_equal. lia.
  - rewrite (Hb (k - 1)) by lia. f_equal. lia.
Qed.

Lemma border_at_extend i k :
  i < m → border_at pattern i k → get pattern i = get pattern k →
  border_at pattern (i + 1) (k + 1).
Proof.
  intros Hi (Hk & Hl & Hb) Heq. split; [lia|]. split; [fold m; lia|].
  intros t Ht. destruct (decide (t = k)) as [->|].
  - rewrite <- Heq. f_equal. lia.
  - rewrite (Hb t) by lia. f_equal. lia.
Qed.

(** A border of a border is a border. *)
Lemma border_at_trans i k k' :
  border_at pattern i k → border_at pattern k k' → border_at pattern i k'.
Proof.
  intros (Hk & Hl & Hb) (Hk' & _ & Hb'). split; [lia|]. split; [done|].
  intros t Ht. rewrite (Hb' t) by lia. rewrite (Hb (k - k' + t)) by lia.
  f_equal. lia.
Qed.

(** Of two borders, the shorter is a border of the longer. *)
Lemma border_at_nested i k k' :
  border_at pattern i k → border_at pattern i k' → k' < k →
  border_at pattern k k'.
Proof.
  intros (Hk & Hl & Hb) (Hk' & _ & Hb') Hlt. split; [lia|]. split; [fold m; lia|].
  intros t Ht. rewrite (Hb' t) by lia. rewrite (Hb (k - k' + t)) by lia.
  f_equal. lia.
Qed.

Lemma lps_at_bounds i k : lps_at pattern i k → 0 ≤ k ≤ i.
Proof. intros [(Hk & _) _]. lia. Qed.

Lemma lps_at_unique i k k' : lps_at pattern i k → lps_at pattern i k' → k = k'.
Proof. intros [Hb Hmax] [Hb' Hmax']. apply Hmax in Hb'. apply Hmax' in Hb. lia. Qed.

(** The longest border after a unit that extends the current border. *)
Lemma lps_at_extend i k :
  0 < i < m → border_at pattern i k →
  (∀ k', border_at pattern i k' → k < k' → get pattern k' ≠ get pattern i) →
  get pattern i = get pattern k →
  lps_at pattern i (k + 1).
Proof.
  intros Hi Hb Hno Heq. split; [by apply border_at_extend; [lia|..]|].
  intros k' Hb'. destruct (decide (0 < k')) as [Hk'|]; [|destruct Hb as [? _]; lia].
  destruct (border_at_shrink i k' ltac:(lia) Hb' Hk') as [Hs Hget].
  destruct (decide (k < k' - 1)) as [Hlt|]; [|lia].
  by destruct (Hno (k' - 1) Hs Hlt).
Qed.

(** No border after a unit that extends no border. *)
Lemma lps_at_reset i :
  0 < i < m →
  (∀ k', border_at pattern i k' → 0 < k' → get pattern k' ≠ get pattern i) →
  get pattern i ≠ get pattern 0 →
  lps_at pattern i 0.
Proof.
  intros Hi Hno Hne. split; [apply border_at_0; fold m; lia|].
  intros k' Hb'. destruct (decide (0 < k')) as [Hk'|]; [|lia].
  destruct (border_at_shrink i k' ltac:(lia) Hb' Hk') as [Hs Hget].
  destruct (decide (0 < k' - 1)) as [Hlt|].
  - by destruct (Hno (k' - 1) Hs Hlt).
  - replace (k' - 1) with 0 in Hget by lia. congruence.
Qed.

Lemma lps_upto_get lps i t :
  lps_upto pattern lps i → 0 ≤ t < i →
  ∃ k, get lps t = Some k ∧ lps_at pattern t k.
Proof. intros [_ H]. apply H. Qed.

Lemma lps_upto_store lps i k :
  0 ≤ i < m → lps_upto pattern lps i → lps_at pattern i k →
  lps_upto pattern (store lps i k) (i + 1).
Proof.
  intros Hi [Hlen Hlps] Hk. split; [by rewrite len_store|].
  intros t Ht. destruct (decide (t = i)) as [->|].
  - exists k. split; [|done]. apply get_store_eq. fold m in Hlen. lia.
  - rewrite get_store_ne by done. apply Hlps. lia.
Qed.

(** One iteration of the loop of [computeLPS]. *)
Lemma computeLPS_body_step s :
  lps_invariant pattern s → Script.lps_i s < m →
  ∃ s', Script.computeLPS_body pattern s = Some (Continue s') ∧
        lps_invariant pattern s' ∧
        0 ≤ 2 * (m - Script.lps_i s') + Script.lps_len s'
          < 2 * (m - Script.lps_i s) + Script.lps_len s.
Proof.
  destruct s as [lps k i]. simpl. fold m.
  intros (Hi & Hlps & Hb & Hno) Hlt.
  pose proof Hb as (Hk & _ & _).
  unfold Script.computeLPS_body.
  destruct (strict_eq _ _) eqn:Heq.
  - apply strict_eq_true in Heq.
    assert (lps_at pattern i (k + 1)) as Hat by (by apply lps_at_extend; [lia|..]).
    eexists. split; [done|]. simpl. fold m. split; [|lia].
    split; [lia|]. split; [by apply lps_upto_store; [lia|..]|].
    split; [apply Hat|]. intros k' Hb' Hk'. apply Hat in Hb'. lia.
  - apply strict_eq_false in Heq. case_bool_decide as Hk0.
    + destruct (lps_upto_get lps i (k - 1) Hlps ltac:(lia)) as (k' & -> & Hat).
      pose proof (lps_at_bounds _ _ Hat). destruct Hat as [Hbk Hmax].
      replace (k - 1 + 1) with k in Hbk, Hmax by lia.
      simpl. eexists. split; [done|]. simpl. fold m. split; [|lia].
      split; [lia|]. split; [done|].
      split; [by eapply border_at_trans|].
      intros k'' Hb'' Hk''. destruct (decide (k < k'')) as [|Hle]; [by apply Hno|].
      destruct (decide (k'' = k)) as [->|]; [congruence|].
      assert (border_at pattern k k'') as Hn by (eapply border_at_nested; [done..|lia]).
      apply Hmax in Hn. lia.
    + assert (k = 0) as -> by lia.
      assert (lps_at pattern i 0) as Hat by (by apply lps_at_reset; [lia|..]).
      eexists. split; [done|]. simpl. fold m. split; [|lia].
      split; [lia|]. split; [by apply lps_upto_store; [lia|..]|].
      split; [apply Hat|]. intros k' Hb' Hk'. apply Hat in Hb'. lia.
Qed.

Lemma computeLPS_spec fuel :
  0 < m → (Z.to_nat (2 * m) + 1 ≤ fuel)%nat →
  ∃ lps, Script.computeLPS fuel pattern = Some lps ∧ lps_upto pattern lps m.
Proof.
  intros Hm Hfuel. unfold Script.computeLPS. fold m.
  loop_with
    (lps_invariant pattern)
    (λ s, lps_upto pattern (Script.lps_tab s) m)
    (λ s, 2 * (m - Script.lps_i s) + Script.lps_len s) 0%nat;
    [| | |simpl; lia|destruct Hloop as (s & -> & Hs); by eauto].
  - intros [lps k i] (Hi & Hlps & _) Hc. apply bool_decide_eq_false in Hc.
    simpl in *. fold m in Hi. by replace m with i by lia.
  - intros s f HI Hc _. apply bool_decide_eq_true in Hc.
    left. by apply computeLPS_body_step.
  - simpl. fold m. split; [lia|]. split; [|split].
    + split; [by apply len_replicate; lia|].
      intros t Ht. exists 0. split; [apply get_replicate; lia|].
      replace t with 0 by lia. split; [apply border_at_0; fold m; lia|].
      intros k' (Hk' & _). lia.
    + apply border_at_0. fold m. lia.
    + intros k' (Hk' & _). lia.
Qed.
End LPS.

Lemma computeLPS_mono pattern fuel fuel' lps :
  (fuel ≤ fuel')%nat →
  Script.computeLPS fuel pattern = Some lps →
  Script.computeLPS fuel' pattern = Some lps.
Proof.
  intros Hle. unfold Script.computeLPS.
  destruct (loop fuel _ _ _) as [s|] eqn:Hl; [|done].
  eapply loop_mono in Hl; [by rewrite Hl|by intros|done].
Qed.

(** Whatever the budget, a table that [computeLPS] returns is right. *)
Lemma computeLPS_sound pattern fuel lps :
  pattern ≠ [] →
  Script.computeLPS fuel pattern = Some lps →
  lps_upto pattern lps (len pattern).
Proof.
  intros Hne Hlps.
  assert (0 < len pattern) as Hm.
  { pose proof (len_nonneg pattern). rewrite <- len_nil_iff in Hne. lia. }
  set (F := (fuel `max` (Z.to_nat (2 * len pattern) + 1))%nat).
  apply (computeLPS_mono _ _ F) in Hlps; [|lia].
  destruct (computeLPS_spec pattern F Hm ltac:(lia)) as (lps' & Hlps' & Hok).
  congruence.
Qed.

(** ** KMP *)

Section KMP.
Context (text pattern : str) (lps : list Z).
Let n := len text.
Let m := len pattern.
Context (Hlps : lps_upto pattern lps m).

(** Falling back through the table keeps the agreement with the text
    and skips no occurrence. *)
Lemma kmp_shift e j k :
  0 ≤ j < m →
  (∀ t, 0 ≤ t < j + 1 → get text (e - (j + 1) + t) = get pattern t) →
  lps_at pattern j k →
  (∀ t, 0 ≤ t < k → get text (e - k + t) = get pattern t) ∧
  (∀ s, e - (j + 1) < s < e - k → ¬ occurs_at text pattern s).
Proof.
  intros Hj Hwin [(Hk & _ & Hb) Hmax]. split.
  - intros t Ht. rewrite (Hb t) by lia. rewrite <- Hwin by lia. f_equal. lia.
  - intros s Hs Hocc. apply occurs_at_get in Hocc as (Hs0 & _ & Hocc). fold m in Hocc.
    assert (border_at pattern (j + 1) (e - s)) as Hbd.
    { split; [lia|]. split; [fold m; lia|]. intros t Ht.
      rewrite <- (Hocc t) by lia. rewrite <- Hwin by lia. f_equal. lia. }
    apply Hmax in Hbd. lia.
Qed.

Lemma kmp_mismatch i j :
  0 ≤ j < m → get text i ≠ get pattern j → ¬ occurs_at text pattern (i - j).
Proof.
  intros Hj Hne Hocc. apply occurs_at_get in Hocc as (_ & _ & Hocc).
  apply Hne. rewrite <- (Hocc j) by (fold m; lia). f_equal. lia.
Qed.

Lemma kmp_fallback i j ms :
  0 < j ≤ m → j ≤ i ≤ n →
  (∀ t, 0 ≤ t < j → get text (i - j + t) = get pattern t) →
  ms = occurrences_below text pattern (i - j + 1) →
  ∃ k, get lps (j - 1) = Some k ∧ 0 ≤ k < j ∧
       kmp_invariant text pattern (Script.KmpState i k ms).
Proof.
  intros Hj Hi Hwin ->.
  destruct (lps_upto_get pattern lps m (j - 1) Hlps ltac:(lia)) as (k & Hk & Hat).
  pose proof (lps_at_bounds _ _ _ Hat) as Hkb.
  destruct (kmp_shift i (j - 1) k ltac:(lia)) as [Hwin' Hskip]; [|done|].
  { intros t Ht. rewrite <- Hwin by lia. f_equal. lia. }
  exists k. split; [done|]. split; [lia|].
  split; [lia|]. split; [fold n; lia|]. split; [fold m; lia|]. split; [done|].
  symmetry. apply occurrences_below_skip; [lia|].
  intros s Hs. apply Hskip. lia.
Qed.

(** One iteration of the search loop. *)
Lemma kmp_body_step s :
  kmp_invariant text pattern s → Script.kmp_i s < n →
  ∃ s', Script.kmp_body text pattern n m lps s = Some (Continue s') ∧
        kmp_invariant text pattern s' ∧
        0 ≤ 2 * (n - Script.kmp_i s') + Script.kmp_j s'
          < 2 * (n - Script.kmp_i s) + Script.kmp_j s.
Proof.
  destruct s as [i j ms]. simpl.
  intros HI Hlt. pose proof HI as (Hj & Hi & Hjm & Hwin & Hms).
  fold n m in Hi, Hjm. unfold Script.kmp_body.
  destruct (strict_eq _ _) eqn:Heq.
  - apply strict_eq_true in Heq.
    assert (∀ t, 0 ≤ t < j + 1 → get text (i + 1 - (j + 1) + t) = get pattern t)
      as Hwin1.
    { intros t Ht. destruct (decide (t = j)) as [->|].
      - rewrite <- Heq. f_equal. lia.
      - rewrite <- Hwin by lia. f_equal. lia. }
    replace (i - j) with (i + 1 - (j + 1)) in Hms by lia.
    case_bool_decide as Hjm1.
    + (* a match is recorded *)
      assert (occurs_at text pattern (i + 1 - (j + 1))) as Hocc.
      { apply occurs_at_get. fold n m. split; [lia|]. split; [lia|].
        intros t Ht. by rewrite <- Hwin1 by lia. }
      destruct (kmp_fallback (i + 1) (j + 1) (ms ++ [i + 1 - (j + 1)]))
        as (k & -> & Hkb & HI'); [lia|lia|done| |].
      { rewrite occurrences_below_hit by (done || lia). by rewrite Hms. }
      simpl. eexists. split; [done|]. split; [done|]. simpl. lia.
    + destruct (bool_decide (i + 1 < n) && strict_ne _ _) eqn:Hne.
      * (* the next unit differs: fall back *)
        apply andb_true_iff in Hne as [Hlt1 Hne].
        apply bool_decide_eq_true in Hlt1. apply strict_ne_true in Hne.
        rewrite bool_decide_true by lia.
        destruct (kmp_fallback (i + 1) (j + 1) ms)
          as (k & -> & Hkb & HI'); [lia|lia|done| |].
        { rewrite occurrences_below_miss; [done|lia|].
          apply kmp_mismatch; [lia|done]. }
        simpl. eexists. split; [done|]. split; [done|]. simpl. lia.
      * eexists. split; [done|]. split; [|simpl; lia].
        split; [lia|]. split; [fold n; lia|]. split; [fold m; lia|]. done.
  - apply strict_eq_false in Heq.
    rewrite bool_decide_false by lia.
    rewrite (bool_decide_true (i < n)) by done.
    assert (strict_ne (get text i) (get pattern j) = true) as ->
      by (by apply strict_ne_true).
    simpl. pose proof (kmp_mismatch i j ltac:(lia) Heq) as Hno.
    case_bool_decide as Hj0.
    + destruct (kmp_fallback i j ms)
        as (k & -> & Hkb & HI'); [lia|lia|done| |].
      { rewrite occurrences_below_miss; [done|lia|done]. }
      simpl. eexists. split; [done|]. split; [done|]. simpl. lia.
    + assert (j = 0) as -> by lia.
      eexists. split; [done|]. split; [|simpl; lia].
      split; [lia|]. split; [fold n; lia|]. split; [fold m; lia|].
      split; [intros; lia|].
      replace (i - 0) with i in * by lia. replace (i + 1 - 0) with (i + 1) by lia.
      rewrite occurrences_below_miss; [done|lia|done].
Qed.

Lemma kmp_search_correct fuel :
  0 < m → (Z.to_nat (2 * n) + 1 ≤ fuel)%nat →
  Script.kmp_search fuel text pattern n m lps = Some (occurrences text pattern).
Proof.
  intros Hm Hfuel. unfold Script.kmp_search.
  loop_with
    (kmp_invariant text pattern)
    (λ s, Script.kmp_matches s = occurrences text pattern)
    (λ s, 2 * (n - Script.kmp_i s) + Script.kmp_j s) 0%nat;
    [| | |simpl; lia|destruct Hloop as (s & -> & Hs); simpl; by rewrite Hs].
  - intros [i j ms] (Hj & Hi & Hjm & _ & ->) Hc.
    apply bool_decide_eq_false in Hc. simpl in *. fold n m in Hi, Hjm.
    apply occurrences_below_all; fold n m; lia.
  - intros s f HI Hc _. apply bool_decide_eq_true in Hc.
    left. by apply kmp_body_step.
  - split; [lia|]. split; [fold n; pose proof (len_nonneg text); lia|].
    split; [fold m; lia|]. split; [intros; lia|done].
Qed.
End KMP.

Theorem kmpStringMatching_correct text pattern fuel :
  (Z.to_nat (2 * len text + 2 * len pattern) + 1 ≤ fuel)%nat →
  Script.kmpStringMatching fuel text pattern = Some (expected text pattern).
Proof.
  intros Hfuel. unfold Script.kmpStringMatching.
  pose proof (len_nonneg text). pose proof (len_nonneg pattern).
  destruct (falsy pattern) eqn:Hp.
  { apply falsy_true in Hp as ->. done. }
  apply falsy_false in Hp.
  destruct (falsy text) eqn:Ht; simpl.
  { apply falsy_true in Ht as ->. rewrite expected_long_pattern; [done|].
    unfold len at 1. simpl. lia. }
  rewrite bool_decide_false by lia.
  destruct (computeLPS_spec pattern fuel) as (lps & -> & Hlps); [lia|lia|].
  simpl. rewrite (kmp_search_correct text pattern lps Hlps) by lia.
  unfold expected. rewrite decide_False; [done|].
  rewrite <- len_nil_iff. lia.
Qed.

(** ** Borders as lists *)

Section Borders.
Context (pattern : str).
Let m := len pattern.

Lemma get_window_0 l t :
  0 ≤ t < l → get (window pattern 0 l) t = get pattern t.
Proof.
  intros. rewrite !get_lookup by lia. rewrite window_0.
  apply lookup_take_lt. lia.
Qed.

Lemma border_at_is_border l k :
  border_at pattern l k → is_border (window pattern 0 k) (window pattern 0 l).
Proof.
  intros (Hk & Hl & Hb). fold m in Hl. rewrite !window_0.
  split; [|split].
  - exists (drop (Z.to_nat k) (take (Z.to_nat l) pattern)).
    rewrite <- (take_drop (Z.to_nat k) (take (Z.to_nat l) pattern)) at 1.
    f_equal. rewrite take_take. f_equal. lia.
  - exists (take (Z.to_nat (l - k)) (take (Z.to_nat l) pattern)).
    rewrite <- (take_drop (Z.to_nat (l - k)) (take (Z.to_nat l) pattern)) at 1.
    f_equal. apply list_eq. intros j. rewrite lookup_drop.
    destruct (decide (Z.of_nat j < k)) as [Hj|Hj].
    + rewrite !lookup_take_lt by lia.
      specialize (Hb (Z.of_nat j) ltac:(lia)).
      rewrite !get_lookup in Hb by lia. rewrite Nat2Z.id in Hb.
      rewrite Hb. f_equal. lia.
    + rewrite !lookup_take_ge by lia. done.
  - unfold m, len in *. rewrite !length_take. lia.
Qed.

Lemma is_border_border_at l b :
  0 < l ≤ m → is_border b (window pattern 0 l) → border_at pattern l (len b).
Proof.
  intros Hl ([x Hpre] & [y Hsuf] & Hlen).
  assert (length (window pattern 0 l) = Z.to_nat l) as Hwl.
  { rewrite window_0, length_take. unfold m, len in Hl. lia. }
  rewrite Hwl in Hlen.
  assert (length y = (Z.to_nat l - length b)%nat) as Hy.
  { apply (f_equal length) in Hsuf. rewrite Hwl, length_app in Hsuf. lia. }
  split; [unfold len; lia|]. split; [fold m; lia|].
  intros t Ht. unfold len in Ht.
  rewrite <- (get_window_0 l t), <- (get_window_0 l (l - len b + t))
    by (unfold len; lia).
  rewrite !get_lookup by (unfold len; lia).
  rewrite Hpre at 1. rewrite Hsuf.
  rewrite lookup_app_l by lia.
  rewrite lookup_app_r by (unfold len; lia).
  f_equal. unfold len. lia.
Qed.

(** The index-wise notion of longest border is the one on lists. *)
Lemma lps_at_longest_border i k :
  0 ≤ i < m → lps_at pattern i k → longest_border (window pattern 0 (i + 1)) k.
Proof.
  intros Hi [Hb Hmax]. split.
  - exists (window pattern 0 k). split; [by apply border_at_is_border|].
    destruct Hb as (Hk & _). apply len_window; fold m; lia.
  - intros b Hbb. apply Hmax. apply is_border_border_at; [lia|done].
Qed.
End Borders.

(** * The properties stated by the specification *)

Lemma Sentiment_kmpSearch_eq fuel text pattern :
  Sentiment.kmpSearch fuel text pattern = Script.kmpStringMatching fuel text pattern.
Proof.
  unfold Sentiment.kmpSearch, Script.kmpStringMatching, Script.computeLPS,
    Script.kmp_search.
  repeat case_match; try done. simpl. by destruct (loop _ _ _ _).
Qed.

Lemma budget_bounds text pattern fuel :
  (budget text pattern ≤ fuel)%nat →
  (Z.to_nat (len text) + 3 ≤ fuel)%nat ∧
  (Z.to_nat (2 * len text + 2 * len pattern) + 1 ≤ fuel)%nat.
Proof.
  unfold budget. pose proof (len_nonneg text). pose proof (len_nonneg pattern). lia.
Qed.

Lemma Sentiment_naiveSearch_eq :
  Sentiment.naiveSearch = Script.naiveStringMatching.
Proof. reflexivity. Qed.

Lemma Sentiment_hashingSearch_eq :
  Sentiment.hashingSearch = Script.rabinKarpStringMatching.
Proof. reflexivity. Qed.

Lemma Sentiment_horspoolSearch_eq :
  Sentiment.horspoolSearch = Script.horspoolStringMatching.
Proof. reflexivity. Qed.

(** With the budget, each of the eight matchers returns [expected]. *)
Lemma matchers_expected text pattern fuel :
  (budget text pattern ≤ fuel)%nat →
  Script.naiveStringMatching fuel text pattern = Some (expected text pattern) ∧
  Script.kmpStringMatching fuel text pattern = Some (expected text pattern) ∧
  Script.rabinKarpStringMatching fuel text pattern = Some (expected text pattern) ∧
  Script.horspoolStringMatching fuel text pattern = Some (expected text pattern) ∧
  Sentiment.naiveSearch fuel text pattern = Some (expected text pattern) ∧
  Sentiment.kmpSearch fuel text pattern = Some (expected text pattern) ∧
  Sentiment.hashingSearch fuel text pattern = Some (expected text pattern) ∧
  Sentiment.horspoolSearch fuel text pattern = Some (expected text pattern).
Proof.
  intros Hfuel. apply budget_bounds in Hfuel as [H1 H2].
  rewrite Sentiment_kmpSearch_eq, Sentiment_naiveSearch_eq,
    Sentiment_hashingSearch_eq, Sentiment_horspoolSearch_eq.
  rewrite naiveStringMatching_correct, kmpStringMatching_correct,
    rabinKarpStringMatching_correct, horspoolStringMatching_correct by done.
  done.
Qed.

(** ** Independence of the budget *)

Lemma monotone_const {A} (x : option A) : monotone (λ _, x).
Proof. by intros k k' r _. Qed.

Lemma monotone_bind {A B} (f : nat → option A) (g : A → nat → option B) :
  monotone f → (∀ a, monotone (g a)) → monotone (λ k, f k ≫= λ a, g a k).
Proof.
  intros Hf Hg k k' r Hle H. simpl in *.
  apply bind_Some in H as (a & Ha & Hr).
  rewrite (Hf _ _ _ Hle Ha). simpl. by apply (Hg a k k').
Qed.

Lemma monotone_loop {S} cond (body : nat → S → option (flow S)) s :
  (∀ s, monotone (λ k, body k s)) → monotone (λ k, loop k cond body s).
Proof.
  intros Hb k k' r Hle H. eapply loop_mono; [|done..].
  intros f f' s0 r0 Hff. apply Hb. done.
Qed.

Lemma compare_window_monotone text pattern m i :
  monotone (λ k, Script.compare_window k text pattern m i).
Proof.
  unfold Script.compare_window.
  apply monotone_bind; [|intros [j b]; apply monotone_const].
  apply monotone_loop. intros s. apply monotone_const.
Qed.

Lemma naiveStringMatching_monotone text pattern :
  monotone (λ k, Script.naiveStringMatching k text pattern).
Proof.
  unfold Script.naiveStringMatching.
  destruct (_ || _); [apply monotone_const|]. cbv zeta.
  apply monotone_bind; [|intros [i ms]; apply monotone_const].
  apply monotone_loop. intros [i ms].
  apply (monotone_bind (λ k, Script.compare_window k text pattern _ i));
    [apply compare_window_monotone|intros b; apply monotone_const].
Qed.

Lemma kmpStringMatching_monotone text pattern :
  monotone (λ k, Script.kmpStringMatching k text pattern).
Proof.
  unfold Script.kmpStringMatching.
  destruct (_ || _); [apply monotone_const|]. cbv zeta.
  destruct (bool_decide _); [apply monotone_const|].
  apply (monotone_bind (λ k, Script.computeLPS k pattern)).
  - intros k k' r Hle. by apply computeLPS_mono.
  - intros lps. unfold Script.kmp_search.
    apply monotone_bind; [|intros s; apply monotone_const].
    apply monotone_loop. intros s. apply monotone_const.
Qed.

Lemma rk_multiplier_monotone m : monotone (λ k, Script.rk_multiplier k m).
Proof.
  unfold Script.rk_multiplier.
  apply monotone_bind; [|intros [i h]; apply monotone_const].
  apply monotone_loop. intros s. apply monotone_const.
Qed.

Lemma rk_init_monotone text pattern m :
  monotone (λ k, Script.rk_init k text pattern m).
Proof.
  unfold Script.rk_init.
  apply monotone_bind; [|intros [[i ph] th]; apply monotone_const].
  apply monotone_loop. intros s. apply monotone_const.
Qed.

Lemma rk_body_monotone text pattern n m h ph s :
  monotone (λ k, Script.rk_body text pattern n m h ph k s).
Proof.
  destruct s as [i th ms]. unfold Script.rk_body.
  apply (monotone_bind
           (λ k, if bool_decide (ph = th)
                 then mtch ← Script.compare_window k text pattern m i;
                      Some (if mtch : bool then ms ++ [i] else ms)
                 else Some ms));
    [|intros ms'; apply monotone_const].
  case_bool_decide; [|apply monotone_const].
  apply (monotone_bind (λ k, Script.compare_window k text pattern m i));
    [apply compare_window_monotone|intros b; apply monotone_const].
Qed.

Lemma rabinKarpStringMatching_monotone text pattern :
  monotone (λ k, Script.rabinKarpStringMatching k text pattern).
Proof.
  intros k k' r Hle. unfold Script.rabinKarpStringMatching.
  destruct (_ || _); [done|]. cbv zeta. intros H.
  apply bind_Some in H as (h & Hh & H).
  rewrite (rk_multiplier_monotone _ _ _ _ Hle Hh). simpl.
  apply bind_Some in H as ([ph th] & Hinit & H).
  rewrite (rk_init_monotone _ _ _ _ _ _ Hle Hinit). simpl.
  apply bind_Some in H as (s & Hloop & H).
  eapply monotone_loop in Hloop; [|intros s0; apply rk_body_monotone|exact Hle].
  simpl in Hloop. by rewrite Hloop.
Qed.

Lemma horspoolStringMatching_monotone text pattern :
  monotone (λ k, Script.horspoolStringMatching k text pattern).
Proof.
  unfold Script.horspoolStringMatching.
  destruct (_ || _); [apply monotone_const|]. cbv zeta.
  apply (monotone_bind (λ k, Script.buildShiftTable k pattern _)).
  { unfold Script.buildShiftTable.
    apply monotone_bind; [|intros [i t]; apply monotone_const].
    apply monotone_loop. intros s. apply monotone_const. }
  intros t.
  apply monotone_bind; [|intros [i ms]; apply monotone_const].
  apply monotone_loop. intros [i ms]. unfold Script.horspool_body.
  apply (monotone_bind (λ k, Script.compare_backwards k text pattern _ i));
    [|intros j; apply monotone_const].
  unfold Script.compare_backwards.
  apply monotone_loop. intros s. apply monotone_const.
Qed.

(** Whatever the budget, a matcher that returns a result returns the
    expected one. *)
Lemma monotone_result {A} (f : nat → option A) (bound : nat) (x : A) :
  monotone f → (∀ k, (bound ≤ k)%nat → f k = Some x) →
  ∀ k r, f k = Some r → r = x.
Proof.
  intros Hm Hf k r Hr.
  apply (Hm k (k `max` bound)%nat) in Hr; [|lia].
  rewrite Hf in Hr by lia. by simplify_eq.
Qed.

Lemma matchers_sound text pattern fuel r :
  Script.naiveStringMatching fuel text pattern = Some r ∨
  Script.kmpStringMatching fuel text pattern = Some r ∨
  Script.rabinKarpStringMatching fuel text pattern = Some r ∨
  Script.horspoolStringMatching fuel text pattern = Some r →
  r = expected text pattern.
Proof.
  intros [H|[H|[H|H]]].
  - apply (monotone_result (λ k, Script.naiveStringMatching k text pattern)
             (budget text pattern) (expected text pattern)
             (naiveStringMatching_monotone _ _)) in H;
      [done|]. intros k Hk. by apply matchers_expected.
  - apply (monotone_result (λ k, Script.kmpStringMatching k text pattern)
             (budget text pattern) (expected text pattern)
             (kmpStringMatching_monotone _ _)) in H;
      [done|]. intros k Hk. by apply matchers_expected.
  - apply (monotone_result (λ k, Script.rabinKarpStringMatching k text pattern)
             (budget text pattern) (expected text pattern)
             (rabinKarpStringMatching_monotone _ _)) in H;
      [done|]. intros k Hk. by apply matchers_expected.
  - apply (monotone_result (λ k, Script.horspoolStringMatching k text pattern)
             (budget text pattern) (expected text pattern)
             (horspoolStringMatching_monotone _ _)) in H;
      [done|]. intros k Hk. by apply matchers_expected.
Qed.

(** C1.  For every text and every pattern, the four matchers (naive, KMP,
    Rabin-Karp, Horspool) of js/script.js and the four of js/sentiment.js
    return one and the same sequence of match offsets. *)
Theorem matchers_agree text pattern fuel :
  (budget text pattern ≤ fuel)%nat →
  ∃ r,
    Script.naiveStringMatching fuel text pattern = Some r ∧
    Script.kmpStringMatching fuel text pattern = Some r ∧
    Script.rabinKarpStringMatching fuel text pattern = Some r ∧
    Script.horspoolStringMatching fuel text pattern = Some r ∧
    Sentiment.naiveSearch fuel text pattern = Some r ∧
    Sentiment.kmpSearch fuel text pattern = Some r ∧
    Sentiment.hashingSearch fuel text pattern = Some r ∧
    Sentiment.horspoolSearch fuel text pattern = Some r.
Proof.
  intros Hfuel. exists (expected text pattern). by apply matchers_expected.
Qed.

Lemma matchers_agree_witness :
  ∃ r,
    Script.naiveStringMatching 14 s_aaa s_aa = Some r ∧
    Script.kmpStringMatching 14 s_aaa s_aa = Some r ∧
    Script.rabinKarpStringMatching 14 s_aaa s_aa = Some r ∧
    Script.horspoolStringMatching 14 s_aaa s_aa = Some r ∧
    Sentiment.naiveSearch 14 s_aaa s_aa = Some r ∧
    Sentiment.kmpSearch 14 s_aaa s_aa = Some r ∧
    Sentiment.hashingSearch 14 s_aaa s_aa = Some r ∧
    Sentiment.horspoolSearch 14 s_aaa s_aa = Some r.
Proof. apply (matchers_agree s_aaa s_aa 14). vm_compute. lia. Defined.

(** C2, as stated, fails for the empty pattern: every offset [0 .. n] is an
    occurrence of the empty pattern, and the matcher returns nothing. *)
Lemma naive_reference_counterexample :
  Script.naiveStringMatching 4 s_a [] = Some [] ∧
  occurrences s_a [] = [0; 1] ∧
  Script.naiveStringMatching 4 s_a [] ≠ Some (occurrences s_a []).
Proof. vm_compute. repeat split; done. Qed.

(** The pointer scan of the console C++ program restarts the pattern
    without moving back in the text, and so misses occurrences. *)
Lemma cpp_naive_misses_occurrences :
  Cpp.naiveStringMatching 5 s_aab s_ab = Some [] ∧
  expected s_aab s_ab = [1] ∧
  Cpp.naiveStringMatching 5 s_aaa s_aa = Some [0] ∧
  expected s_aaa s_aa = [0; 1].
Proof. by vm_compute. Qed.

(** C2, amended.  For every text and every non-empty pattern,
    [naiveStringMatching] returns exactly the offsets [i] with
    [0 <= i <= len text - len pattern] at which [text[i .. i + len pattern)]
    equals the pattern, in increasing order; for the empty pattern it
    returns the empty sequence. *)
Theorem naive_reference text pattern fuel :
  (Z.to_nat (len text) + 3 ≤ fuel)%nat →
  ∃ r,
    Script.naiveStringMatching fuel text pattern = Some r ∧
    (pattern = [] → r = []) ∧
    (pattern ≠ [] →
       StronglySorted Z.lt r ∧
       ∀ i, i ∈ r ↔ 0 ≤ i ≤ len text - len pattern ∧
                    window text i (len pattern) = pattern).
Proof.
  intros Hfuel. exists (expected text pattern).
  split; [by apply naiveStringMatching_correct|].
  split; [by intros ->|].
  intros Hne. split; [apply expected_sorted|].
  intros i. unfold expected. rewrite decide_False by done.
  rewrite elem_of_occurrences. unfold occurs_at. intuition lia.
Qed.

Lemma naive_reference_witness :
  ∃ r,
    Script.naiveStringMatching 6 s_aaa s_aa = Some r ∧
    (s_aa = [] → r = []) ∧
    (s_aa ≠ [] →
       StronglySorted Z.lt r ∧
       ∀ i, i ∈ r ↔ 0 ≤ i ≤ len s_aaa - len s_aa ∧
                    window s_aaa i (len s_aa) = s_aa).
Proof. apply (naive_reference s_aaa s_aa 6). vm_compute. lia. Defined.

Lemma seqZ_snoc k : 0 ≤ k → seqZ 0 (k + 1) = seqZ 0 k ++ [k].
Proof.
  intros. rewrite seqZ_app by lia. by f_equal.
Qed.

(** The guarded matchers return nothing for an empty pattern and for a
    pattern longer than the text. *)
Lemma guarded_matchers_invalid_input text pattern fuel :
  (budget text pattern ≤ fuel)%nat →
  pattern = [] ∨ len text < len pattern →
  Script.naiveStringMatching fuel text pattern = Some [] ∧
  Script.kmpStringMatching fuel text pattern = Some [] ∧
  Script.rabinKarpStringMatching fuel text pattern = Some [] ∧
  Script.horspoolStringMatching fuel text pattern = Some [].
Proof.
  intros Hfuel Hbad.
  destruct (matchers_expected text pattern fuel Hfuel) as (-> & -> & -> & -> & _).
  assert (expected text pattern = []) as ->; [|done].
  destruct Hbad as [->|H]; [done|by apply expected_long_pattern].
Qed.

(** C3.  [naiveSearch] of the keyword page (js/script.js, lines 1055-1073)
    has no guard on the pattern: for the empty pattern it reports every
    offset from [0] to [len text], where the specification requires the empty
    sequence. *)
Theorem keywords_naiveSearch_empty_pattern text fuel :
  (Z.to_nat (len text) + 3 ≤ fuel)%nat →
  Keywords.naiveSearch fuel text [] = Some (seqZ 0 (len text + 1)).
Proof.
  intros Hfuel. unfold Keywords.naiveSearch.
  pose proof (len_nonneg text) as Hn.
  change (len (@nil N)) with 0.
  loop_with
    (λ '(i, matches), 0 ≤ i ≤ len text + 1 ∧ matches = seqZ 0 i)
    (λ '((_, matches) : Z * list Z), matches = seqZ 0 (len text + 1))
    (λ '((i, _) : Z * list Z), len text + 1 - i) 1%nat;
    [| |split; [lia|done]|simpl; lia
     |by destruct Hloop as ([i ms] & -> & ->)].
  - intros [i ms] (Hi & ->) Hc. apply bool_decide_eq_false in Hc.
    f_equal. lia.
  - intros [i ms] f (Hi & ->) Hc Hf. apply bool_decide_eq_true in Hc.
    left. destruct f as [|f]; [lia|]. simpl.
    eexists. split; [done|]. split; [|lia]. split; [lia|].
    by rewrite seqZ_snoc by lia.
Qed.

Lemma keywords_naiveSearch_empty_pattern_witness :
  Keywords.naiveSearch 4 s_a [] = Some (seqZ 0 (len s_a + 1)).
Proof. apply (keywords_naiveSearch_empty_pattern s_a 4). vm_compute. lia. Defined.

(** C4.  For every non-empty pattern, [computeLPS] (js/script.js and
    js/search.js) returns a table with one entry for each position, where
    entry [i] is the length of the longest proper prefix of
    [pattern[0 ..= i]] that is also a suffix of it; so entry [0] is [0] and
    entry [i] is at most [i]; for "ababaca" the table is
    [0,0,1,2,3,0,1]. *)
Theorem computeLPS_longest_border pattern fuel :
  pattern ≠ [] →
  (Z.to_nat (2 * len pattern) + 1 ≤ fuel)%nat →
  ∃ lps,
    Script.computeLPS fuel pattern = Some lps ∧
    Search.computeLPS fuel pattern = Some lps ∧
    len lps = len pattern ∧
    get lps 0 = Some 0 ∧
    (∀ i, 0 ≤ i < len pattern →
       ∃ k, get lps i = Some k ∧ k ≤ i ∧
            longest_border (window pattern 0 (i + 1)) k) ∧
    Script.computeLPS 15 s_ababaca = Some [0; 0; 1; 2; 3; 0; 1].
Proof.
  intros Hne Hfuel.
  assert (0 < len pattern) as Hm.
  { pose proof (len_nonneg pattern). rewrite <- len_nil_iff in Hne. lia. }
  destruct (computeLPS_spec pattern fuel Hm Hfuel) as (lps & Hlps & Hlen & Hall).
  exists lps. split; [done|]. split; [done|]. split; [done|].
  split; [|split; [|by vm_compute]].
  - destruct (Hall 0 ltac:(lia)) as (k & Hk & Hat).
    apply lps_at_bounds in Hat. rewrite Hk. f_equal. lia.
  - intros i Hi. destruct (Hall i Hi) as (k & Hk & Hat).
    exists k. split; [done|].
    split; [pose proof (lps_at_bounds _ _ _ Hat); lia|].
    by apply lps_at_longest_border.
Qed.

Lemma computeLPS_longest_border_witness :
  ∃ lps,
    Script.computeLPS 15 s_ababaca = Some lps ∧
    Search.computeLPS 15 s_ababaca = Some lps ∧
    len lps = len s_ababaca ∧
    get lps 0 = Some 0 ∧
    (∀ i, 0 ≤ i < len s_ababaca →
       ∃ k, get lps i = Some k ∧ k ≤ i ∧
            longest_border (window s_ababaca 0 (i + 1)) k) ∧
    Script.computeLPS 15 s_ababaca = Some [0; 0; 1; 2; 3; 0; 1].
Proof.
  apply (computeLPS_longest_border s_ababaca 15); [done|vm_compute; lia].
Defined.

(** C5, as stated, fails for the C++ helper [hashing]: it evaluates the
    window in radix 101 and never reduces, so its value for "ab" is
    neither below the prime nor the Horner value modulo 101 in base 256. *)
Lemma rolling_hash_counterexample :
  Cpp.hashing 4 s_ab 0 0 0 = Some (9895, 9797) ∧
  ¬ (0 ≤ 9895 < Script.prime) ∧
  horner Script.base Script.prime s_ab = 84.
Proof. vm_compute. split; [done|]. split; [|done]. intros [_ H]. done. Qed.

(** C5, amended.  In the Rabin-Karp matcher of js/script.js (and its copy
    in js/sentiment.js), for every text and every non-empty pattern no
    longer than the text: the multiplier is [base^(m-1) mod prime]; the
    initial hashes are the Horner values of the pattern and of the first
    window; for every window start [i] with [0 <= i < n - m] the rolling
    update of the hash of window [i] is the Horner value of window [i+1],
    modulo the prime 101 with base 256; and the hash stored at every
    iteration of the sliding loop lies in [[0, prime)] and, while the
    window fits, is the Horner value of the current window. *)
Theorem rolling_hash_consistent text pattern fuel :
  pattern ≠ [] → len pattern ≤ len text →
  (Z.to_nat (len pattern) + 1 ≤ fuel)%nat →
  let n := len text in
  let m := len pattern in
  let H := horner Script.base Script.prime in
  Script.base = 256 ∧ Script.prime = 101 ∧
  ∃ h,
    Script.rk_multiplier fuel m = Some h ∧
    Script.rk_init fuel text pattern m = Some (H pattern, H (window text 0 m)) ∧
    (∀ i out inc,
       0 ≤ i < n - m →
       charCodeAt text i = Some out → charCodeAt text (i + m) = Some inc →
       Script.rk_roll h (H (window text i m)) out inc = H (window text (i + 1) m) ∧
       0 ≤ Script.rk_roll h (H (window text i m)) out inc < Script.prime) ∧
    (∀ s,
       reaches (λ s, bool_decide (Script.rk_i s ≤ n - m))
               (Script.rk_body text pattern n m h (H pattern))
               (Script.RkState 0 (H (window text 0 m)) []) s →
       0 ≤ Script.rk_hash s < Script.prime ∧
       (Script.rk_i s ≤ n - m → Script.rk_hash s = H (window text (Script.rk_i s) m))).
Proof.
  intros Hne Hle Hfuel. cbv zeta.
  assert (0 < len pattern) as Hm.
  { pose proof (len_nonneg pattern). rewrite <- len_nil_iff in Hne. lia. }
  split; [done|]. split; [done|].
  exists (Script.base ^ (len pattern - 1) `mod` Script.prime).
  split; [by apply rk_multiplier_spec|].
  split; [apply rk_init_spec; lia|].
  split.
  - intros i out inc Hi Hout Hinc.
    rewrite (rk_roll_window text pattern i out inc) by done.
    split; [done|]. apply horner_range, prime_pos.
  - intros s Hs.
    assert (rk_hash_ok text (len pattern) s) as (_ & Hr & Hh); [|done].
    revert s Hs. apply reaches_invariant.
    + split; [done|]. split; [apply horner_range, prime_pos|done].
    + intros s s' f Hok Hc Hbody. apply bool_decide_eq_true in Hc.
      by destruct (rk_body_hash text pattern _ f s s' ltac:(lia) Hok Hc Hbody).
Qed.

Lemma rolling_hash_consistent_witness :
  let text := s_aab in
  let pattern := s_ab in
  let fuel := 5%nat in
  let n := len text in
  let m := len pattern in
  let H := horner Script.base Script.prime in
  Script.base = 256 ∧ Script.prime = 101 ∧
  ∃ h,
    Script.rk_multiplier fuel m = Some h ∧
    Script.rk_init fuel text pattern m = Some (H pattern, H (window text 0 m)) ∧
    (∀ i out inc,
       0 ≤ i < n - m →
       charCodeAt text i = Some out → charCodeAt text (i + m) = Some inc →
       Script.rk_roll h (H (window text i m)) out inc = H (window text (i + 1) m) ∧
       0 ≤ Script.rk_roll h (H (window text i m)) out inc < Script.prime) ∧
    (∀ s,
       reaches (λ s, bool_decide (Script.rk_i s ≤ n - m))
               (Script.rk_body text pattern n m h (H pattern))
               (Script.RkState 0 (H (window text 0 m)) []) s →
       0 ≤ Script.rk_hash s < Script.prime ∧
       (Script.rk_i s ≤ n - m → Script.rk_hash s = H (window text (Script.rk_i s) m))).
Proof.
  apply (rolling_hash_consistent s_aab s_ab 5); [done|vm_compute; done|vm_compute; lia].
Defined.

(** C6, as stated, fails for [horspoolHelper] of the C++ program: the last
    character of "abc" is in its table. *)
Lemma shift_table_counterexample :
  ∃ t, Cpp.horspoolHelper 5 s_abc = Some t ∧
       t !! 99%N = Some 3 ∧
       t ≠ <[98%N := 1]> (<[97%N := 2]> ∅).
Proof.
  eexists. split; [by vm_compute|]. split; [done|].
  intros H. apply (f_equal (λ t : gmap N Z, t !! 99%N)) in H. done.
Qed.

(** C6, amended.  For every non-empty pattern of length [m], the table
    built by [horspoolStringMatching] (js/script.js, lines 513-518) maps
    exactly the units of the positions [0 .. m-2], each to [m - 1 - k] for
    its rightmost such position [k]; the last position is excluded; for
    "abc" the table is {a:2, b:1} with c absent.  [horspoolHelper] of the
    C++ program, for a pattern whose length fits in an [int], builds the
    same table and adds to it the last unit with the value [m] when that
    unit has no earlier position. *)
Theorem shift_table_rightmost pattern fuel :
  pattern ≠ [] →
  (Z.to_nat (len pattern) + 1 ≤ fuel)%nat →
  let m := len pattern in
  ∃ t last,
    Script.buildShiftTable fuel pattern m = Some t ∧
    (∀ c v, t !! c = Some v ↔
            ∃ k, 0 ≤ k ≤ m - 2 ∧ get pattern k = Some c ∧ v = m - 1 - k ∧
                 ∀ k', k < k' ≤ m - 2 → get pattern k' ≠ Some c) ∧
    (∀ c, t !! c = None ↔ ∀ k, 0 ≤ k ≤ m - 2 → get pattern k ≠ Some c) ∧
    get pattern (m - 1) = Some last ∧
    (m < 2 ^ 31 →
     Cpp.horspoolHelper fuel pattern =
       Some (if decide (t !! last = None) then <[last := m]> t else t)) ∧
    Script.buildShiftTable 5 s_abc 3 = Some (<[98%N := 1]> (<[97%N := 2]> ∅)).
Proof.
  intros Hne Hfuel. cbv zeta.
  assert (0 < len pattern) as Hm.
  { pose proof (len_nonneg pattern). rewrite <- len_nil_iff in Hne. lia. }
  destruct (buildShiftTable_spec pattern fuel Hm Hfuel) as (t & Hbuild & Ht).
  destruct (get_lt_Some pattern (len pattern - 1)) as [last Hlast]; [lia|].
  exists t, last. split; [done|].
  split; [intros c v; by apply shift_table_upto_lookup|].
  split; [intros c; by apply shift_table_upto_absent|].
  split; [done|]. split; [|by vm_compute].
  intros Hint.
  destruct (cpp_horspoolHelper_spec pattern fuel t ltac:(lia) Hfuel Ht)
    as (last' & Hlast' & Hcpp).
  by simplify_eq.
Qed.

Lemma shift_table_rightmost_witness :
  let m := len s_abc in
  ∃ t last,
    Script.buildShiftTable 5 s_abc m = Some t ∧
    (∀ c v, t !! c = Some v ↔
            ∃ k, 0 ≤ k ≤ m - 2 ∧ get s_abc k = Some c ∧ v = m - 1 - k ∧
                 ∀ k', k < k' ≤ m - 2 → get s_abc k' ≠ Some c) ∧
    (∀ c, t !! c = None ↔ ∀ k, 0 ≤ k ≤ m - 2 → get s_abc k ≠ Some c) ∧
    get s_abc (m - 1) = Some last ∧
    (m < 2 ^ 31 →
     Cpp.horspoolHelper 5 s_abc =
       Some (if decide (t !! last = None) then <[last := m]> t else t)) ∧
    Script.buildShiftTable 5 s_abc 3 = Some (<[98%N := 1]> (<[97%N := 2]> ∅)).
Proof. apply (shift_table_rightmost s_abc 5); [done|vm_compute; lia]. Defined.

Lemma expected_NoDup text pattern : NoDup (expected text pattern).
Proof.
  unfold expected. case_decide; [constructor|].
  apply NoDup_filter, NoDup_seqZ.
Qed.

Lemma elem_of_expected text pattern i :
  pattern ≠ [] → i ∈ expected text pattern ↔ occurs_at text pattern i.
Proof.
  intros. unfold expected. rewrite decide_False by done.
  apply elem_of_occurrences.
Qed.

(** C7.  For every text and every pattern, the sequence returned by each of
    the four matchers is strictly increasing, has no duplicates and
    contains every occurrence of a non-empty pattern, overlapping or not;
    [search("aaa", "aa")] is [[0, 1]] for each of them. *)
Theorem matches_strictly_increasing text pattern fuel :
  (budget text pattern ≤ fuel)%nat →
  ∃ r,
    Script.naiveStringMatching fuel text pattern = Some r ∧
    Script.kmpStringMatching fuel text pattern = Some r ∧
    Script.rabinKarpStringMatching fuel text pattern = Some r ∧
    Script.horspoolStringMatching fuel text pattern = Some r ∧
    StronglySorted Z.lt r ∧
    NoDup r ∧
    (pattern ≠ [] → ∀ i, occurs_at text pattern i → i ∈ r) ∧
    Script.naiveStringMatching 14 s_aaa s_aa = Some [0; 1] ∧
    Script.kmpStringMatching 14 s_aaa s_aa = Some [0; 1] ∧
    Script.rabinKarpStringMatching 14 s_aaa s_aa = Some [0; 1] ∧
    Script.horspoolStringMatching 14 s_aaa s_aa = Some [0; 1].
Proof.
  intros Hfuel. exists (expected text pattern).
  destruct (matchers_expected text pattern fuel Hfuel) as (-> & -> & -> & -> & _).
  repeat (split; [done|]).
  split; [apply expected_sorted|]. split; [apply expected_NoDup|].
  split; [intros Hne i Hi; by apply elem_of_expected|].
  by vm_compute.
Qed.

Lemma matches_strictly_increasing_witness :
  ∃ r,
    Script.naiveStringMatching 14 s_aaa s_aa = Some r ∧
    Script.kmpStringMatching 14 s_aaa s_aa = Some r ∧
    Script.rabinKarpStringMatching 14 s_aaa s_aa = Some r ∧
    Script.horspoolStringMatching 14 s_aaa s_aa = Some r ∧
    StronglySorted Z.lt r ∧
    NoDup r ∧
    (s_aa ≠ [] → ∀ i, occurs_at s_aaa s_aa i → i ∈ r) ∧
    Script.naiveStringMatching 14 s_aaa s_aa = Some [0; 1] ∧
    Script.kmpStringMatching 14 s_aaa s_aa = Some [0; 1] ∧
    Script.rabinKarpStringMatching 14 s_aaa s_aa = Some [0; 1] ∧
    Script.horspoolStringMatching 14 s_aaa s_aa = Some [0; 1].
Proof. apply (matches_strictly_increasing s_aaa s_aa 14). vm_compute. lia. Defined.

(** ** The cursors of KMP *)

(** In one iteration the text cursor stays or advances, and the pattern
    cursor advances by one, stays, or is read from the table. *)
Lemma kmp_body_shape text pattern n m lps s s' :
  Script.kmp_body text pattern n m lps s = Some (Continue s') →
  Script.kmp_i s ≤ Script.kmp_i s' ∧
  (Script.kmp_j s' = Script.kmp_j s + 1 ∨
   Script.kmp_j s' = Script.kmp_j s ∨
   ∃ t, (t = Script.kmp_j s - 1 ∨ t = Script.kmp_j s) ∧
        get lps t = Some (Script.kmp_j s')).
Proof.
  destruct s as [i j ms]. unfold Script.kmp_body. simpl.
  destruct (strict_eq _ _).
  - case_bool_decide.
    + destruct (get lps (j + 1 - 1)) as [k|] eqn:Hk; [|done].
      simpl. intros [= <-]. simpl. split; [lia|]. right. right.
      exists j. split; [by right|]. by rewrite <- Hk; f_equal; lia.
    + destruct (bool_decide (i + 1 < n) && strict_ne _ _).
      * case_bool_decide.
        -- destruct (get lps (j + 1 - 1)) as [k|] eqn:Hk; [|done].
           simpl. intros [= <-]. simpl. split; [lia|]. right. right.
           exists j. split; [by right|]. by rewrite <- Hk; f_equal; lia.
        -- intros [= <-]. simpl. split; [lia|]. by left.
      * intros [= <-]. simpl. split; [lia|]. by left.
  - case_bool_decide.
    + destruct (get lps (j - 1)) as [k|] eqn:Hk; [|done].
      simpl. intros [= <-]. simpl. split; [lia|]. right. right.
      exists (j - 1). split; [by left|done].
    + destruct (bool_decide (i < n) && strict_ne _ _).
      * case_bool_decide.
        -- destruct (get lps (j - 1)) as [k|] eqn:Hk; [|done].
           simpl. intros [= <-]. simpl. split; [lia|]. right. right.
           exists (j - 1). split; [by left|done].
        -- intros [= <-]. simpl. split; [lia|]. right. by left.
      * intros [= <-]. simpl. split; [lia|]. right. by left.
Qed.

(** C8.  In [kmpStringMatching], for every text and every non-empty
    pattern, at every iteration that the search loop reaches, the
    iteration runs to its end and the new value of the text cursor [i] is
    at least the previous one; the pattern cursor [j] advances by one,
    stays, or falls back to an entry of the LPS table. *)
Theorem kmp_text_cursor_never_decreases text pattern fuel lps s :
  pattern ≠ [] →
  Script.computeLPS fuel pattern = Some lps →
  reaches (λ s, bool_decide (Script.kmp_i s < len text))
          (λ _, Script.kmp_body text pattern (len text) (len pattern) lps)
          (Script.KmpState 0 0 []) s →
  Script.kmp_i s < len text →
  ∃ s',
    Script.kmp_body text pattern (len text) (len pattern) lps s
      = Some (Continue s') ∧
    Script.kmp_i s ≤ Script.kmp_i s' ∧
    (Script.kmp_j s' = Script.kmp_j s + 1 ∨
     Script.kmp_j s' = Script.kmp_j s ∨
     ∃ t, (t = Script.kmp_j s - 1 ∨ t = Script.kmp_j s) ∧
          get lps t = Some (Script.kmp_j s')).
Proof.
  intros Hne Hlps Hreach Hlt.
  pose proof (computeLPS_sound pattern fuel lps Hne Hlps) as Hok.
  assert (0 < len pattern) as Hm.
  { pose proof (len_nonneg pattern). rewrite <- len_nil_iff in Hne. lia. }
  assert (kmp_invariant text pattern s) as HI.
  { clear Hlt. revert s Hreach. apply reaches_invariant.
    - split; [lia|]. split; [apply len_nonneg|]. split; [done|].
      split; [intros; lia|done].
    - intros s s' f HI Hc Hbody. apply bool_decide_eq_true in Hc.
      destruct (kmp_body_step text pattern lps Hok s HI Hc) as (s'' & Hs'' & HI' & _).
      congruence. }
  destruct (kmp_body_step text pattern lps Hok s HI Hlt) as (s' & Hs' & _).
  exists s'. split; [done|]. by apply kmp_body_shape in Hs'.
Qed.

Lemma kmp_text_cursor_never_decreases_witness :
  ∃ s',
    Script.kmp_body s_aaa s_aa (len s_aaa) (len s_aa) [0; 1] (Script.KmpState 0 0 [])
      = Some (Continue s') ∧
    Script.kmp_i (Script.KmpState 0 0 []) ≤ Script.kmp_i s' ∧
    (Script.kmp_j s' = Script.kmp_j (Script.KmpState 0 0 []) + 1 ∨
     Script.kmp_j s' = Script.kmp_j (Script.KmpState 0 0 []) ∨
     ∃ t, (t = Script.kmp_j (Script.KmpState 0 0 []) - 1 ∨
           t = Script.kmp_j (Script.KmpState 0 0 [])) ∧
          get [0; 1] t = Some (Script.kmp_j s')).
Proof.
  apply (kmp_text_cursor_never_decreases s_aaa s_aa 5 [0; 1] (Script.KmpState 0 0 []));
    [done|by vm_compute|apply reaches_start|by vm_compute].
Defined.

(** ** Case *)

Lemma Search_computeLPS_eq : Search.computeLPS = Script.computeLPS.
Proof. reflexivity. Qed.

Lemma latin_toLowerCase_nil s : Search.latin_toLowerCase s = [] ↔ s = [].
Proof. by destruct s. Qed.

(** The movie search matches the lower-cased text against the lower-cased
    pattern, for any lowering that keeps non-empty strings non-empty. *)
Lemma Search_kmpStringMatching_correct lower text pattern fuel :
  (∀ s, lower s = [] ↔ s = []) →
  (budget (lower text) (lower pattern) ≤ fuel)%nat →
  Search.kmpStringMatching lower fuel text pattern =
  Some (expected (lower text) (lower pattern)).
Proof.
  intros Hlower Hfuel. apply budget_bounds in Hfuel as [_ Hfuel].
  pose proof (kmpStringMatching_correct (lower text) (lower pattern) fuel Hfuel)
    as Hk.
  assert (∀ s, falsy (lower s) = falsy s) as Hfalsy.
  { intros s. unfold falsy. apply bool_decide_ext, Hlower. }
  unfold Search.kmpStringMatching, Script.kmpStringMatching in *.
  rewrite !Hfalsy in Hk.
  destruct (falsy pattern || falsy text) eqn:Hg; [done|].
  apply orb_false_iff in Hg as [Hp _].
  rewrite <- Hfalsy in Hp. apply falsy_false in Hp.
  rewrite (bool_decide_false (len (lower pattern) = 0)) in Hk |- * by lia.
  simpl. case_bool_decide as Hgt; [|by rewrite Search_computeLPS_eq].
  (* a pattern longer than the text: KMP would find nothing either *)
  rewrite expected_long_pattern; [done|lia].
Qed.

(** C9, as stated, fails for [kmpStringMatching] of js/search.js, which
    lower-cases the text and the pattern before it matches. *)
Lemma case_sensitivity_counterexample :
  Search.kmpStringMatching Search.latin_toLowerCase 20 s_Hello s_hello = Some [0] ∧
  Search.kmpStringMatching Search.latin_toLowerCase 20 s_Hello s_hello ≠ Some [].
Proof. by vm_compute. Qed.

(** C9, amended.  The four matchers of js/script.js (and their copies in
    js/sentiment.js) are case-sensitive: every offset they report is one
    where the window of the text equals the pattern unit for unit, and
    [search("Hello", "hello")] is [[]].  [kmpStringMatching] of
    js/search.js lower-cases the text and the pattern first: it returns the
    matches of the lower-cased pattern in the lower-cased text, which is
    [[0]] for ("Hello", "hello"). *)
Theorem case_sensitivity lower text pattern fuel :
  (∀ s, lower s = [] ↔ s = []) →
  (budget text pattern ≤ fuel)%nat →
  (budget (lower text) (lower pattern) ≤ fuel)%nat →
  ∃ r,
    Script.naiveStringMatching fuel text pattern = Some r ∧
    Script.kmpStringMatching fuel text pattern = Some r ∧
    Script.rabinKarpStringMatching fuel text pattern = Some r ∧
    Script.horspoolStringMatching fuel text pattern = Some r ∧
    (∀ i, i ∈ r → window text i (len pattern) = pattern) ∧
    Search.kmpStringMatching lower fuel text pattern =
      Some (expected (lower text) (lower pattern)) ∧
    Script.naiveStringMatching 20 s_Hello s_hello = Some [] ∧
    Script.kmpStringMatching 20 s_Hello s_hello = Some [] ∧
    Script.rabinKarpStringMatching 20 s_Hello s_hello = Some [] ∧
    Script.horspoolStringMatching 20 s_Hello s_hello = Some [] ∧
    Search.kmpStringMatching Search.latin_toLowerCase 20 s_Hello s_hello = Some [0].
Proof.
  intros Hlower Hfuel Hfuel'. exists (expected text pattern).
  destruct (matchers_expected text pattern fuel Hfuel) as (-> & -> & -> & -> & _).
  repeat (split; [done|]).
  split.
  { intros i. unfold expected. case_decide; [by intros ?%not_elem_of_nil|].
    rewrite elem_of_occurrences. by intros (_ & _ & Hw). }
  split; [by apply Search_kmpStringMatching_correct|].
  by vm_compute.
Qed.

Lemma case_sensitivity_witness :
  ∃ r,
    Script.naiveStringMatching 24 s_Hello s_hello = Some r ∧
    Script.kmpStringMatching 24 s_Hello s_hello = Some r ∧
    Script.rabinKarpStringMatching 24 s_Hello s_hello = Some r ∧
    Script.horspoolStringMatching 24 s_Hello s_hello = Some r ∧
    (∀ i, i ∈ r → window s_Hello i (len s_hello) = s_hello) ∧
    Search.kmpStringMatching Search.latin_toLowerCase 24 s_Hello s_hello =
      Some (expected (Search.latin_toLowerCase s_Hello)
                     (Search.latin_toLowerCase s_hello)) ∧
    Script.naiveStringMatching 20 s_Hello s_hello = Some [] ∧
    Script.kmpStringMatching 20 s_Hello s_hello = Some [] ∧
    Script.rabinKarpStringMatching 20 s_Hello s_hello = Some [] ∧
    Script.horspoolStringMatching 20 s_Hello s_hello = Some [] ∧
    Search.kmpStringMatching Search.latin_toLowerCase 20 s_Hello s_hello = Some [0].
Proof.
  apply (case_sensitivity Search.latin_toLowerCase s_Hello s_hello 24);
    [apply latin_toLowerCase_nil|vm_compute; lia|vm_compute; lia].
Defined.

(** ** Progress of Horspool *)

(** C10.  [horspoolStringMatching] (js/script.js; [horspoolSearch] of
    js/sentiment.js is the same function) terminates on every input: the
    budget suffices for a result; and for every text and every non-empty
    pattern no longer than the text, every shift stored in the table is
    [m - 1 - k] for a position [k <= m - 2] and so at least 1, the default
    shift [m] is at least 1, and every iteration of the main loop runs to
    its end (it never leaves the loop) and increases the window start [i]
    by at least 1 and at most [m]. *)
Theorem horspool_terminates text pattern fuel :
  (budget text pattern ≤ fuel)%nat →
  let m := len pattern in
  (∃ r, Script.horspoolStringMatching fuel text pattern = Some r ∧
        Sentiment.horspoolSearch fuel text pattern = Some r) ∧
  (pattern ≠ [] → len pattern ≤ len text →
   ∃ t,
     Script.buildShiftTable fuel pattern m = Some t ∧
     (∀ c v, t !! c = Some v → ∃ k, 0 ≤ k ≤ m - 2 ∧ v = m - 1 - k ∧ 1 ≤ v) ∧
     1 ≤ m ∧
     (∀ c, 1 ≤ Script.shift_for t m c) ∧
     (∀ f i matches, (Z.to_nat m + 1 ≤ f)%nat →
        ∃ i' matches',
          Script.horspool_body text pattern m t f (i, matches)
            = Some (Continue (i', matches')) ∧
          i + 1 ≤ i' ≤ i + m)).
Proof.
  intros Hfuel. cbv zeta.
  pose proof (budget_bounds _ _ _ Hfuel) as [Hf1 _].
  split.
  { exists (expected text pattern). rewrite Sentiment_horspoolSearch_eq.
    by rewrite horspoolStringMatching_correct. }
  intros Hne Hle.
  assert (0 < len pattern) as Hm.
  { pose proof (len_nonneg pattern). rewrite <- len_nil_iff in Hne. lia. }
  destruct (buildShiftTable_spec pattern fuel Hm ltac:(lia)) as (t & Hbuild & Ht).
  exists t. split; [done|].
  split.
  { intros c v Hv. specialize (Ht c). rewrite Hv in Ht.
    destruct Ht as (k & Hk & _ & -> & _). exists k. lia. }
  split; [lia|].
  split; [intros c; by apply shift_for_bounds|].
  intros f i ms Hf. unfold Script.horspool_body.
  destruct (compare_backwards_spec text pattern f i Hm Hf) as (j & -> & _).
  simpl.
  pose proof (shift_for_bounds text pattern t (get text (i + len pattern - 1)) Hm Ht).
  case_bool_decide; (eexists _, _; split; [done|lia]).
Qed.

Lemma horspool_terminates_witness :
  let m := len s_aa in
  (∃ r, Script.horspoolStringMatching 14 s_aaa s_aa = Some r ∧
        Sentiment.horspoolSearch 14 s_aaa s_aa = Some r) ∧
  (s_aa ≠ [] → len s_aa ≤ len s_aaa →
   ∃ t,
     Script.buildShiftTable 14 s_aa m = Some t ∧
     (∀ c v, t !! c = Some v → ∃ k, 0 ≤ k ≤ m - 2 ∧ v = m - 1 - k ∧ 1 ≤ v) ∧
     1 ≤ m ∧
     (∀ c, 1 ≤ Script.shift_for t m c) ∧
     (∀ f i matches, (Z.to_nat m + 1 ≤ f)%nat →
        ∃ i' matches',
          Script.horspool_body s_aaa s_aa m t f (i, matches)
            = Some (Continue (i', matches')) ∧
          i + 1 ≤ i' ≤ i + m)).
Proof. apply (horspool_terminates s_aaa s_aa 14). vm_compute. lia. Defined.

(** * Further properties of the code *)

(** ** More rules for [loop] *)

(** Two loops that agree on the states of an invariant have the same
    result. *)
Lemma loop_agree {S} (I : S → Prop) cond cond' (body body' : nat → S → option (flow S)) :
  (∀ s, I s → cond s = cond' s) →
  (∀ f s, I s → cond s = true →
     body f s = body' f s ∧ ∀ s', body f s = Some (Continue s') → I s') →
  ∀ fuel s, I s → loop fuel cond body s = loop fuel cond' body' s.
Proof.
  intros Hc Hb fuel. induction fuel as [|fuel IH]; intros s HI; [done|].
  simpl. rewrite <- (Hc s HI). destruct (cond s) eqn:Hcs; [|done].
  destruct (Hb fuel s HI Hcs) as [<- Hnext].
  destruct (body fuel s) as [[s'|s']|]; [|done..].
  apply IH. by apply Hnext.
Qed.

(** ** Row and column *)

Section RowCol.
Context (text : str).

Lemma newlines_before_nonpos index : index ≤ 0 → newlines_before text index = 0.
Proof. intros. unfold newlines_before. by rewrite seqZ_nil by lia. Qed.

Lemma newlines_before_succ i :
  0 ≤ i →
  newlines_before text (i + 1) =
  newlines_before text i + (if decide (get text i = Some 10%N) then 1 else 0).
Proof.
  intros Hi. unfold newlines_before. rewrite seqZ_snoc by done.
  rewrite filter_app, filter_cons, filter_nil.
  unfold len. rewrite length_app. case_decide; simpl; lia.
Qed.

Lemma newlines_before_mono i j :
  0 ≤ i ≤ j → newlines_before text i ≤ newlines_before text j.
Proof.
  intros [Hi Hij]. replace j with (i + Z.of_nat (Z.to_nat (j - i))) by lia.
  induction (Z.to_nat (j - i)) as [|d IH]; [by rewrite Z.add_0_r|].
  replace (i + Z.of_nat (Datatypes.S d)) with (i + Z.of_nat d + 1) by lia.
  rewrite newlines_before_succ by lia. case_decide; lia.
Qed.

(** A line feed between two offsets separates their rows. *)
Lemma newlines_before_lt i j k :
  0 ≤ i ≤ k → k < j → get text k = Some 10%N →
  newlines_before text i < newlines_before text j.
Proof.
  intros Hik Hkj Hk.
  pose proof (newlines_before_mono i k ltac:(lia)).
  pose proof (newlines_before_mono (k + 1) j ltac:(lia)).
  rewrite newlines_before_succ in * by lia.
  rewrite decide_True in * by done. lia.
Qed.

Lemma newlines_before_same i j :
  0 ≤ i ≤ j → (∀ k, i ≤ k < j → get text k ≠ Some 10%N) →
  newlines_before text j = newlines_before text i.
Proof.
  intros [Hi Hij] Hno.
  assert (∀ d : nat, i + Z.of_nat d ≤ j →
            newlines_before text (i + Z.of_nat d) = newlines_before text i) as Hd.
  { induction d as [|d IH]; intros Hle; [by rewrite Z.add_0_r|].
    replace (i + Z.of_nat (Datatypes.S d)) with (i + Z.of_nat d + 1) by lia.
    rewrite newlines_before_succ by lia.
    rewrite decide_False by (apply Hno; lia). rewrite IH by lia. lia. }
  specialize (Hd (Z.to_nat (j - i))).
  replace (i + Z.of_nat (Z.to_nat (j - i))) with j in Hd by lia.
  apply Hd. lia.
Qed.

Lemma line_start_unique index s s' :
  line_start text index s → line_start text index s' → s = s'.
Proof.
  intros (Hs & Hnl & Hno) (Hs' & Hnl' & Hno').
  destruct (decide (s < s')) as [Hlt|].
  { destruct Hnl' as [->|Hnl']; [lia|]. by destruct (Hno (s' - 1) ltac:(lia)). }
  destruct (decide (s' < s)) as [Hlt|]; [|lia].
  destruct Hnl as [->|Hnl]; [lia|]. by destruct (Hno' (s - 1) ltac:(lia)).
Qed.

Lemma computeRowCol_spec index fuel :
  (Z.to_nat index + 1 ≤ fuel)%nat →
  ∃ row col,
    Script.computeRowCol fuel text index = Some (Script.RowCol row col) ∧
    row = 1 + newlines_before text index ∧
    (index ≤ 0 → col = 1) ∧
    (0 ≤ index → ∃ s, line_start text index s ∧ col = index - s + 1).
Proof.
  intros Hfuel. unfold Script.computeRowCol.
  loop_with
    (λ '(i, row, col),
       0 ≤ i ∧ (i ≤ index ∨ i = 0) ∧ row = 1 + newlines_before text i ∧
       ∃ s, line_start text i s ∧ col = i - s + 1)
    (λ '((_, row, col) : Z * Z * Z),
       row = 1 + newlines_before text index ∧
       (index ≤ 0 → col = 1) ∧
       (0 ≤ index → ∃ s, line_start text index s ∧ col = index - s + 1))
    (λ '((i, _, _) : Z * Z * Z), index - i) 0%nat;
    [| | |simpl; lia|destruct Hloop as ([[i row] col] & -> & HQ); by eauto].
  - intros [[i row] col] (Hi & Hle & -> & s & Hs & ->) Hc.
    apply bool_decide_eq_false in Hc.
    destruct Hle as [Hle| ->].
    + replace index with i by lia. split; [done|]. split; [|by eauto].
      intros Hi0. assert (i = 0) as -> by lia. destruct Hs as (Hs & _). lia.
    + rewrite !newlines_before_nonpos by lia. split; [done|].
      destruct Hs as (Hs0 & _). assert (s = 0) as -> by lia.
      split; [done|]. intros Hidx. assert (index = 0) as -> by lia.
      exists 0. split; [|done]. split; [lia|]. split; [by left|]. intros; lia.
  - intros [[i row] col] f (Hi & Hle & -> & s & (Hs & Hnl & Hno) & ->) Hc _.
    apply bool_decide_eq_true in Hc. left.
    destruct (strict_eq _ _) eqn:Heq.
    + apply strict_eq_true in Heq.
      eexists. split; [done|]. split; [|lia]. split; [lia|]. split; [lia|].
      rewrite newlines_before_succ, decide_True by done.
      split; [lia|]. exists (i + 1). split; [|lia].
      split; [lia|]. split; [|intros; lia].
      right. by replace (i + 1 - 1) with i by lia.
    + apply strict_eq_false in Heq.
      eexists. split; [done|]. split; [|lia]. split; [lia|]. split; [lia|].
      rewrite newlines_before_succ, decide_False by done.
      split; [lia|]. exists s. split; [|lia].
      split; [lia|]. split; [done|]. intros k Hk.
      destruct (decide (k = i)) as [->|]; [done|]. apply Hno. lia.
  - split; [done|]. split; [by right|].
    rewrite newlines_before_nonpos by done. split; [done|].
    exists 0. split; [|done]. split; [lia|]. split; [by left|]. intros; lia.
Qed.
End RowCol.

(** X1.  [computeRowCol(text, index)] returns the row [1 + ] the number of
    line feeds before [index], and the column [index - s + 1] where [s] is
    the start of the line of [index]; an index that is not positive gives
    row 1 and column 1.  The index may lie past the end of the text. *)
Theorem computeRowCol_row_and_column text index fuel :
  (Z.to_nat index + 1 ≤ fuel)%nat →
  ∃ row col,
    Script.computeRowCol fuel text index = Some (Script.RowCol row col) ∧
    row = 1 + newlines_before text index ∧
    1 ≤ row ∧ 1 ≤ col ∧
    (index ≤ 0 → row = 1 ∧ col = 1) ∧
    (0 ≤ index → ∃ s, line_start text index s ∧ col = index - s + 1).
Proof.
  intros Hfuel.
  destruct (computeRowCol_spec text index fuel Hfuel) as (row & col & Hrc & Hrow & Hneg & Hpos).
  exists row, col. split; [done|]. split; [done|].
  assert (0 ≤ newlines_before text index) by apply len_nonneg.
  split; [lia|]. split.
  { destruct (decide (0 ≤ index)) as [Hi|Hi]; [|rewrite Hneg; lia].
    destruct (Hpos Hi) as (s & (Hs & _) & ->). lia. }
  split; [|done]. intros Hi. split; [|by apply Hneg].
  rewrite Hrow, newlines_before_nonpos; [done|lia].
Qed.

Lemma computeRowCol_row_and_column_witness :
  ∃ row col,
    Script.computeRowCol 4 s_aab 2 = Some (Script.RowCol row col) ∧
    row = 1 + newlines_before s_aab 2 ∧
    1 ≤ row ∧ 1 ≤ col ∧
    (2 ≤ 0 → row = 1 ∧ col = 1) ∧
    (0 ≤ 2 → ∃ s, line_start s_aab 2 s ∧ col = 2 - s + 1).
Proof. apply (computeRowCol_row_and_column s_aab 2 4). vm_compute. lia. Defined.

(** X2.  A later offset gets a later position: for [0 <= i < j] the row
    and column of [j] follow those of [i] in the lexicographic order, so
    two different offsets never share a row and column. *)
Theorem computeRowCol_increasing text i j fuel :
  0 ≤ i < j →
  (Z.to_nat j + 1 ≤ fuel)%nat →
  ∃ a b,
    Script.computeRowCol fuel text i = Some a ∧
    Script.computeRowCol fuel text j = Some b ∧
    (Script.rc_row a < Script.rc_row b ∨
     (Script.rc_row a = Script.rc_row b ∧ Script.rc_col a < Script.rc_col b)).
Proof.
  intros Hij Hfuel.
  destruct (computeRowCol_spec text i fuel ltac:(lia))
    as (ra & ca & -> & -> & _ & Hca).
  destruct (computeRowCol_spec text j fuel Hfuel)
    as (rb & cb & -> & -> & _ & Hcb).
  exists (Script.RowCol (1 + newlines_before text i) ca),
         (Script.RowCol (1 + newlines_before text j) cb).
  split; [done|]. split; [done|]. simpl.
  destruct (Hca ltac:(lia)) as (sa & Hsa & ->).
  destruct (Hcb ltac:(lia)) as (sb & Hsb & ->).
  destruct (decide (Exists (λ k, get text k = Some 10%N) (seqZ i (j - i))))
    as [(k & Hk & Hnl)%Exists_exists|Hno].
  - left. apply elem_of_seqZ in Hk.
    pose proof (newlines_before_lt text i j k ltac:(lia) ltac:(lia) Hnl). lia.
  - right.
    assert (∀ k, i ≤ k < j → get text k ≠ Some 10%N) as Hno'.
    { intros k Hk Hnl. apply Hno, Exists_exists. exists k. split; [|done].
      apply elem_of_seqZ. lia. }
    split; [by rewrite (newlines_before_same text i j) by (done || lia)|].
    assert (line_start text j sa) as Hsa'.
    { destruct Hsa as (Hs & Hnl & Hnone). split; [lia|]. split; [done|].
      intros k Hk. destruct (decide (k < i)); [apply Hnone|apply Hno']; lia. }
    rewrite (line_start_unique text j sb sa Hsb Hsa'). lia.
Qed.

Lemma computeRowCol_increasing_witness :
  ∃ a b,
    Script.computeRowCol 4 s_aab 1 = Some a ∧
    Script.computeRowCol 4 s_aab 2 = Some b ∧
    (Script.rc_row a < Script.rc_row b ∨
     (Script.rc_row a = Script.rc_row b ∧ Script.rc_col a < Script.rc_col b)).
Proof. apply (computeRowCol_increasing s_aab 1 2 4); [lia|vm_compute; lia]. Defined.

(** [getRowCol] runs like [computeRowCol] on the same list while its
    counters stay within [int]. *)
Lemma getRowCol_agree text index fuel :
  index ≤ len text + 1 → index < 2 ^ 31 - 1 →
  CppServer.getRowCol fuel text index = Script.computeRowCol fuel text index.
Proof.
  intros Hidx Hint.
  unfold CppServer.getRowCol, Script.computeRowCol. f_equal.
  apply (loop_agree (λ '(i, r, c), 0 ≤ i ∧ r ≤ i + 1 ∧ c ≤ i + 1));
    [done| |lia].
  intros f [[i r] c] (Hi & Hr & Hcol) Hc. apply bool_decide_eq_true in Hc.
  assert (∀ x, x ≤ i + 1 → Cpp.int_succ x = Some (x + 1)) as Hsucc.
  { intros x Hx. unfold Cpp.int_succ. by rewrite bool_decide_true by lia. }
  assert (∃ c0, CppServer.char_at text i = Some c0 ∧
                bool_decide (c0 = 10%N) = strict_eq (get text i) (Some 10%N))
    as (c0 & -> & Hnl).
  { unfold CppServer.char_at. case_bool_decide as Hend.
    - exists 0%N. split; [done|].
      assert (get text i = None) as -> by (apply get_None; lia). done.
    - destruct (get_lt_Some text i ltac:(lia)) as [x ->]. exists x.
      split; [done|]. unfold strict_eq. apply bool_decide_ext.
      split; congruence. }
  simpl. rewrite Hnl.
  destruct (strict_eq _ _).
  - rewrite (Hsucc r), (Hsucc i) by lia. simpl. split; [done|].
    intros [[i' r'] c']. intros [= <- <- <-]. lia.
  - rewrite (Hsucc c), (Hsucc i) by lia. simpl. split; [done|].
    intros [[i' r'] c']. intros [= <- <- <-]. lia.
Qed.

(** X3.  [getRowCol] of the C++ server (cpp/Mathcing_Algorithms.cpp, lines
    169-181), for an index up to the end of the text (and one past it,
    where C++ reads the terminator) whose row and column fit in an [int],
    returns the row [1 + ] the number of line-feed bytes before the index
    and the column [index - s + 1], with [s] the start of the line of the
    index.  For a text of ASCII characters, whose bytes are the UTF-16
    code units of the same string of JavaScript, this is the row and
    column of [computeRowCol] (js/script.js, lines 549-561). *)
Theorem getRowCol_computeRowCol text index fuel :
  index ≤ len text + 1 →
  index < 2 ^ 31 - 1 →
  (Z.to_nat index + 1 ≤ fuel)%nat →
  ∃ row col,
    CppServer.getRowCol fuel text index = Some (Script.RowCol row col) ∧
    row = 1 + newlines_before text index ∧
    1 ≤ row ∧ 1 ≤ col ∧
    (0 ≤ index → ∃ s, line_start text index s ∧ col = index - s + 1) ∧
    (Forall (λ c, (c < 128)%N) text →
     Script.computeRowCol fuel text index = Some (Script.RowCol row col)).
Proof.
  intros Hidx Hint Hfuel. rewrite getRowCol_agree by done.
  destruct (computeRowCol_spec text index fuel Hfuel)
    as (row & col & Hrc & Hrow & Hneg & Hpos).
  exists row, col. split; [done|]. split; [done|].
  assert (0 ≤ newlines_before text index) by apply len_nonneg.
  split; [lia|]. split.
  { destruct (decide (0 ≤ index)) as [Hi|Hi]; [|rewrite Hneg; lia].
    destruct (Hpos Hi) as (s & (Hs & _) & ->). lia. }
  split; [done|]. by intros _.
Qed.

Lemma getRowCol_computeRowCol_witness :
  ∃ row col,
    CppServer.getRowCol 5 [97; 10; 98]%N 3 = Some (Script.RowCol row col) ∧
    row = 1 + newlines_before [97; 10; 98]%N 3 ∧
    1 ≤ row ∧ 1 ≤ col ∧
    (0 ≤ 3 → ∃ s, line_start [97; 10; 98]%N 3 s ∧ col = 3 - s + 1) ∧
    (Forall (λ c, (c < 128)%N) [97; 10; 98]%N →
     Script.computeRowCol 5 [97; 10; 98]%N 3 = Some (Script.RowCol row col)).
Proof.
  apply (getRowCol_computeRowCol [97; 10; 98]%N 3 5);
    [vm_compute; done|vm_compute; done|vm_compute; lia].
Defined.

(** ** The dispatchers *)

Lemma expected_bounds text pattern i :
  i ∈ expected text pattern → 0 ≤ i ≤ len text.
Proof.
  unfold expected. case_decide; [by intros ?%not_elem_of_nil|].
  rewrite elem_of_occurrences. intros (Hi & Hle & _).
  pose proof (len_nonneg pattern). lia.
Qed.

(** The switch of [performStringMatching] and of [findMatches] of
    js/sentiment.js: whatever the tag, the selected matcher returns
    [expected]. *)
Lemma Script_switch text pattern algorithm fuel :
  (budget text pattern ≤ fuel)%nat →
  (if bool_decide (algorithm = tag_naive) then
     Script.naiveStringMatching fuel text pattern
   else if bool_decide (algorithm = tag_kmp) then
     Script.kmpStringMatching fuel text pattern
   else if bool_decide (algorithm = tag_hashing) then
     Script.rabinKarpStringMatching fuel text pattern
   else if bool_decide (algorithm = tag_horspool) then
     Script.horspoolStringMatching fuel text pattern
   else Script.naiveStringMatching fuel text pattern)
  = Some (expected text pattern).
Proof.
  intros Hfuel.
  destruct (matchers_expected text pattern fuel Hfuel) as (-> & -> & -> & -> & _).
  by repeat case_bool_decide.
Qed.

Lemma mapM_rowcol text fuel (l : list Z) :
  Forall (λ pos, (Z.to_nat pos + 1 ≤ fuel)%nat) l →
  ∃ ms,
    mapM (λ pos, rc ← Script.computeRowCol fuel text pos;
                 Some (Script.MatchPos pos (Script.rc_row rc) (Script.rc_col rc))) l
      = Some ms ∧
    Script.mp_pos <$> ms = l ∧
    Forall (λ mp, Script.computeRowCol fuel text (Script.mp_pos mp) =
                  Some (Script.RowCol (Script.mp_row mp) (Script.mp_col mp)) ∧
                  1 ≤ Script.mp_row mp ∧ 1 ≤ Script.mp_col mp) ms.
Proof.
  induction 1 as [|pos l Hpos _ (ms & IH & Hl & Hrc)].
  - exists []. by repeat split.
  - destruct (computeRowCol_row_and_column text pos fuel Hpos)
      as (row & col & Hc & _ & Hrow & Hcol & _).
    exists (Script.MatchPos pos row col :: ms).
    split; [|split].
    + simpl. rewrite Hc. simpl. by rewrite IH.
    + rewrite fmap_cons. simpl. by rewrite Hl.
    + constructor; [|done]. by simpl.
Qed.

(** X4.  [performStringMatching] returns the same result whatever the
    tag, a tag that is not known selecting the naive matcher: the
    positions of the matches are the offsets of the occurrences in
    increasing order, [count] is their number, every match carries the row
    and the column of its position (both at least 1), and the tag and the
    pattern are handed back. *)
Theorem performStringMatching_result elapsed text pattern algorithm fuel :
  (budget text pattern ≤ fuel)%nat →
  ∃ res,
    Script.performStringMatching elapsed fuel text pattern algorithm = Some res ∧
    Script.mp_pos <$> Script.sr_matches res = expected text pattern ∧
    Script.sr_count res = len (expected text pattern) ∧
    Forall (λ mp, Script.computeRowCol fuel text (Script.mp_pos mp) =
                  Some (Script.RowCol (Script.mp_row mp) (Script.mp_col mp)) ∧
                  1 ≤ Script.mp_row mp ∧ 1 ≤ Script.mp_col mp)
           (Script.sr_matches res) ∧
    Script.sr_algorithm res = algorithm ∧
    Script.sr_pattern res = pattern ∧
    Script.sr_processingTime res = elapsed ++ [109; 115]%N.
Proof.
  intros Hfuel. unfold Script.performStringMatching.
  rewrite Script_switch by done. simpl.
  destruct (mapM_rowcol text fuel (expected text pattern)) as (ms & -> & Hpos & Hrc).
  { apply Forall_forall. intros i Hi%expected_bounds.
    apply budget_bounds in Hfuel as [Hf _]. lia. }
  simpl. eexists. split; [done|]. simpl. split; [done|].
  split; [|done]. rewrite <- Hpos. unfold len. by rewrite length_fmap.
Qed.

Lemma performStringMatching_result_witness :
  ∃ res,
    Script.performStringMatching [] 14 s_aaa s_aa tag_kmp = Some res ∧
    Script.mp_pos <$> Script.sr_matches res = expected s_aaa s_aa ∧
    Script.sr_count res = len (expected s_aaa s_aa) ∧
    Forall (λ mp, Script.computeRowCol 14 s_aaa (Script.mp_pos mp) =
                  Some (Script.RowCol (Script.mp_row mp) (Script.mp_col mp)) ∧
                  1 ≤ Script.mp_row mp ∧ 1 ≤ Script.mp_col mp)
           (Script.sr_matches res) ∧
    Script.sr_algorithm res = tag_kmp ∧
    Script.sr_pattern res = s_aa ∧
    Script.sr_processingTime res = [] ++ [109; 115]%N.
Proof.
  apply (performStringMatching_result [] s_aaa s_aa tag_kmp 14). vm_compute. lia.
Defined.

Lemma boundary_test_Some c :
  Sentiment.boundary_test c = true ↔
  ∃ u, c = Some u ∧ u ∈ Sentiment.boundary_units.
Proof.
  destruct c as [u|]; simpl.
  - rewrite bool_decide_eq_true. split; [by eauto|].
    by intros (u' & [= <-] & Hu).
  - split; [done|]. by intros (u & [=] & _).
Qed.

Lemma StronglySorted_filter_Z (P : Z → Prop) `{!∀ x, Decision (P x)} (l : list Z) :
  StronglySorted Z.lt l → StronglySorted Z.lt (filter P l).
Proof.
  induction 1 as [|x l Hl IH Hx]; [constructor|].
  rewrite filter_cons. case_decide; [|done].
  constructor; [done|]. apply Forall_forall.
  intros y [_ Hy]%list_elem_of_filter. by eapply Forall_forall in Hx.
Qed.

(** X5.  [findMatches] of js/sentiment.js returns, whatever the tag, the
    occurrences of the pattern that stand as whole words, in increasing
    order: an offset is reported exactly when the pattern occurs there,
    the unit before it (if any) is white space or one of the punctuation
    marks of the class, and so is the unit after the occurrence (if
    any). *)
Theorem Sentiment_findMatches_whole_words text pattern algorithm fuel :
  (budget text pattern ≤ fuel)%nat →
  ∃ r,
    Sentiment.findMatches fuel text pattern algorithm = Some r ∧
    StronglySorted Z.lt r ∧
    ∀ pos,
      pos ∈ r ↔
      pattern ≠ [] ∧ occurs_at text pattern pos ∧
      (pos = 0 ∨ ∃ u, get text (pos - 1) = Some u ∧ u ∈ Sentiment.boundary_units) ∧
      (pos + len pattern = len text ∨
       ∃ u, get text (pos + len pattern) = Some u ∧ u ∈ Sentiment.boundary_units).
Proof.
  intros Hfuel. unfold Sentiment.findMatches.
  rewrite Sentiment_naiveSearch_eq, Sentiment_hashingSearch_eq,
    Sentiment_horspoolSearch_eq, Sentiment_kmpSearch_eq.
  destruct (matchers_expected text pattern fuel Hfuel) as (-> & -> & -> & -> & _).
  assert ((if bool_decide (algorithm = tag_naive) then Some (expected text pattern)
           else if bool_decide (algorithm = tag_horspool) then Some (expected text pattern)
           else if bool_decide (algorithm = tag_kmp) then Some (expected text pattern)
           else if bool_decide (algorithm = tag_hashing) then Some (expected text pattern)
           else Some (expected text pattern)) = Some (expected text pattern)) as ->
    by (by repeat case_bool_decide).
  simpl. eexists. split; [done|]. split.
  { apply StronglySorted_filter_Z, expected_sorted. }
  intros pos. rewrite list_elem_of_filter.
  unfold Sentiment.isWordBoundary.
  rewrite andb_True, !Is_true_true, !boundary_test_Some.
  destruct (decide (pattern = [])) as [->|Hne].
  { rewrite expected_nil_pattern.
    split; [by intros [_ ?%not_elem_of_nil]|by intros [? _]]. }
  rewrite elem_of_expected by done. split.
  - intros ((Hb & Ha) & Hocc). split; [done|]. split; [done|].
    pose proof Hocc as (Hp0 & Hle & _). split.
    + destruct (decide (pos = 0)) as [|Hp]; [by left|right].
      rewrite bool_decide_true in Hb by lia.
      destruct Hb as (u & Hu & Hin). eauto.
    + destruct (decide (pos + len pattern = len text)) as [|Hp]; [by left|right].
      rewrite bool_decide_true in Ha by lia.
      destruct Ha as (u & Hu & Hin). eauto.
  - intros (_ & Hocc & Hb & Ha). split; [|done].
    pose proof Hocc as (Hp0 & Hle & _).
    assert (32%N ∈ Sentiment.boundary_units) as Hsp
      by (apply (bool_decide_unpack _); by vm_compute).
    split.
    + case_bool_decide; [|by eauto].
      destruct Hb as [->|(u & Hu & Hin)]; [lia|by eauto].
    + case_bool_decide; [|by eauto].
      destruct Ha as [Heq|(u & Hu & Hin)]; [lia|by eauto].
Qed.

Lemma Sentiment_findMatches_whole_words_witness :
  ∃ r,
    Sentiment.findMatches 14 s_aaa s_aa tag_kmp = Some r ∧
    StronglySorted Z.lt r ∧
    ∀ pos,
      pos ∈ r ↔
      s_aa ≠ [] ∧ occurs_at s_aaa s_aa pos ∧
      (pos = 0 ∨ ∃ u, get s_aaa (pos - 1) = Some u ∧ u ∈ Sentiment.boundary_units) ∧
      (pos + len s_aa = len s_aaa ∨
       ∃ u, get s_aaa (pos + len s_aa) = Some u ∧ u ∈ Sentiment.boundary_units).
Proof.
  apply (Sentiment_findMatches_whole_words s_aaa s_aa tag_kmp 14). vm_compute. lia.
Defined.

(** ** The matchers of the keyword page *)

Lemma len_snoc {A} (l : list A) x : len (l ++ [x]) = len l + 1.
Proof. unfold len. rewrite length_app. simpl. lia. Qed.

Lemma get_snoc_lt {A} (l : list A) x i : i < len l → get (l ++ [x]) i = get l i.
Proof.
  intros Hi. unfold get, len in *. case_decide; [|done].
  apply lookup_app_l. lia.
Qed.

Lemma get_snoc_eq {A} (l : list A) x : get (l ++ [x]) (len l) = Some x.
Proof.
  rewrite get_lookup by apply len_nonneg. unfold len. rewrite Nat2Z.id.
  by rewrite lookup_app_r, Nat.sub_diag.
Qed.

Lemma strict_eq_sym a b : strict_eq a b = strict_eq b a.
Proof. unfold strict_eq. apply bool_decide_ext. split; congruence. Qed.

Lemma occurrences_nil_pattern text : occurrences text [] = seqZ 0 (len text + 1).
Proof.
  unfold occurrences. change (len (@nil N)) with 0. rewrite Z.sub_0_r.
  pose proof (len_nonneg text) as Hn.
  assert (∀ d : nat, Z.of_nat d ≤ len text + 1 →
            occurrences_below text [] (Z.of_nat d) = seqZ 0 (Z.of_nat d)) as H.
  { induction d as [|d IH]; intros Hd; [done|].
    replace (Z.of_nat (Datatypes.S d)) with (Z.of_nat d + 1) by lia.
    rewrite occurrences_below_hit; [by rewrite seqZ_snoc, IH by lia|lia|].
    apply occurs_at_get. change (len (@nil N)) with 0.
    split; [lia|]. split; [lia|]. intros j Hj. lia. }
  specialize (H (Z.to_nat (len text + 1))).
  rewrite Z2Nat.id in H by lia. apply H. lia.
Qed.

Section KeywordsScan.
Context (text pattern : str).
Let n := len text.
Let m := len pattern.

(** The comparison loop of [naiveSearch]: [j] reaches [m] exactly when
    the window agrees with the pattern. *)
Lemma Keywords_naive_window fuel i :
  (Z.to_nat m + 1 ≤ fuel)%nat →
  ∃ j, loop fuel (λ j, bool_decide (j < m))
         (λ _ j, if strict_ne (get text (i + j)) (get pattern j)
                 then Some (Break j) else Some (Continue (j + 1))) 0 = Some j ∧
       (j = m ↔ ∀ j', 0 ≤ j' < m → get text (i + j') = get pattern j').
Proof.
  intros Hfuel. pose proof (len_nonneg pattern) as Hm. fold m in Hm.
  loop_with
    (λ j, 0 ≤ j ≤ m ∧ ∀ j', 0 ≤ j' < j → get text (i + j') = get pattern j')
    (λ j, j = m ↔ ∀ j', 0 ≤ j' < m → get text (i + j') = get pattern j')
    (λ j : Z, m - j) 0%nat;
    [| |split; [lia|intros; lia]|simpl; lia|done].
  - intros j (Hj & Hall) Hc. apply bool_decide_eq_false in Hc.
    split; [|lia]. intros _ j' Hj'. apply Hall. lia.
  - intros j f (Hj & Hall) Hc _. apply bool_decide_eq_true in Hc.
    destruct (strict_ne _ _) eqn:Hne.
    + right. eexists. split; [done|]. apply strict_ne_true in Hne.
      split; [lia|]. intros H. destruct Hne. apply H. lia.
    + left. eexists. split; [done|]. apply strict_ne_false in Hne.
      split; [|lia]. split; [lia|].
      intros j' Hj'. destruct (decide (j' = j)) as [->|]; [done|].
      apply Hall. lia.
Qed.

Lemma Keywords_naiveSearch_occurrences fuel :
  (Z.to_nat (n + m) + 3 ≤ fuel)%nat →
  Keywords.naiveSearch fuel text pattern = Some (occurrences text pattern).
Proof.
  intros Hfuel. unfold Keywords.naiveSearch. fold n m.
  pose proof (len_nonneg pattern) as Hm. fold m in Hm.
  pose proof (len_nonneg text) as Hn. fold n in Hn.
  loop_with
    (λ '(i, matches), 0 ≤ i ∧ matches = occurrences_below text pattern i)
    (λ '((_, matches) : Z * list Z), matches = occurrences text pattern)
    (λ '((i, _) : Z * list Z), Z.max 0 (n - m + 1 - i)) (Z.to_nat m + 1)%nat;
    [| |split; [lia|done]|simpl; lia
     |by destruct Hloop as ([i ms] & -> & ->)].
  - intros [i ms] (Hi & ->) Hc. apply bool_decide_eq_false in Hc.
    apply occurrences_below_all; fold n m; lia.
  - intros [i ms] f (Hi & ->) Hc Hf. apply bool_decide_eq_true in Hc.
    left. destruct (Keywords_naive_window f i Hf) as (j & -> & Hj).
    simpl. eexists. split; [done|]. split; [|lia]. split; [lia|].
    case_bool_decide as Hjm.
    + rewrite occurrences_below_hit; [done|lia|].
      apply occurs_at_get. fold n m. split; [lia|]. split; [lia|]. by apply Hj.
    + rewrite occurrences_below_miss; [done|lia|].
      intros Hocc. apply Hjm, Hj.
      apply occurs_at_get in Hocc as (_ & _ & Hocc). apply Hocc.
Qed.

(** The right-to-left comparison of [horspoolSearch] has the operands of
    [===] the other way round. *)
Lemma Keywords_compare_backwards fuel i :
  loop fuel
    (λ j, bool_decide (j >= 0) && strict_eq (get pattern j) (get text (i + j)))
    (λ _ j, Some (Continue (j - 1))) (m - 1) =
  Script.compare_backwards fuel text pattern m i.
Proof.
  unfold Script.compare_backwards.
  apply (loop_agree (λ _, True)); [|done|done].
  intros j _. by rewrite strict_eq_sym.
Qed.

(** [badChar[c] || m] is the shift of the search page: no entry of the
    table is 0. *)
Lemma Keywords_shift t c :
  0 < m → shift_table_upto pattern (m - 1) t →
  match c ≫= (t !!.) with
  | Some v => if bool_decide (v = 0) then m else v
  | None => m
  end = Script.shift_for t m c.
Proof.
  intros Hm Ht. unfold Script.shift_for.
  destruct c as [c|]; simpl; [|done].
  specialize (Ht c). destruct (t !! c) as [v|]; [|done].
  destruct Ht as (k & Hk & _ & -> & _). fold m.
  rewrite bool_decide_false; [done|lia].
Qed.

Lemma Keywords_horspoolSearch_occurrences fuel :
  (Z.to_nat (n + m) + 3 ≤ fuel)%nat →
  Keywords.horspoolSearch fuel text pattern = Some (occurrences text pattern).
Proof.
  intros Hfuel. unfold Keywords.horspoolSearch. fold n m.
  pose proof (len_nonneg pattern) as Hm. fold m in Hm.
  pose proof (len_nonneg text) as Hn. fold n in Hn.
  assert (∃ t, Script.buildShiftTable fuel pattern m = Some t ∧
               (0 < m → shift_table_upto pattern (m - 1) t)) as (t & -> & Ht).
  { destruct (decide (0 < m)) as [Hpos|Hz].
    - destruct (buildShiftTable_spec pattern fuel) as (t & Hbuild & Ht);
        [done|fold m; lia|]. eauto.
    - unfold Script.buildShiftTable. destruct fuel as [|fuel]; [lia|]. simpl.
      rewrite bool_decide_false by lia. simpl. eexists. split; [done|lia]. }
  simpl.
  loop_with
    (λ '(i, matches), 0 ≤ i ∧ matches = occurrences_below text pattern i)
    (λ '((_, matches) : Z * list Z), matches = occurrences text pattern)
    (λ '((i, _) : Z * list Z), Z.max 0 (n - m + 1 - i)) (Z.to_nat m + 1)%nat;
    [| |split; [lia|done]|simpl; lia
     |by destruct Hloop as ([i ms] & -> & ->)].
  - intros [i ms] (Hi & ->) Hc. apply bool_decide_eq_false in Hc.
    apply occurrences_below_all; fold n m; lia.
  - intros [i ms] f (Hi & ->) Hc Hf. apply bool_decide_eq_true in Hc.
    left. rewrite Keywords_compare_backwards.
    destruct (decide (0 < m)) as [Hpos|Hz].
    + destruct (compare_backwards_spec text pattern f i)
        as (j & Hcb & Hj & Hall & Hmis); [done|fold m; lia|].
      fold m in Hcb, Hj, Hall. rewrite Hcb. simpl.
      case_bool_decide as Hneg.
      * eexists. split; [done|]. split; [|lia]. split; [lia|].
        rewrite occurrences_below_hit; [done|lia|].
        apply occurs_at_get. fold n m. split; [lia|]. split; [lia|].
        intros j' Hj'. apply Hall. lia.
      * rewrite (Keywords_shift t _ Hpos (Ht Hpos)).
        eexists. split; [done|].
        pose proof (shift_for_bounds text pattern t (get text (i + m - 1))
                      ltac:(done) (Ht Hpos)) as Hb. fold m in Hb.
        split; [|lia]. split; [lia|].
        symmetry. apply occurrences_below_skip; [lia|].
        intros s Hs. destruct (decide (s = i)) as [->|Hsi].
        -- intros Hocc. apply occurs_at_get in Hocc as (_ & _ & Hocc).
           apply Hmis; [lia|]. apply Hocc. fold m. lia.
        -- apply (shift_for_safe text pattern t i); [done|fold n m; lia|by apply Ht|].
           fold m. lia.
    + assert (m = 0) as Hm0 by lia.
      unfold Script.compare_backwards. rewrite Hm0.
      destruct f as [|f]; [lia|]. simpl.
      eexists. split; [done|]. split; [|lia]. split; [lia|].
      rewrite occurrences_below_hit; [done|lia|].
      apply occurs_at_get. fold n m. split; [lia|]. split; [lia|].
      intros j' Hj'. lia.
Qed.
End KeywordsScan.

Section KeywordsFailure.
Context (pattern : str).
Let m := len pattern.

(** Falling back in the construction of the failure array: [j] stays the
    length of a border of [pattern[0 .. i)], and no longer border can be
    extended by [pattern[i]]. *)
Lemma Keywords_failure_fall_back fuel failure i j :
  0 < i < m → failure_upto pattern failure i →
  border_at pattern i j →
  (∀ k, border_at pattern i k → j < k → get pattern k ≠ get pattern i) →
  (Z.to_nat j + 1 ≤ fuel)%nat →
  ∃ j', Keywords.kmp_fall_back fuel pattern pattern failure i j = Some j' ∧
        border_at pattern i j' ∧
        (∀ k, border_at pattern i k → j' < k → get pattern k ≠ get pattern i) ∧
        (j' = 0 ∨ get pattern i = get pattern j').
Proof.
  intros Hi [Hlen Hfail] Hb Hno Hfuel. unfold Keywords.kmp_fall_back.
  loop_with
    (λ j, border_at pattern i j ∧
          ∀ k, border_at pattern i k → j < k → get pattern k ≠ get pattern i)
    (λ j, border_at pattern i j ∧
          (∀ k, border_at pattern i k → j < k → get pattern k ≠ get pattern i) ∧
          (j = 0 ∨ get pattern i = get pattern j))
    (λ j : Z, j) 0%nat;
    [| |done|simpl; lia|done].
  - intros j' (Hb' & Hno') Hc. split; [done|]. split; [done|].
    apply andb_false_iff in Hc as [Hc|Hc].
    + apply bool_decide_eq_false in Hc. destruct Hb' as (Hj' & _). left. lia.
    + apply strict_ne_false in Hc. by right.
  - intros j' f (Hb' & Hno') Hc _. apply andb_true_iff in Hc as [Hc1 Hc2].
    apply bool_decide_eq_true in Hc1. apply strict_ne_true in Hc2.
    left. pose proof Hb' as (Hj' & _).
    destruct (Hfail (j' - 1) ltac:(lia)) as (k & -> & [Hbk Hmax]).
    replace (j' - 1 + 1) with j' in Hbk, Hmax by lia.
    simpl. eexists. split; [done|].
    pose proof Hbk as (Hk & _).
    split; [|lia]. split; [by eapply border_at_trans|].
    intros k' Hbk' Hlt.
    destruct (Z.lt_trichotomy k' j') as [Hlt'|[->|Hgt]].
    + pose proof (border_at_nested pattern i j' k' Hb' Hbk' Hlt') as Hn.
      apply Hmax in Hn. lia.
    + done.
    + by apply Hno'.
Qed.

Lemma failure_upto_snoc failure i k :
  failure_upto pattern failure i → lps_at pattern i k →
  failure_upto pattern (failure ++ [k]) (i + 1).
Proof.
  intros [Hlen Hfail] Hk. split; [by rewrite len_snoc, Hlen|].
  intros t Ht. destruct (decide (t = i)) as [->|].
  - exists k. split; [|done]. rewrite <- Hlen. apply get_snoc_eq.
  - rewrite get_snoc_lt by lia. apply Hfail. lia.
Qed.

(** The failure array of [kmpSearch] is the table of longest borders. *)
Lemma Keywords_buildFailure_spec fuel :
  0 < m → (Z.to_nat (2 * m) + 1 ≤ fuel)%nat →
  ∃ failure, Keywords.buildFailure fuel pattern = Some failure ∧
             lps_upto pattern failure m.
Proof.
  intros Hm Hfuel. unfold Keywords.buildFailure. fold m.
  loop_with
    (λ '(i, j, failure), 1 ≤ i ≤ m ∧ failure_upto pattern failure i ∧
                         lps_at pattern (i - 1) j)
    (λ '((_, _, failure) : Z * Z * list Z), lps_upto pattern failure m)
    (λ '((i, _, _) : Z * Z * list Z), m - i) (Z.to_nat m + 1)%nat;
    [| | |simpl; lia
     |destruct Hloop as ([[i j] failure] & -> & HQ); by eauto].
  - intros [[i j] failure] (Hi & [Hlen Hfail] & _) Hc.
    apply bool_decide_eq_false in Hc.
    assert (i = m) as -> by lia. by split.
  - intros [[i j] failure] f (Hi & Hfail & [Hb Hmax]) Hc Hf.
    apply bool_decide_eq_true in Hc. left.
    replace (i - 1 + 1) with i in Hb, Hmax by lia.
    pose proof Hb as (Hj & _).
    destruct (Keywords_failure_fall_back f failure i j)
      as (j' & -> & Hb' & Hno' & Hor); [lia|done|done| |lia|].
    { intros k Hk Hlt. apply Hmax in Hk. lia. }
    simpl. pose proof Hfail as [Hlen _].
    assert (∀ x, Keywords.assign failure i x = Some (failure ++ [x])) as Hassign.
    { intros x. unfold Keywords.assign.
      rewrite bool_decide_false by lia. by rewrite bool_decide_true. }
    rewrite Hassign. simpl. eexists. split; [done|]. split; [|lia].
    split; [lia|]. replace (i + 1 - 1) with i by lia.
    assert (lps_at pattern i
              (if strict_eq (get pattern i) (get pattern j') then j' + 1 else j'))
      as Hat.
    { destruct (strict_eq _ _) eqn:Heq.
      - apply strict_eq_true in Heq. apply lps_at_extend; [fold m; lia|done..].
      - apply strict_eq_false in Heq. destruct Hor as [->|]; [|done].
        apply lps_at_reset; [fold m; lia| |done].
        intros k Hk Hlt. by apply Hno'. }
    split; [|done]. by apply failure_upto_snoc.
  - assert (lps_at pattern 0 0) as Hat.
    { split; [apply border_at_0; fold m; lia|]. intros k (Hk & _). lia. }
    split; [lia|]. split; [|done]. split; [done|].
    intros t Ht. assert (t = 0) as -> by lia. by exists 0.
Qed.
End KeywordsFailure.

Lemma lps_upto_unique pattern lps lps' :
  lps_upto pattern lps (len pattern) → lps_upto pattern lps' (len pattern) →
  lps = lps'.
Proof.
  intros [Hlen H] [Hlen' H']. apply list_eq. intros i.
  rewrite <- !get_of_nat.
  destruct (decide (Z.of_nat i < len pattern)) as [Hi|Hi].
  - destruct (H (Z.of_nat i) ltac:(lia)) as (k & -> & Hk).
    destruct (H' (Z.of_nat i) ltac:(lia)) as (k' & -> & Hk').
    f_equal. by eapply lps_at_unique.
  - assert (get lps (Z.of_nat i) = None) as -> by (apply get_None; lia).
    symmetry. apply get_None. lia.
Qed.

Section KeywordsKMP.
Context (text pattern : str) (failure : list Z).
Let n := len text.
Let m := len pattern.
Context (Hfailure : lps_upto pattern failure m).

(** Falling back in the search keeps the invariant of the search loop. *)
Lemma Keywords_search_fall_back fuel i j ms :
  kmp_invariant text pattern (Script.KmpState i j ms) → i < n →
  (Z.to_nat j + 1 ≤ fuel)%nat →
  ∃ j', Keywords.kmp_fall_back fuel text pattern failure i j = Some j' ∧
        kmp_invariant text pattern (Script.KmpState i j' ms) ∧
        (j' = 0 ∨ get text i = get pattern j').
Proof.
  intros Hinv Hi Hfuel. unfold Keywords.kmp_fall_back.
  loop_with
    (λ j, kmp_invariant text pattern (Script.KmpState i j ms))
    (λ j, kmp_invariant text pattern (Script.KmpState i j ms) ∧
          (j = 0 ∨ get text i = get pattern j))
    (λ j : Z, j) 0%nat;
    [| |done|simpl; lia|done].
  - intros j' Hinv' Hc. split; [done|].
    apply andb_false_iff in Hc as [Hc|Hc].
    + apply bool_decide_eq_false in Hc. destruct Hinv' as (Hj' & _). left. lia.
    + apply strict_ne_false in Hc. by right.
  - intros j' f (Hj' & Hin & Hjm & Hwin & Hms) Hc _.
    apply andb_true_iff in Hc as [Hc1 Hc2].
    apply bool_decide_eq_true in Hc1. apply strict_ne_true in Hc2.
    left.
    destruct (kmp_fallback text pattern failure Hfailure i j' ms)
      as (k & -> & Hk & Hinv'); [fold m; lia|fold n; lia|done| |].
    { rewrite occurrences_below_miss; [done|lia|].
      apply kmp_mismatch; [fold m; lia|done]. }
    simpl. eexists. split; [done|]. split; [done|lia].
Qed.

Lemma Keywords_kmp_scan_occurrences fuel :
  0 < m → (Z.to_nat (n + m) + 2 ≤ fuel)%nat →
  Keywords.kmp_scan fuel text pattern failure = Some (occurrences text pattern).
Proof.
  intros Hm Hfuel. unfold Keywords.kmp_scan. fold n m.
  pose proof (len_nonneg text) as Hn. fold n in Hn.
  loop_with
    (λ '(i, j, ms), kmp_invariant text pattern (Script.KmpState i j ms))
    (λ s : Z * Z * list Z, s.2 = occurrences text pattern)
    (λ '((i, _, _) : Z * Z * list Z), n - i) (Z.to_nat m + 1)%nat;
    [| | |simpl; lia
     |destruct Hloop as ([[i j] ms] & -> & HQ); simpl in *; by rewrite HQ].
  - intros [[i j] ms] (Hj & Hin & Hjm & Hwin & ->) Hc.
    apply bool_decide_eq_false in Hc. simpl.
    fold n in Hin. fold m in Hjm.
    apply occurrences_below_all; fold n m; lia.
  - intros [[i j] ms] f Hinv Hc Hf. apply bool_decide_eq_true in Hc.
    left. pose proof Hinv as (Hj0 & _ & Hj0m & _). fold m in Hj0m.
    destruct (Keywords_search_fall_back f i j ms Hinv Hc)
      as (j' & -> & (Hj & Hin & Hjm & Hwin & Hms) & Hor); [lia|].
    fold n in Hin. fold m in Hjm. simpl.
    destruct (strict_eq _ _) eqn:Heq.
    + apply strict_eq_true in Heq.
      assert (∀ t, 0 ≤ t < j' + 1 → get text (i + 1 - (j' + 1) + t) = get pattern t)
        as Hwin'.
      { intros t Ht. destruct (decide (t = j')) as [->|].
        - rewrite <- Heq. f_equal. lia.
        - rewrite <- Hwin by lia. f_equal. lia. }
      case_bool_decide as Hfull.
      * destruct (kmp_fallback text pattern failure Hfailure (i + 1) (j' + 1)
                    (ms ++ [i - m + 1]))
          as (k & Hk & Hkb & Hinv'); [fold m; lia|fold n; lia|done| |].
        { rewrite Hms. replace (i - m + 1) with (i - j') by lia.
          replace (i + 1 - (j' + 1) + 1) with (i - j' + 1) by lia.
          rewrite occurrences_below_hit; [done|lia|].
          apply occurs_at_get. fold n m. split; [lia|]. split; [lia|].
          intros t Ht. rewrite <- Hwin' by lia. f_equal. lia. }
        rewrite Hk. simpl. eexists. split; [done|]. split; [done|lia].
      * eexists. split; [done|]. split; [|lia].
        split; [lia|]. split; [fold n; lia|]. split; [fold m; lia|].
        split; [done|]. rewrite Hms. f_equal. lia.
    + apply strict_eq_false in Heq. destruct Hor as [->|]; [|done].
      rewrite bool_decide_false by lia.
      eexists. split; [done|]. split; [|lia].
      split; [lia|]. split; [fold n; lia|]. split; [fold m; lia|].
      split; [intros t Ht; lia|]. rewrite Hms.
      replace (i + 1 - 0) with (i - 0 + 1) by lia.
      rewrite occurrences_below_miss; [done|lia|].
      apply kmp_mismatch; [fold m; lia|done].
  - split; [lia|]. split; [fold n; lia|]. split; [fold m; lia|].
    split; [intros t Ht; lia|done].
Qed.
End KeywordsKMP.

Lemma Keywords_kmpSearch_occurrences text pattern fuel :
  pattern ≠ [] →
  (Z.to_nat (2 * len text + 2 * len pattern) + 2 ≤ fuel)%nat →
  Keywords.kmpSearch fuel text pattern = Some (occurrences text pattern).
Proof.
  intros Hne Hfuel.
  pose proof (len_nonneg text). pose proof (len_nonneg pattern).
  assert (0 < len pattern) as Hm by (rewrite <- len_nil_iff in Hne; lia).
  unfold Keywords.kmpSearch.
  destruct (Keywords_buildFailure_spec pattern fuel) as (failure & -> & Hfail);
    [done|lia|]. simpl.
  apply Keywords_kmp_scan_occurrences; [done|done|lia].
Qed.

Lemma Keywords_hashingSearch_eq text pattern fuel :
  pattern ≠ [] →
  Keywords.hashingSearch fuel text pattern =
  Script.rabinKarpStringMatching fuel text pattern.
Proof.
  intros Hne. unfold Keywords.hashingSearch, Script.rabinKarpStringMatching.
  pose proof (len_nonneg text). pose proof (len_nonneg pattern).
  assert (0 < len pattern) as Hm by (rewrite <- len_nil_iff in Hne; lia).
  assert (falsy pattern = false) as -> by (by apply falsy_false).
  simpl. case_bool_decide as Hgt.
  - by rewrite orb_true_r.
  - assert (falsy text = false) as -> by (apply falsy_false; lia). done.
Qed.

(** X6.  [naiveSearch] of the keyword page (js/script.js, lines
    1055-1073) returns, for every text and every pattern, exactly the
    offsets at which the pattern occurs, in increasing order; for the
    empty pattern these are all the offsets from [0] to the length of the
    text. *)
Theorem Keywords_naiveSearch_all_occurrences text pattern fuel :
  (budget text pattern ≤ fuel)%nat →
  Keywords.naiveSearch fuel text pattern = Some (occurrences text pattern) ∧
  StronglySorted Z.lt (occurrences text pattern) ∧
  (∀ pos, pos ∈ occurrences text pattern ↔ occurs_at text pattern pos) ∧
  (pattern = [] → occurrences text pattern = seqZ 0 (len text + 1)).
Proof.
  intros Hfuel. unfold budget in Hfuel.
  pose proof (len_nonneg text). pose proof (len_nonneg pattern).
  split; [apply Keywords_naiveSearch_occurrences; lia|].
  split; [apply occurrences_below_sorted|].
  split; [apply elem_of_occurrences|].
  intros ->. apply occurrences_nil_pattern.
Qed.

Lemma Keywords_naiveSearch_all_occurrences_witness :
  Keywords.naiveSearch 14 s_aaa s_aa = Some (occurrences s_aaa s_aa) ∧
  StronglySorted Z.lt (occurrences s_aaa s_aa) ∧
  (∀ pos, pos ∈ occurrences s_aaa s_aa ↔ occurs_at s_aaa s_aa pos) ∧
  (s_aa = [] → occurrences s_aaa s_aa = seqZ 0 (len s_aaa + 1)).
Proof.
  apply (Keywords_naiveSearch_all_occurrences s_aaa s_aa 14). vm_compute. lia.
Defined.

(** X7.  [horspoolSearch] of the keyword page (js/script.js, lines
    1076-1103) returns, for every text and every pattern, exactly the
    offsets at which the pattern occurs, in increasing order: the shift
    [badChar[c] || m] skips no occurrence, and the function agrees with
    [naiveSearch] on every input, the empty pattern included. *)
Theorem Keywords_horspoolSearch_all_occurrences text pattern fuel :
  (budget text pattern ≤ fuel)%nat →
  Keywords.horspoolSearch fuel text pattern = Some (occurrences text pattern) ∧
  Keywords.horspoolSearch fuel text pattern = Keywords.naiveSearch fuel text pattern.
Proof.
  intros Hfuel. unfold budget in Hfuel.
  pose proof (len_nonneg text). pose proof (len_nonneg pattern).
  rewrite Keywords_horspoolSearch_occurrences, Keywords_naiveSearch_occurrences
    by lia.
  done.
Qed.

Lemma Keywords_horspoolSearch_all_occurrences_witness :
  Keywords.horspoolSearch 14 s_aaa s_aa = Some (occurrences s_aaa s_aa) ∧
  Keywords.horspoolSearch 14 s_aaa s_aa = Keywords.naiveSearch 14 s_aaa s_aa.
Proof.
  apply (Keywords_horspoolSearch_all_occurrences s_aaa s_aa 14). vm_compute. lia.
Defined.

(** X8.  The failure array that [kmpSearch] of the keyword page builds
    (js/script.js, lines 1111-1123) for a non-empty pattern has one entry
    for each position of the pattern, entry [i] being the length of the
    longest proper prefix of [pattern[0 ..= i]] that is also a suffix of
    it; it is the table that [computeLPS] of the search page returns. *)
Theorem Keywords_buildFailure_longest_border pattern fuel :
  pattern ≠ [] →
  (Z.to_nat (2 * len pattern) + 1 ≤ fuel)%nat →
  ∃ failure,
    Keywords.buildFailure fuel pattern = Some failure ∧
    Script.computeLPS fuel pattern = Some failure ∧
    len failure = len pattern ∧
    ∀ i, 0 ≤ i < len pattern →
      ∃ k, get failure i = Some k ∧ longest_border (window pattern 0 (i + 1)) k.
Proof.
  intros Hne Hfuel.
  pose proof (len_nonneg pattern).
  assert (0 < len pattern) as Hm by (rewrite <- len_nil_iff in Hne; lia).
  destruct (Keywords_buildFailure_spec pattern fuel Hm Hfuel)
    as (failure & Hbuild & Hfail).
  destruct (computeLPS_spec pattern fuel Hm Hfuel) as (lps & Hlps & Hupto).
  exists failure. split; [done|].
  split; [by rewrite (lps_upto_unique pattern failure lps)|].
  split; [by destruct Hfail|].
  intros i Hi. destruct Hfail as [_ Hall].
  destruct (Hall i Hi) as (k & Hk & Hat).
  exists k. split; [done|]. by apply lps_at_longest_border.
Qed.

Lemma Keywords_buildFailure_longest_border_witness :
  ∃ failure,
    Keywords.buildFailure 15 s_ababaca = Some failure ∧
    Script.computeLPS 15 s_ababaca = Some failure ∧
    len failure = len s_ababaca ∧
    ∀ i, 0 ≤ i < len s_ababaca →
      ∃ k, get failure i = Some k ∧ longest_border (window s_ababaca 0 (i + 1)) k.
Proof.
  apply (Keywords_buildFailure_longest_border s_ababaca 15);
    [done|vm_compute; lia].
Defined.

(** X9.  [kmpSearch] of the keyword page (js/script.js, lines 1106-1141)
    returns, for a non-empty pattern, exactly the offsets at which the
    pattern occurs, in increasing order, overlapping occurrences
    included. *)
Theorem Keywords_kmpSearch_all_occurrences text pattern fuel :
  pattern ≠ [] →
  (budget text pattern ≤ fuel)%nat →
  Keywords.kmpSearch fuel text pattern = Some (occurrences text pattern).
Proof.
  intros Hne Hfuel. unfold budget in Hfuel.
  pose proof (len_nonneg text). pose proof (len_nonneg pattern).
  apply Keywords_kmpSearch_occurrences; [done|lia].
Qed.

Lemma Keywords_kmpSearch_all_occurrences_witness :
  Keywords.kmpSearch 14 s_aaa s_aa = Some (occurrences s_aaa s_aa).
Proof.
  apply (Keywords_kmpSearch_all_occurrences s_aaa s_aa 14);
    [done|vm_compute; lia].
Defined.

(** X10.  [hashingSearch] of the keyword page (js/script.js, lines
    1144-1195) returns, for a non-empty pattern, exactly the offsets at
    which the pattern occurs, in increasing order: a window is reported
    only after the unit by unit comparison, and the rolling hash never
    hides an occurrence. *)
Theorem Keywords_hashingSearch_all_occurrences text pattern fuel :
  pattern ≠ [] →
  (budget text pattern ≤ fuel)%nat →
  Keywords.hashingSearch fuel text pattern = Some (occurrences text pattern).
Proof.
  intros Hne Hfuel. apply budget_bounds in Hfuel as [Hfuel _].
  rewrite Keywords_hashingSearch_eq by done.
  rewrite rabinKarpStringMatching_correct by done.
  unfold expected. by rewrite decide_False.
Qed.

Lemma Keywords_hashingSearch_all_occurrences_witness :
  Keywords.hashingSearch 14 s_aaa s_aa = Some (occurrences s_aaa s_aa).
Proof.
  apply (Keywords_hashingSearch_all_occurrences s_aaa s_aa 14);
    [done|vm_compute; lia].
Defined.

Lemma Keywords_findMatches_occurrences text pattern algorithm fuel :
  pattern ≠ [] →
  (budget text pattern ≤ fuel)%nat →
  Keywords.findMatches fuel text pattern algorithm =
    Some (occurrences text pattern).
Proof.
  intros Hne Hfuel. unfold Keywords.findMatches.
  pose proof (budget_bounds _ _ _ Hfuel) as [Hrk _].
  unfold budget in Hfuel.
  pose proof (len_nonneg text). pose proof (len_nonneg pattern).
  rewrite Keywords_naiveSearch_occurrences, Keywords_horspoolSearch_occurrences
    by lia.
  rewrite Keywords_kmpSearch_occurrences by (done || lia).
  rewrite Keywords_hashingSearch_eq, rabinKarpStringMatching_correct by done.
  unfold expected. rewrite decide_False by done.
  by repeat case_bool_decide.
Qed.

(** X11.  [findMatches] of the keyword page (js/script.js, lines
    1039-1052) returns the same list for every algorithm tag, known or
    not, when the pattern is not empty: the offsets at which the pattern
    occurs, in increasing order. *)
Theorem Keywords_findMatches_tag_independent text pattern algorithm algorithm' fuel :
  pattern ≠ [] →
  (budget text pattern ≤ fuel)%nat →
  Keywords.findMatches fuel text pattern algorithm =
    Some (occurrences text pattern) ∧
  Keywords.findMatches fuel text pattern algorithm' =
    Keywords.findMatches fuel text pattern algorithm.
Proof.
  intros Hne Hfuel.
  by rewrite !Keywords_findMatches_occurrences.
Qed.

Lemma Keywords_findMatches_tag_independent_witness :
  Keywords.findMatches 14 s_aaa s_aa tag_horspool = Some (occurrences s_aaa s_aa) ∧
  Keywords.findMatches 14 s_aaa s_aa tag_kmp =
    Keywords.findMatches 14 s_aaa s_aa tag_horspool.
Proof.
  apply (Keywords_findMatches_tag_independent s_aaa s_aa tag_horspool tag_kmp 14);
    [done|vm_compute; lia].
Defined.

(** ** The C++ matchers *)

Section CppMatchers.
Context (text pattern : str).
Let n := len text.
Let m := len pattern.

Lemma Cpp_int_succ_Some x : x + 1 < 2 ^ 31 → Cpp.int_succ x = Some (x + 1).
Proof. intros. unfold Cpp.int_succ. by rewrite bool_decide_true. Qed.

Lemma Cpp_int_of_size_Some x : x < 2 ^ 31 → Cpp.int_of_size x = Some x.
Proof. intros. unfold Cpp.int_of_size. by rewrite bool_decide_true. Qed.

Lemma CppServer_naiveStringMatching_expected fuel :
  n < 2 ^ 31 →
  (Z.to_nat (n + m) + 3 ≤ fuel)%nat →
  CppServer.naiveStringMatching fuel text pattern = Some (expected text pattern).
Proof.
  intros Hint Hfuel. unfold CppServer.naiveStringMatching. fold n m.
  pose proof (len_nonneg pattern) as Hm. fold m in Hm.
  pose proof (len_nonneg text) as Hn. fold n in Hn.
  destruct (bool_decide (pattern = []) || bool_decide (text = [])) eqn:Hg.
  { apply orb_true_iff in Hg as [Hg|Hg]; apply bool_decide_eq_true in Hg.
    - by rewrite Hg, expected_nil_pattern.
    - destruct (decide (pattern = [])) as [->|Hne];
        [by rewrite expected_nil_pattern|].
      rewrite expected_long_pattern; [done|]. rewrite Hg.
      rewrite <- len_nil_iff in Hne. fold m in Hne. change (len (@nil N)) with 0.
      fold m. lia. }
  apply orb_false_iff in Hg as [Hp Ht]. apply bool_decide_eq_false in Hp, Ht.
  unfold expected. rewrite decide_False by done.
  loop_with
    (λ '(i, found_in), 0 ≤ i ∧ found_in = occurrences_below text pattern i)
    (λ '((_, found_in) : Z * list Z), found_in = occurrences text pattern)
    (λ '((i, _) : Z * list Z), n - i) (Z.to_nat m + 1)%nat;
    [| |split; [lia|done]|simpl; lia
     |by destruct Hloop as ([i ms] & -> & ->)].
  - intros [i ms] (Hi & ->) Hc. apply bool_decide_eq_false in Hc.
    rewrite <- len_nil_iff in Hp. fold m in Hp.
    apply occurrences_below_all; fold n m; lia.
  - intros [i ms] f (Hi & ->) Hc Hf. apply bool_decide_eq_true in Hc.
    case_bool_decide as Hfit.
    { right. eexists. split; [done|].
      apply occurrences_below_all; fold n m; lia. }
    left.
    assert (∃ r, loop f (λ '(j, _), bool_decide (j < m))
                   (λ _ '(j, mtch),
                      t ← get text (i + j);
                      p ← get pattern j;
                      if bool_decide (t ≠ p) then Some (Break (j, false))
                      else j ← Cpp.int_succ j; Some (Continue (j, mtch)))
                   (0, true) = Some r ∧
                 (r.2 = true ↔ occurs_at text pattern i)) as ([j b] & -> & Hb).
    { loop_with
        (λ '(j, mtch), 0 ≤ j ≤ m ∧ mtch = true ∧
                       ∀ j', 0 ≤ j' < j → get text (i + j') = get pattern j')
        (λ r : Z * bool, r.2 = true ↔ occurs_at text pattern i)
        (λ '((j, _) : Z * bool), m - j) 0%nat;
        [| |repeat split; (lia || done)|simpl; lia|done].
      - intros [j b] (Hj & -> & Hall) Hcj. apply bool_decide_eq_false in Hcj.
        simpl. split; [|done]. intros _.
        apply occurs_at_get. fold n m. split; [lia|]. split; [lia|].
        intros j' Hj'. apply Hall. lia.
      - intros [j b] f' (Hj & -> & Hall) Hcj _. apply bool_decide_eq_true in Hcj.
        destruct (get_lt_Some text (i + j)) as [t Htj]; [fold n; lia|].
        destruct (get_lt_Some pattern j) as [p Hpj]; [fold m; lia|].
        rewrite Htj, Hpj. simpl. case_bool_decide as Hne.
        + right. eexists. split; [done|]. simpl. split; [done|].
          intros Hocc. apply occurs_at_get in Hocc as (_ & _ & Hocc).
          specialize (Hocc j ltac:(fold m; lia)). congruence.
        + left. rewrite Cpp_int_succ_Some by lia. simpl.
          eexists. split; [done|]. split; [|lia].
          split; [lia|]. split; [done|]. intros j' Hj'.
          destruct (decide (j' = j)) as [->|]; [|apply Hall; lia].
          congruence. }
    simpl in *. rewrite Cpp_int_succ_Some by lia. simpl.
    eexists. split; [done|]. split; [|lia]. split; [lia|].
    destruct b.
    + rewrite occurrences_below_hit; [done|lia|by apply Hb].
    + rewrite occurrences_below_miss; [done|lia|].
      intros H. apply Hb in H. done.
Qed.

Lemma Cpp_computeLPS_eq fuel :
  m < 2 ^ 31 → Cpp.computeLPS fuel pattern = Script.computeLPS fuel pattern.
Proof.
  intros Hint. unfold Cpp.computeLPS. fold m.
  by rewrite Cpp_int_of_size_Some.
Qed.

Lemma Cpp_searchKMP_occurrences fuel :
  n < 2 ^ 31 → 0 < m < 2 ^ 31 → (Z.to_nat (2 * n + 2 * m) + 1 ≤ fuel)%nat →
  Cpp.searchKMP fuel text pattern = Some (occurrences text pattern) ∧
  CppServer.searchKMP fuel text pattern = Some (occurrences text pattern).
Proof.
  intros Hn31 Hm Hfuel. unfold Cpp.searchKMP, CppServer.searchKMP.
  pose proof (len_nonneg text) as Hn. fold n in Hn. fold n m.
  rewrite !Cpp_int_of_size_Some by lia. simpl.
  rewrite Cpp_computeLPS_eq by lia.
  destruct (computeLPS_spec pattern fuel) as (lps & -> & Hlps);
    [fold m; lia|fold m; lia|]. simpl.
  rewrite !bool_decide_false by lia. simpl.
  pose proof (kmp_search_correct text pattern lps Hlps fuel) as Hk.
  fold n m in Hk. by rewrite Hk by lia.
Qed.

(** The lookup in the table of [horspoolHelper] gives the shift of the
    JavaScript table. *)
Lemma Cpp_shift t c values ti :
  values = (if decide (t !! c = None) then <[c := m]> t else t) →
  match values !! ti with Some v => v | None => m end =
  Script.shift_for t m (Some ti).
Proof.
  intros ->. unfold Script.shift_for. simpl.
  case_decide as Hc; [|done].
  destruct (decide (ti = c)) as [->|Hne].
  - by rewrite lookup_insert_eq, Hc.
  - by rewrite lookup_insert_ne.
Qed.

Lemma Cpp_horspool_expected fuel :
  n + m < 2 ^ 31 →
  (Z.to_nat (n + m) + 3 ≤ fuel)%nat →
  Cpp.horspool fuel text pattern = Some (expected text pattern).
Proof.
  intros Hsize Hfuel. unfold Cpp.horspool. fold n m.
  pose proof (len_nonneg pattern) as Hm. fold m in Hm.
  pose proof (len_nonneg text) as Hn. fold n in Hn.
  destruct (decide (pattern = [])) as [Hnil|Hne].
  { rewrite Hnil, expected_nil_pattern. subst m. rewrite Hnil in *.
    destruct fuel as [|fuel]; [lia|]. simpl.
    rewrite bool_decide_false; [done|].
    change (len (@nil N)) with 0 in *.
    change (Cpp.to_size_t (0 - 1)) with (2 ^ 64 - 1). lia. }
  assert (0 < m) as Hpos by (rewrite <- len_nil_iff in Hne; fold m in Hne; lia).
  unfold expected. rewrite decide_False by done.
  destruct (buildShiftTable_spec pattern fuel) as (t & _ & Ht);
    [done|fold m; lia|]. fold m in Ht.
  destruct (cpp_horspoolHelper_spec pattern fuel t) as (c & Hc & Hhelper);
    [fold m; lia|fold m; lia|done|].
  fold m in Hhelper. rewrite Hhelper. simpl.
  set (values := if decide (t !! c = None) then <[c := m]> t else t).
  loop_with
    (λ '(i, found_in), m - 1 ≤ i < n + m ∧
                       found_in = occurrences_below text pattern (i - (m - 1)))
    (λ '((_, found_in) : Z * list Z), found_in = occurrences text pattern)
    (λ '((i, _) : Z * list Z), Z.max 0 (n - i)) (Z.to_nat m + 1)%nat;
    [| | |simpl; lia
     |by destruct Hloop as ([i ms] & -> & ->)].
  - intros [i ms] (Hi & ->) Hc'. apply bool_decide_eq_false in Hc'.
    unfold Cpp.to_size_t in Hc'. rewrite Z.mod_small in Hc' by lia.
    apply occurrences_below_all; fold n m; lia.
  - intros [i0 f0] f (Hi & ->) Hc' Hf. apply bool_decide_eq_true in Hc'.
    unfold Cpp.to_size_t in Hc'. rewrite Z.mod_small in Hc' by lia.
    left.
    assert (∃ r,
      loop f (λ '(j, _, _), bool_decide (j < m))
        (λ _ '(j, i, found_in),
           p ← get pattern (m - 1 - j);
           t ← get text (i - j);
           if bool_decide (p ≠ t) then
             ti ← get text i;
             match values !! ti with
             | None => Some (Break (j, i + m, found_in))
             | Some v => Some (Break (j, i + v, found_in))
             end
           else if bool_decide (j = m - 1) then
             Some (Continue (j + 1, i + 1, found_in ++ [i - j]))
           else Some (Continue (j + 1, i, found_in)))
        (0, i0, occurrences_below text pattern (i0 - (m - 1))) = Some r ∧
      i0 < r.1.2 ≤ i0 + m ∧
      r.2 = occurrences_below text pattern (r.1.2 - (m - 1)))
      as ([[j i'] f'] & -> & Hi' & Hf').
    { loop_with
        (λ '(j, i, found_in),
           (0 ≤ j < m ∧ i = i0 ∧
            found_in = occurrences_below text pattern (i0 - (m - 1)) ∧
            ∀ j', 0 ≤ j' < j → get pattern (m - 1 - j') = get text (i0 - j')) ∨
           (j = m ∧ i = i0 + 1 ∧
            found_in = occurrences_below text pattern (i0 - (m - 1)) ++ [i0 - (m - 1)] ∧
            occurs_at text pattern (i0 - (m - 1))))
        (λ r : Z * Z * list Z,
           i0 < r.1.2 ≤ i0 + m ∧
           r.2 = occurrences_below text pattern (r.1.2 - (m - 1)))
        (λ '((j, _, _) : Z * Z * list Z), m - j) 0%nat;
        [| | |simpl; lia|done].
      - intros [[j i] fi] Hinv Hcj. apply bool_decide_eq_false in Hcj. simpl.
        destruct Hinv as [(Hj & _)|(-> & -> & -> & Hocc)]; [lia|].
        split; [lia|].
        replace (i0 + 1 - (m - 1)) with (i0 - (m - 1) + 1) by lia.
        by rewrite occurrences_below_hit by (done || lia).
      - intros [[j i] fi] f' Hinv Hcj _. apply bool_decide_eq_true in Hcj.
        destruct Hinv as [(Hj & -> & -> & Hall)|(Hj & _)]; [|lia].
        destruct (get_lt_Some pattern (m - 1 - j)) as [p Hp]; [fold m; lia|].
        destruct (get_lt_Some text (i0 - j)) as [u Hu]; [fold n; lia|].
        rewrite Hp, Hu. simpl. case_bool_decide as Hpu.
        + right. destruct (get_lt_Some text i0) as [ti Hti]; [fold n; lia|].
          rewrite Hti. simpl.
          pose proof (Cpp_shift t c values ti eq_refl) as Hshift.
          pose proof (shift_for_bounds text pattern t (Some ti) Hpos Ht) as Hb.
          fold m in Hb.
          exists (j, i0 + Script.shift_for t m (Some ti),
                  occurrences_below text pattern (i0 - (m - 1))).
          split.
          { rewrite <- Hshift. by destruct (values !! ti). }
          simpl. split; [lia|].
          symmetry. apply occurrences_below_skip; [lia|].
          intros s Hs. destruct (decide (s = i0 - (m - 1))) as [->|Hsi].
          * intros Hocc. apply occurs_at_get in Hocc as (_ & _ & Hocc).
            specialize (Hocc (m - 1 - j) ltac:(fold m; lia)).
            replace (i0 - (m - 1) + (m - 1 - j)) with (i0 - j) in Hocc by lia.
            congruence.
          * apply (shift_for_safe text pattern t (i0 - (m - 1)));
              [done|fold n m; lia|done|].
            fold m. replace (i0 - (m - 1) + m - 1) with i0 by lia.
            rewrite Hti. lia.
        + simplify_eq.
          assert (∀ j', 0 ≤ j' < j + 1 →
                    get pattern (m - 1 - j') = get text (i0 - j')) as Hall'.
          { intros j' Hj'. destruct (decide (j' = j)) as [->|].
            - by rewrite Hp, Hu.
            - apply Hall. lia. }
          left. case_bool_decide as Hlast.
          * eexists. split; [done|]. split; [|lia]. right.
            split; [lia|]. split; [done|]. split; [by rewrite Hlast|].
            apply occurs_at_get. fold n m. split; [lia|]. split; [lia|].
            intros k Hk. pose proof (Hall' (m - 1 - k) ltac:(lia)) as Hk'.
            replace (m - 1 - (m - 1 - k)) with k in Hk' by lia.
            rewrite Hk'. f_equal. lia.
          * eexists. split; [done|]. split; [|lia]. left.
            split; [lia|]. done.
      - left. split; [lia|]. split; [done|]. split; [done|]. intros; lia. }
    simpl in *. eexists. split; [done|]. split; [|lia]. split; [lia|done].
  - split; [lia|]. by replace (m - 1 - (m - 1)) with 0 by lia.
Qed.
End CppMatchers.

(** ** Lines of CSV *)

Lemma drop_spaces_suffix s : ∃ k, s = k ++ drop_spaces s.
Proof.
  induction s as [|c s [k IH]]; [by exists []|]. simpl.
  destruct (is_space c).
  - exists (c :: k). simpl. by f_equal.
  - by exists [].
Qed.

Lemma drop_spaces_head s :
  match drop_spaces s with [] => True | c :: _ => is_space c = false end.
Proof.
  induction s as [|c s IH]; [done|]. simpl.
  destruct (is_space c) eqn:Hc; [done|]. by simpl.
Qed.

Lemma drop_spaces_id s :
  match s with [] => True | c :: _ => is_space c = false end →
  drop_spaces s = s.
Proof. destruct s as [|c s]; [done|]. simpl. by intros ->. Qed.

Lemma trim_id s : trimmed s → trim s = s.
Proof.
  intros [Hfirst Hlast]. unfold trim.
  rewrite (drop_spaces_id s) by done.
  rewrite (drop_spaces_id (reverse s)) by done.
  apply reverse_involutive.
Qed.

Lemma trimmed_trim s : trimmed (trim s).
Proof.
  unfold trim, trimmed. rewrite reverse_involutive.
  split; [|apply drop_spaces_head].
  pose proof (drop_spaces_head s) as Hhead.
  destruct (drop_spaces_suffix (reverse (drop_spaces s))) as [k Hk].
  apply (f_equal reverse) in Hk.
  rewrite reverse_involutive, reverse_app in Hk.
  rewrite Hk in Hhead.
  by destruct (reverse (drop_spaces (reverse (drop_spaces s)))).
Qed.

Lemma elem_of_drop_spaces x s : x ∈ drop_spaces s → x ∈ s.
Proof.
  intros Hx. destruct (drop_spaces_suffix s) as [k Hk].
  rewrite Hk. apply elem_of_app. by right.
Qed.

Lemma elem_of_trim x s : x ∈ trim s → x ∈ s.
Proof.
  unfold trim. rewrite elem_of_reverse. intros Hx.
  apply elem_of_drop_spaces in Hx. rewrite elem_of_reverse in Hx.
  by apply elem_of_drop_spaces.
Qed.

Lemma strip_quotes_id val : 34%N ∉ val → Search.strip_quotes val = val.
Proof.
  intros Hno. unfold Search.strip_quotes.
  destruct val as [|c val]; [done|].
  rewrite bool_decide_false by (intros ->; apply Hno; left).
  destruct (reverse (c :: val)) as [|d rest] eqn:Hr; [done|].
  rewrite bool_decide_false; [done|].
  intros ->. apply Hno. rewrite <- elem_of_reverse, Hr. left.
Qed.

Section CSV.
Implicit Types (s : Search.csv_state) (line f : str).

Let start := Search.CsvState [] [] false.
Let finish s : list str :=
  (λ val, trim (Search.strip_quotes val)) <$>
    (Search.csv_result s ++ [Search.csv_current s]).

(** The loop of [parseCSVLine] is a left fold over the units of the line. *)
Lemma parseCSVLine_fold fuel line :
  (Z.to_nat (len line) + 1 ≤ fuel)%nat →
  Search.parseCSVLine fuel line = Some (finish (foldl Search.csv_step start line)).
Proof.
  intros Hfuel. unfold Search.parseCSVLine.
  pose proof (len_nonneg line) as Hn.
  loop_with
    (λ '(i, s), 0 ≤ i ≤ len line ∧
                s = foldl Search.csv_step start (take (Z.to_nat i) line))
    (λ '((_, s) : Z * Search.csv_state), s = foldl Search.csv_step start line)
    (λ '((i, _) : Z * Search.csv_state), len line - i) 0%nat;
    [| |split; [lia|done]|simpl; lia
     |by destruct Hloop as ([i s] & -> & ->)].
  - intros [i s] (Hi & ->) Hc. apply bool_decide_eq_false in Hc.
    rewrite take_ge; [done|]. unfold len in *. lia.
  - intros [i s] f (Hi & ->) Hc _. apply bool_decide_eq_true in Hc.
    left. destruct (get_lt_Some line i) as [c Hget]; [lia|].
    rewrite Hget. simpl. eexists. split; [done|]. split; [|lia].
    split; [lia|].
    rewrite get_lookup in Hget by lia.
    replace (Z.to_nat (i + 1)) with (Datatypes.S (Z.to_nat i)) by lia.
    rewrite (take_S_r _ _ _ Hget). by rewrite foldl_app.
Qed.

(** No double quote ever enters a field. *)
Lemma csv_step_no_quote s c :
  Forall (λ f, 34%N ∉ f) (Search.csv_result s) → 34%N ∉ Search.csv_current s →
  Forall (λ f, 34%N ∉ f) (Search.csv_result (Search.csv_step s c)) ∧
  34%N ∉ Search.csv_current (Search.csv_step s c).
Proof.
  destruct s as [res cur q]. simpl. intros Hres Hcur.
  case_bool_decide as H34; [done|].
  destruct (bool_decide (c = 44%N) && negb q); simpl.
  - split; [|apply not_elem_of_nil].
    apply Forall_app. split; [done|]. by apply Forall_singleton.
  - split; [done|]. rewrite elem_of_app, list_elem_of_singleton.
    intros [?|?]; [done|]. congruence.
Qed.

Lemma csv_fold_no_quote line s :
  Forall (λ f, 34%N ∉ f) (Search.csv_result s) → 34%N ∉ Search.csv_current s →
  Forall (λ f, 34%N ∉ f) (Search.csv_result (foldl Search.csv_step s line)) ∧
  34%N ∉ Search.csv_current (foldl Search.csv_step s line).
Proof.
  revert s. induction line as [|c line IH]; intros s Hres Hcur; [done|].
  simpl. by apply IH; apply csv_step_no_quote.
Qed.

(** Without double quotes in the line, each comma closes a field. *)
Lemma csv_fold_count line s :
  34%N ∉ line → Search.csv_inQuotes s = false →
  Search.csv_inQuotes (foldl Search.csv_step s line) = false ∧
  length (Search.csv_result (foldl Search.csv_step s line)) =
    (length (Search.csv_result s) + length (filter (λ c, c = 44%N) line))%nat.
Proof.
  revert s. induction line as [|c line IH]; intros [res cur q] Hno Hq.
  { simpl. split; [done|lia]. }
  simpl in Hq. subst q. apply not_elem_of_cons in Hno as [Hc Hno].
  simpl. rewrite bool_decide_false by done. rewrite andb_true_r.
  rewrite filter_cons. case_bool_decide as H44.
  - rewrite decide_True by done.
    destruct (IH (Search.CsvState (res ++ [cur]) [] false) Hno eq_refl) as [-> ->].
    split; [done|]. simpl. rewrite length_app. simpl. lia.
  - rewrite decide_False by done.
    by destruct (IH (Search.CsvState res (cur ++ [c]) false) Hno eq_refl) as [-> ->].
Qed.

(** A field without quote and comma is read as it stands. *)
Lemma csv_fold_plain res cur f :
  34%N ∉ f → 44%N ∉ f →
  foldl Search.csv_step (Search.CsvState res cur false) f =
  Search.CsvState res (cur ++ f) false.
Proof.
  revert cur. induction f as [|c f IH]; intros cur Hq Hc.
  { by rewrite app_nil_r. }
  apply not_elem_of_cons in Hq as [Hq1 Hq], Hc as [Hc1 Hc].
  simpl. rewrite !bool_decide_false by done. simpl.
  rewrite IH by done. by rewrite <- app_assoc.
Qed.

(** Between quotes a comma is a unit of the field. *)
Lemma csv_fold_inside res cur f :
  34%N ∉ f →
  foldl Search.csv_step (Search.CsvState res cur true) f =
  Search.CsvState res (cur ++ f) true.
Proof.
  revert cur. induction f as [|c f IH]; intros cur Hq.
  { by rewrite app_nil_r. }
  apply not_elem_of_cons in Hq as [Hq1 Hq].
  simpl. rewrite bool_decide_false by done. rewrite andb_false_r.
  rewrite IH by done. by rewrite <- app_assoc.
Qed.

Lemma csv_fold_cell res cur (c : bool * str) :
  34%N ∉ c.2 → (c.1 = false → 44%N ∉ c.2) →
  foldl Search.csv_step (Search.CsvState res cur false) (cell_text c) =
  Search.CsvState res (cur ++ c.2) false.
Proof.
  destruct c as [[] f]; simpl; intros Hq Hc.
  - unfold cell_text, quoted. simpl.
    rewrite foldl_app, csv_fold_inside by done. reflexivity.
  - unfold cell_text. simpl. apply csv_fold_plain; [done|by apply Hc].
Qed.

Lemma join_comma_cons f (rest : list str) :
  rest ≠ [] → join_comma (f :: rest) = f ++ [44%N] ++ join_comma rest.
Proof. by destruct rest. Qed.

Lemma csv_fold_cells (cells : list (bool * str)) res :
  cells ≠ [] →
  Forall (λ c, (34%N ∉ c.2) ∧ (c.1 = false → 44%N ∉ c.2)) cells →
  let s := foldl Search.csv_step (Search.CsvState res [] false)
             (join_comma (cell_text <$> cells)) in
  Search.csv_result s ++ [Search.csv_current s] = res ++ (snd <$> cells).
Proof.
  revert res. induction cells as [|c cells IH]; intros res Hne Hok; [done|].
  apply Forall_cons in Hok as [[Hq Hc] Hok].
  destruct (decide (cells = [])) as [->|Hcells].
  - simpl. by rewrite csv_fold_cell.
  - cbn zeta in IH |- *. rewrite fmap_cons.
    rewrite join_comma_cons by (by destruct cells).
    rewrite !foldl_app, csv_fold_cell by done.
    change (foldl Search.csv_step (Search.CsvState res ([] ++ c.2) false) [44%N])
      with (Search.CsvState (res ++ [c.2]) [] false).
    rewrite (IH (res ++ [c.2])) by done.
    by rewrite <- app_assoc.
Qed.
End CSV.

(** X12.  [naiveStringMatching] of the C++ server
    (cpp/Mathcing_Algorithms.cpp, lines 45-69), for a text whose length
    fits in an [int], returns nothing for an empty pattern or an empty
    text and otherwise exactly the offsets at which the pattern occurs, in
    increasing order; the scan stops at the first offset where the pattern
    no longer fits. *)
Theorem CppServer_naiveStringMatching_correct text pattern fuel :
  len text < 2 ^ 31 →
  (budget text pattern ≤ fuel)%nat →
  CppServer.naiveStringMatching fuel text pattern = Some (expected text pattern).
Proof.
  intros Hint Hfuel. unfold budget in Hfuel.
  pose proof (len_nonneg text). pose proof (len_nonneg pattern).
  apply CppServer_naiveStringMatching_expected; [done|lia].
Qed.

Lemma CppServer_naiveStringMatching_correct_witness :
  CppServer.naiveStringMatching 14 s_aaa s_aa = Some (expected s_aaa s_aa).
Proof.
  apply (CppServer_naiveStringMatching_correct s_aaa s_aa 14);
    vm_compute; [done|lia].
Defined.

(** X13.  [searchKMP] of the C++ server (cpp/Mathcing_Algorithms.cpp, lines
    130-159), for a text and a pattern whose lengths fit in an [int],
    returns nothing for an empty pattern and otherwise exactly the offsets
    at which the pattern occurs, in increasing order; [searchKMP] of the
    console program (lines 386-414), which lacks the guard, returns the
    same list for every non-empty pattern. *)
Theorem Cpp_searchKMP_correct text pattern fuel :
  len text < 2 ^ 31 →
  len pattern < 2 ^ 31 →
  (budget text pattern ≤ fuel)%nat →
  CppServer.searchKMP fuel text pattern = Some (expected text pattern) ∧
  (pattern ≠ [] → Cpp.searchKMP fuel text pattern = Some (expected text pattern)).
Proof.
  intros Hn31 Hm31 Hfuel. unfold budget in Hfuel.
  pose proof (len_nonneg text). pose proof (len_nonneg pattern).
  destruct (decide (pattern = [])) as [->|Hne].
  { split; [|done]. unfold CppServer.searchKMP.
    rewrite !Cpp_int_of_size_Some by done. simpl.
    by rewrite expected_nil_pattern. }
  assert (0 < len pattern) as Hm by (rewrite <- len_nil_iff in Hne; lia).
  destruct (Cpp_searchKMP_occurrences text pattern fuel Hn31 ltac:(lia) ltac:(lia))
    as [-> ->].
  unfold expected. by rewrite decide_False.
Qed.

Lemma Cpp_searchKMP_correct_witness :
  CppServer.searchKMP 14 s_aaa s_aa = Some (expected s_aaa s_aa) ∧
  (s_aa ≠ [] → Cpp.searchKMP 14 s_aaa s_aa = Some (expected s_aaa s_aa)).
Proof.
  apply (Cpp_searchKMP_correct s_aaa s_aa 14); vm_compute; [done|done|lia].
Defined.

(** X14.  [horspool] of the C++ console program
    (cpp/Mathcing_Algorithms.cpp, lines 417-440), with the table of
    [horspoolHelper] (lines 304-320), returns nothing for an empty pattern
    and otherwise exactly the offsets at which the pattern occurs, in
    increasing order, for strings whose lengths fit in an [int]. *)
Theorem Cpp_horspool_correct text pattern fuel :
  len text + len pattern < 2 ^ 31 →
  (budget text pattern ≤ fuel)%nat →
  Cpp.horspool fuel text pattern = Some (expected text pattern).
Proof.
  intros Hsize Hfuel. unfold budget in Hfuel.
  pose proof (len_nonneg text). pose proof (len_nonneg pattern).
  apply Cpp_horspool_expected; lia.
Qed.

Lemma Cpp_horspool_correct_witness :
  Cpp.horspool 14 s_aaa s_aa = Some (expected s_aaa s_aa).
Proof.
  apply (Cpp_horspool_correct s_aaa s_aa 14); vm_compute; [done|lia].
Defined.

(** X15.  [parseCSVLine] (js/search.js, lines 129-149) returns at least one
    field for every line; no field contains a double quote and no field
    starts or ends with white space; for a line without double quotes the
    number of fields is the number of commas plus one. *)
Theorem parseCSVLine_fields line fuel :
  (Z.to_nat (len line) + 1 ≤ fuel)%nat →
  ∃ fields,
    Search.parseCSVLine fuel line = Some fields ∧
    fields ≠ [] ∧
    Forall (λ f, (34%N ∉ f) ∧ trimmed f) fields ∧
    (34%N ∉ line → len fields = 1 + len (filter (λ c, c = 44%N) line)).
Proof.
  intros Hfuel. rewrite parseCSVLine_fold by done.
  eexists. split; [done|].
  set (s := foldl Search.csv_step (Search.CsvState [] [] false) line).
  destruct (csv_fold_no_quote line (Search.CsvState [] [] false))
    as [Hres Hcur]; [constructor|apply not_elem_of_nil|]. fold s in Hres, Hcur.
  split; [|split].
  - intros Heq%fmap_nil_inv. by apply app_nil in Heq as [_ ?].
  - apply Forall_fmap, Forall_app. split.
    + eapply Forall_impl; [exact Hres|]. intros f Hf. simpl.
      rewrite strip_quotes_id by done. split; [|apply trimmed_trim].
      by intros ?%elem_of_trim.
    + apply Forall_singleton. simpl.
      rewrite strip_quotes_id by done. split; [|apply trimmed_trim].
      by intros ?%elem_of_trim.
  - intros Hno.
    destruct (csv_fold_count line (Search.CsvState [] [] false) Hno eq_refl)
      as [_ Hcount]. fold s in Hcount. simpl in Hcount.
    unfold len. rewrite length_fmap, length_app, Hcount. simpl. lia.
Qed.

Lemma parseCSVLine_fields_witness :
  ∃ fields,
    Search.parseCSVLine 4 [97; 44; 98]%N = Some fields ∧
    fields ≠ [] ∧
    Forall (λ f, (34%N ∉ f) ∧ trimmed f) fields ∧
    (34%N ∉ [97; 44; 98]%N →
     len fields = 1 + len (filter (λ c, c = 44%N) [97; 44; 98]%N)).
Proof. apply (parseCSVLine_fields [97; 44; 98]%N 4). vm_compute. lia. Defined.

(** X16.  [parseCSVLine] (js/search.js, lines 129-149) reads back a line
    written from its fields: when the fields contain no double quote and
    have no white space at either end, each field is written either as it
    stands (if it has no comma) or between double quotes, and the cells
    are joined by commas, the function returns exactly the fields; a comma
    between double quotes does not split the field. *)
Theorem parseCSVLine_round_trip (cells : list (bool * str)) fuel :
  cells ≠ [] →
  Forall (λ c, (34%N ∉ c.2) ∧ (c.1 = false → 44%N ∉ c.2) ∧ trimmed c.2) cells →
  (Z.to_nat (len (join_comma (cell_text <$> cells))) + 1 ≤ fuel)%nat →
  Search.parseCSVLine fuel (join_comma (cell_text <$> cells)) = Some (snd <$> cells).
Proof.
  intros Hne Hok Hfuel. rewrite parseCSVLine_fold by done. f_equal.
  pose proof (csv_fold_cells cells [] Hne) as Hfold. cbn zeta in Hfold.
  rewrite Hfold; [|eapply Forall_impl; [exact Hok|]; by intros c (? & ? & ?)].
  simpl. clear Hne Hfuel Hfold.
  induction Hok as [|c cells (Hq & _ & Htrim) _ IH]; [done|].
  rewrite !fmap_cons, IH. f_equal.
  rewrite strip_quotes_id by done. by apply trim_id.
Qed.

Lemma parseCSVLine_round_trip_witness :
  Search.parseCSVLine 8
    (join_comma (cell_text <$> [(false, s_a); (true, [97; 44; 98]%N)])) =
  Some (snd <$> [(false, s_a); (true, [97; 44; 98]%N)]).
Proof.
  apply (parseCSVLine_round_trip [(false, s_a); (true, [97; 44; 98]%N)] 8);
    [done|apply (bool_decide_unpack _); by vm_compute|vm_compute; lia].
Defined.

(** ** The analysis of the keyword page *)

Lemma keywords_short :
  Forall (λ k, k ≠ [] ∧ len k ≤ 13)
    (Keywords.positive_keywords ++ Keywords.negative_keywords ++
     Keywords.neutral_keywords).
Proof. apply (bool_decide_unpack _). by vm_compute. Qed.

Lemma Keywords_collect_hits fuel lowerText algorithm keywords results :
  Forall (λ k, k ≠ [] ∧ len k ≤ 13) keywords →
  (Z.to_nat (2 * len lowerText + 30) ≤ fuel)%nat →
  Keywords.collect fuel lowerText algorithm keywords results =
  Some (results ++ hits_of lowerText keywords).
Proof.
  intros Hkws Hfuel. revert results.
  induction Hkws as [|k keywords [Hne Hlen] _ IH]; intros results.
  { simpl. by rewrite app_nil_r. }
  simpl. rewrite Keywords_findMatches_occurrences; [|done|].
  2:{ unfold budget. pose proof (len_nonneg lowerText). lia. }
  simpl. rewrite IH. f_equal. unfold hits_of. rewrite filter_cons.
  destruct (decide (occurrences lowerText k ≠ [])) as [Hocc|Hocc].
  - rewrite bool_decide_true.
    + rewrite fmap_cons. by rewrite <- app_assoc.
    + rewrite <- len_nil_iff in Hocc. pose proof (len_nonneg (occurrences lowerText k)).
      lia.
  - apply dec_stable in Hocc. rewrite Hocc. by rewrite bool_decide_false.
Qed.

Lemma Keywords_score_shift items a :
  foldl (λ sum item, sum + Keywords.kh_count item) a items =
  a + Keywords.score items.
Proof.
  unfold Keywords.score. revert a.
  induction items as [|item items IH]; intros a; simpl; [lia|].
  rewrite (IH (a + _)), (IH (0 + _)). lia.
Qed.

Lemma Keywords_score_hits text keywords :
  Keywords.score (hits_of text keywords) = total_occurrences text keywords.
Proof.
  unfold hits_of. induction keywords as [|k keywords IH]; [done|].
  simpl. rewrite filter_cons. case_decide as Hocc.
  - rewrite fmap_cons. unfold Keywords.score. simpl.
    rewrite Keywords_score_shift, IH. lia.
  - rewrite IH, Hocc. unfold len. simpl. lia.
Qed.

Lemma Keywords_analyzeSentiment_spec lower elapsed text algorithm fuel :
  (Z.to_nat (2 * len (lower text) + 30) ≤ fuel)%nat →
  Keywords.analyzeSentiment lower elapsed fuel text algorithm =
  Some (let positive := hits_of (lower text) Keywords.positive_keywords in
        let negative := hits_of (lower text) Keywords.negative_keywords in
        let neutral := hits_of (lower text) Keywords.neutral_keywords in
        let positiveScore := Keywords.score positive in
        let negativeScore := Keywords.score negative in
        let neutralScore := Keywords.score neutral in
        Keywords.Analysis positive negative neutral
          positiveScore negativeScore neutralScore
          (if bool_decide (positiveScore > negativeScore) &&
              bool_decide (positiveScore > neutralScore) then Keywords.POSITIVE
           else if bool_decide (negativeScore > positiveScore) &&
                   bool_decide (negativeScore > neutralScore) then Keywords.NEGATIVE
           else Keywords.NEUTRAL)
          elapsed algorithm
          (len (filter (λ word, len word > 0)
                       (Keywords.split_spaces false [] text)))).
Proof.
  intros Hfuel. unfold Keywords.analyzeSentiment.
  pose proof keywords_short as [Hpos [Hneg Hneu]%Forall_app]%Forall_app.
  rewrite !Keywords_collect_hits by done. done.
Qed.

Lemma get_app_middle {A} (pre : list A) c rest :
  get (pre ++ c :: rest) (len pre) = Some c.
Proof.
  rewrite get_lookup by apply len_nonneg. unfold len. rewrite Nat2Z.id.
  apply list_lookup_middle. done.
Qed.

Lemma len_cons {A} (x : A) l : len (x :: l) = len l + 1.
Proof. unfold len. simpl. lia. Qed.

(** The pieces of [split] that are not empty are the words: one for each
    offset where a word starts. *)
Lemma split_spaces_words text s pre in_space current :
  text = pre ++ s →
  (in_space = true → current = []) →
  (current = [] ↔
   len pre = 0 ∨ is_space <$> get text (len pre - 1) = Some true) →
  len (filter (λ word, len word > 0) (Keywords.split_spaces in_space current s)) =
  (if decide (current = []) then 0 else 1) +
  len (filter (word_start text) (seqZ (len pre) (len s))).
Proof.
  revert pre in_space current.
  induction s as [|c rest IH]; intros pre b cur Htext Hb Hcur.
  { simpl. rewrite filter_cons, filter_nil.
    destruct (decide (len cur > 0)) as [Hlen|Hlen];
      destruct (decide (cur = [])) as [Hnil|Hnil]; try done.
    - subst cur. unfold len in Hlen. simpl in Hlen. lia.
    - destruct cur; [done|]. rewrite len_cons in Hlen.
      pose proof (len_nonneg cur). lia. }
  assert (get text (len pre) = Some c) as Hget
    by (rewrite Htext; apply get_app_middle).
  assert (text = (pre ++ [c]) ++ rest) as Htext'
    by (by rewrite <- app_assoc).
  assert (len (pre ++ [c]) = len pre + 1) as Hlen' by apply len_snoc.
  pose proof (len_nonneg pre) as Hpre. pose proof (len_nonneg rest) as Hrest.
  rewrite (len_cons c rest). rewrite seqZ_cons by lia.
  replace (Z.succ (len pre)) with (len (pre ++ [c])) by lia.
  replace (Z.pred (len rest + 1)) with (len rest) by lia.
  rewrite (filter_cons (word_start text)).
  assert (word_start text (len pre) ↔ is_space c = false ∧ cur = []) as Hstart.
  { unfold word_start. rewrite Hget. simpl. rewrite Hcur.
    split; intros [Hc H]; (split; [congruence|done]). }
  cbn [Keywords.split_spaces]. destruct (is_space c) eqn:Hc.
  - rewrite (decide_False (P := word_start text (len pre)))
      by (rewrite Hstart; by intros [? _]).
    assert ((@nil N) = [] ↔ len (pre ++ [c]) = 0 ∨
            is_space <$> get text (len (pre ++ [c]) - 1) = Some true) as Hcur'.
    { split; [|done]. intros _. right.
      replace (len (pre ++ [c]) - 1) with (len pre) by lia.
      rewrite Hget. simpl. by rewrite Hc. }
    destruct b.
    + rewrite (Hb eq_refl) in *.
      rewrite (IH (pre ++ [c]) true []) by done.
      by rewrite !decide_True by done.
    + rewrite filter_cons.
      pose proof (IH (pre ++ [c]) true [] Htext' ltac:(done) Hcur') as IH'.
      rewrite (decide_True (P := (@nil N) = [])) in IH' by done.
      destruct (decide (len cur > 0)) as [Hlen|Hlen];
        destruct (decide (cur = [])) as [Hnil|Hnil].
      * subst cur. unfold len in Hlen. simpl in Hlen. lia.
      * rewrite len_cons, IH'. lia.
      * rewrite IH'. lia.
      * destruct cur; [done|]. rewrite len_cons in Hlen.
        pose proof (len_nonneg cur). lia.
  - rewrite (IH (pre ++ [c]) false (cur ++ [c])); [|done|done|].
    + rewrite (decide_False (P := cur ++ [c] = [])) by (by destruct cur).
      destruct (decide (cur = [])) as [Hnil|Hnil].
      * rewrite (decide_True (P := word_start text (len pre)))
          by (by apply Hstart).
        rewrite len_cons. lia.
      * rewrite (decide_False (P := word_start text (len pre)))
          by (rewrite Hstart; by intros [_ ?]).
        lia.
    + split; [by destruct cur|].
      intros [?|Hsp]; [lia|].
      replace (len (pre ++ [c]) - 1) with (len pre) in Hsp by lia.
      rewrite Hget in Hsp. simpl in Hsp. congruence.
Qed.

(** X17.  [analyzeSentiment] of the keyword page (js/script.js, lines
    978-1036) lists, for each class and whatever the algorithm tag, the
    keywords of the class that occur in the lower-cased text, in the order
    of the table, each with all its offsets and their number; a keyword is
    found inside a longer word as well.  The score of a class is the
    number of occurrences of its keywords added up, and the overall
    sentiment is positive (negative) exactly when the positive (negative)
    score is greater than each of the other two. *)
Theorem Keywords_analyzeSentiment_counts lower elapsed text algorithm fuel :
  (Z.to_nat (2 * len (lower text) + 30) ≤ fuel)%nat →
  ∃ res,
    Keywords.analyzeSentiment lower elapsed fuel text algorithm = Some res ∧
    Keywords.an_positive res = hits_of (lower text) Keywords.positive_keywords ∧
    Keywords.an_negative res = hits_of (lower text) Keywords.negative_keywords ∧
    Keywords.an_neutral res = hits_of (lower text) Keywords.neutral_keywords ∧
    Keywords.an_positiveScore res =
      total_occurrences (lower text) Keywords.positive_keywords ∧
    Keywords.an_negativeScore res =
      total_occurrences (lower text) Keywords.negative_keywords ∧
    Keywords.an_neutralScore res =
      total_occurrences (lower text) Keywords.neutral_keywords ∧
    (Keywords.an_overallSentiment res = Keywords.POSITIVE ↔
     Keywords.an_positiveScore res > Keywords.an_negativeScore res ∧
     Keywords.an_positiveScore res > Keywords.an_neutralScore res) ∧
    (Keywords.an_overallSentiment res = Keywords.NEGATIVE ↔
     Keywords.an_negativeScore res > Keywords.an_positiveScore res ∧
     Keywords.an_negativeScore res > Keywords.an_neutralScore res) ∧
    Keywords.an_algorithm res = algorithm ∧
    Keywords.an_processingTime res = elapsed.
Proof.
  intros Hfuel. rewrite Keywords_analyzeSentiment_spec by done.
  eexists. split; [done|]. cbn zeta.
  cbn [Keywords.an_positive Keywords.an_negative Keywords.an_neutral
       Keywords.an_positiveScore Keywords.an_negativeScore
       Keywords.an_neutralScore Keywords.an_overallSentiment
       Keywords.an_algorithm Keywords.an_processingTime].
  rewrite !Keywords_score_hits.
  repeat (split; [done|]).
  split; [|split; [|done]].
  - repeat case_bool_decide; simpl;
      (split; [intros ?; (done || lia)|intros [? ?]; (done || lia)]).
  - repeat case_bool_decide; simpl;
      (split; [intros ?; (done || lia)|intros [? ?]; (done || lia)]).
Qed.

Lemma Keywords_analyzeSentiment_counts_witness :
  ∃ res,
    Keywords.analyzeSentiment Search.latin_toLowerCase [] 68 s_review tag_kmp
      = Some res ∧
    Keywords.an_positive res =
      hits_of (Search.latin_toLowerCase s_review) Keywords.positive_keywords ∧
    Keywords.an_negative res =
      hits_of (Search.latin_toLowerCase s_review) Keywords.negative_keywords ∧
    Keywords.an_neutral res =
      hits_of (Search.latin_toLowerCase s_review) Keywords.neutral_keywords ∧
    Keywords.an_positiveScore res =
      total_occurrences (Search.latin_toLowerCase s_review) Keywords.positive_keywords ∧
    Keywords.an_negativeScore res =
      total_occurrences (Search.latin_toLowerCase s_review) Keywords.negative_keywords ∧
    Keywords.an_neutralScore res =
      total_occurrences (Search.latin_toLowerCase s_review) Keywords.neutral_keywords ∧
    (Keywords.an_overallSentiment res = Keywords.POSITIVE ↔
     Keywords.an_positiveScore res > Keywords.an_negativeScore res ∧
     Keywords.an_positiveScore res > Keywords.an_neutralScore res) ∧
    (Keywords.an_overallSentiment res = Keywords.NEGATIVE ↔
     Keywords.an_negativeScore res > Keywords.an_positiveScore res ∧
     Keywords.an_negativeScore res > Keywords.an_neutralScore res) ∧
    Keywords.an_algorithm res = tag_kmp ∧
    Keywords.an_processingTime res = [].
Proof.
  apply (Keywords_analyzeSentiment_counts Search.latin_toLowerCase [] s_review
           tag_kmp 68).
  vm_compute. lia.
Defined.

(** X18.  The word count of [analyzeSentiment] (js/script.js, line 1020)
    is the number of words of the text: the number of offsets whose unit
    is not white space and is the first of the text or follows white
    space. *)
Theorem Keywords_analyzeSentiment_wordCount lower elapsed text algorithm fuel :
  (Z.to_nat (2 * len (lower text) + 30) ≤ fuel)%nat →
  ∃ res,
    Keywords.analyzeSentiment lower elapsed fuel text algorithm = Some res ∧
    Keywords.an_wordCount res =
      len (filter (word_start text) (seqZ 0 (len text))).
Proof.
  intros Hfuel. rewrite Keywords_analyzeSentiment_spec by done.
  eexists. split; [done|]. cbn zeta. cbn [Keywords.an_wordCount].
  rewrite (split_spaces_words text text [] false []); [done|done|done|].
  split; [by left|done].
Qed.

Lemma Keywords_analyzeSentiment_wordCount_witness :
  ∃ res,
    Keywords.analyzeSentiment Search.latin_toLowerCase [] 68 s_review tag_kmp
      = Some res ∧
    Keywords.an_wordCount res =
      len (filter (word_start s_review) (seqZ 0 (len s_review))).
Proof.
  apply (Keywords_analyzeSentiment_wordCount Search.latin_toLowerCase [] s_review
           tag_kmp 68).
  vm_compute. lia.
Defined.
